(** * ProduSoft assistant route: the agent orchestration engine

    A shallow embedding of [frontend/app/api/langchain/assistant/route.ts]:
    the action catalogue with its argument schemas, the plan executor with
    the checklist rule that precedes a stage completion, the plan generator,
    the context builder and the answer synthesizer.

    Conventions.
    - A JavaScript string is the sequence of its code units; the code units
      are taken from [ascii], which covers the literals of the route except
      the dash of the log line (see [EM_DASH]).
    - What the route gets from its run time (case mappings, [JSON.parse],
      [JSON.stringify], [Date], [Array.prototype.sort], the text of a
      number and of a Zod error, the environment) is the interface
      [Runtime]; the services it calls over the network
      (workflow API, identity, model endpoint) are the interface [Remote].
    - An [async] function is a computation [M A]: it reads and changes the
      state of the remote world, emits the requests it made, and either
      returns or throws an [Error] with a message. *)

From Stdlib Require Import ZArith Ascii String.
From stdpp Require Import base option list gmap strings pretty sorting.

Local Open Scope Z_scope.

(** ** Strings *)

Module JsString.

(** [WhiteSpace] and [LineTerminator] code units below 256: TAB, LF, VT, FF,
    CR, SP and NBSP. *)
Definition is_white_space (c : ascii) : bool :=
  match c with
  | "009" | "010" | "011" | "012" | "013" | " " | "160" => true
  | _ => false
  end%char.

Fixpoint trimStart (s : string) : string :=
  match s with
  | String c s' => if is_white_space c then trimStart s' else s
  | EmptyString => EmptyString
  end.

Definition trimEnd (s : string) : string :=
  String.rev (trimStart (String.rev s)).

(** [String.prototype.trim] *)
Definition trim (s : string) : string := trimEnd (trimStart s).

(** Dropping and keeping the first [n] code units. *)
Fixpoint drop (n : nat) (s : string) : string :=
  match n, s with
  | O, _ => s
  | S n', String _ s' => drop n' s'
  | S _, EmptyString => EmptyString
  end.

Fixpoint take (n : nat) (s : string) : string :=
  match n, s with
  | O, _ => EmptyString
  | S n', String c s' => String c (take n' s')
  | S _, EmptyString => EmptyString
  end.

(** [s.slice(a, b)] for [0 <= a], [0 <= b]. *)
Definition slice (s : string) (a b : nat) : string :=
  take (b - a) (drop a s).

(** [s.startsWith(p)]. *)
Fixpoint startsWith (p s : string) : bool :=
  match p, s with
  | EmptyString, _ => true
  | String a p', String b s' => if decide (a = b) then startsWith p' s' else false
  | String _ _, EmptyString => false
  end.

(** The position of the first, and of the last, suffix of [s] that
    satisfies [p], counted from [i]. *)
Fixpoint find_first (p : string → bool) (s : string) (i : nat) : option nat :=
  if p s then Some i
  else match s with
       | EmptyString => None
       | String _ s' => find_first p s' (S i)
       end.

Fixpoint find_last (p : string → bool) (s : string) (i : nat) : option nat :=
  match s with
  | EmptyString => if p s then Some i else None
  | String _ s' =>
      match find_last p s' (S i) with
      | Some j => Some j
      | None => if p s then Some i else None
      end
  end.

(** [s.indexOf(p)] and [s.lastIndexOf(p)]; [None] is [-1]. *)
Definition indexOf (p s : string) : option nat := find_first (startsWith p) s 0.
Definition lastIndexOf (p s : string) : option nat := find_last (startsWith p) s 0.

(** [Canonicalize] of a regular expression with the [i] flag and without
    the [u] flag, on the code units that can match an ASCII letter: a code
    unit of 128 and more never canonicalizes to an ASCII one. *)
Definition canonicalize (c : ascii) : ascii :=
  let n := nat_of_ascii c in
  if (97 <=? n)%nat && (n <=? 122)%nat then ascii_of_nat (n - 32) else c.

Fixpoint startsWith_ci (p s : string) : bool :=
  match p, s with
  | EmptyString, _ => true
  | String a p', String b s' =>
      if decide (canonicalize a = canonicalize b) then startsWith_ci p' s' else false
  | String _ _, EmptyString => false
  end.

(** [xs.join(sep)] *)
Fixpoint join (sep : string) (xs : list string) : string :=
  match xs with
  | [] => ""
  | [x] => x
  | x :: xs' => x +:+ sep +:+ join sep xs'
  end.

(** The decimal digits of an integer, with its sign: [String(n)] of an
    integral number below 10^21 in absolute value. *)
Definition of_Z (n : Z) : string := pretty n.
Definition of_nat (n : nat) : string := pretty n.

End JsString.


(** U+2014, the dash of the execution-log line; it lies outside the 8-bit
    code units and is kept as the three octets of its UTF-8 form. *)
Definition EM_DASH : string := "—".

(** ** JSON values *)

(** A JSON number is integral, with its value, or it has a fractional part:
    [NonInteger m e] is [m / 2^e] with [m] odd, the form every number of
    JavaScript that is no integer has. *)
Inductive JSNumber :=
| Integer (z : Z)
| NonInteger (m : Z) (e : positive).

(** [Math.floor(n)] *)
Definition floor (n : JSNumber) : Z :=
  match n with
  | Integer z => z
  | NonInteger m e => Z.shiftr m (Z.pos e)
  end.

(** [b < n], [b <= n] and [n <= b] for an integer [b]; a number with a
    fractional part lies strictly between its floor and the next integer. *)
Definition lt_number (b : Z) (n : JSNumber) : bool :=
  match n with
  | Integer z => b <? z
  | NonInteger _ _ => b <=? floor n
  end.

Definition le_number (b : Z) (n : JSNumber) : bool :=
  match n with
  | Integer z => b <=? z
  | NonInteger _ _ => b <=? floor n
  end.

Definition number_le (n : JSNumber) (b : Z) : bool :=
  match n with
  | Integer z => z <=? b
  | NonInteger _ _ => floor n <? b
  end.

#[warnings="-register-all"]
Inductive JSON :=
| JNull
| JBool (b : bool)
| JNumber (n : JSNumber)
| JString (s : string)
| JArray (items : list JSON)
| JObject (props : list (string * JSON)).

(** [o[k]] on the own properties of an object; [None] is [undefined]. *)
Fixpoint get_prop (k : string) (props : list (string * JSON)) : option JSON :=
  match props with
  | [] => None
  | (k', v) :: rest => if decide (k = k') then Some v else get_prop k rest
  end.

(** ** The data of the workflow service ([types/api.ts])

    The literal-union types [StageType] and [StageState] are not checked
    when a response is read, so the fields of a response that carry them are
    strings here; the enumerations are what the schemas produce. *)

Inductive StageType := PREPARATION | ASSEMBLY | DELIVERY.

Inductive StageState :=
| BLOCKED | PENDING | IN_PROGRESS | COMPLETED | EXCEPTION | SKIPPED | REWORK.

Inductive Role := OPERATOR | SUPERVISOR.

Global Instance StageType_eq_dec : EqDecision StageType.
Proof. solve_decision. Defined.
Global Instance StageState_eq_dec : EqDecision StageState.
Proof. solve_decision. Defined.
Global Instance Role_eq_dec : EqDecision Role.
Proof. solve_decision. Defined.
Global Instance Role_countable : Countable Role.
Proof.
  refine (inj_countable' (λ r, match r with OPERATOR => true | SUPERVISOR => false end)
                         (λ b : bool, if b then OPERATOR else SUPERVISOR) _).
  by intros [].
Defined.

Definition StageType_string (s : StageType) : string :=
  match s with
  | PREPARATION => "PREPARATION" | ASSEMBLY => "ASSEMBLY" | DELIVERY => "DELIVERY"
  end.

Definition StageState_string (s : StageState) : string :=
  match s with
  | BLOCKED => "BLOCKED" | PENDING => "PENDING" | IN_PROGRESS => "IN_PROGRESS"
  | COMPLETED => "COMPLETED" | EXCEPTION => "EXCEPTION" | SKIPPED => "SKIPPED"
  | REWORK => "REWORK"
  end.

Definition Role_string (r : Role) : string :=
  match r with OPERATOR => "OPERATOR" | SUPERVISOR => "SUPERVISOR" end.

Definition STAGE_ORDER : list StageType := [PREPARATION; ASSEMBLY; DELIVERY].

Definition STAGE_STATES : list StageState :=
  [BLOCKED; PENDING; IN_PROGRESS; COMPLETED; EXCEPTION; SKIPPED; REWORK].

Record ChecklistItem := {
  item_id : string;
  item_label : string;
  item_required : bool;
  item_completed : bool;
}.

Record OrderStageStatus := {
  stage_id : Z;
  stage_stage : string;
  stage_state : string;
  stage_assignee : option string;
  stage_claimedAt : option string;
  stage_startedAt : option string;
  stage_completedAt : option string;
  stage_serviceTimeMinutes : option Z;
  stage_notes : option string;
  stage_exceptionReason : option string;
  stage_supervisorNotes : option string;
  stage_approvedBy : option string;
  stage_updatedAt : option string;
  stage_checklist : list ChecklistItem;
}.

Record OrderResponse := {
  order_id : Z;
  order_orderNumber : string;
  order_priority : option Z;
  order_currentStage : string;
  order_overallState : string;
  order_createdAt : string;
  order_updatedAt : string;
  order_notes : option string;
  order_stages : list OrderStageStatus;
}.

Record UserProfile := {
  profile_username : string;
  profile_roles : list string;
}.

(** ** Action names and results *)

Inductive ActionName :=
| list_orders
| get_order_details
| list_stage_checklist
| create_order
| update_order_priority
| claim_stage
| update_stage_checklist
| complete_stage
| flag_stage_exception
| approve_stage_skip.

Global Instance ActionName_eq_dec : EqDecision ActionName.
Proof. solve_decision. Defined.

Definition ACTION_NAMES : list ActionName :=
  [list_orders; get_order_details; list_stage_checklist; create_order;
   update_order_priority; claim_stage; update_stage_checklist; complete_stage;
   flag_stage_exception; approve_stage_skip].

Definition ActionName_string (n : ActionName) : string :=
  match n with
  | list_orders => "list_orders"
  | get_order_details => "get_order_details"
  | list_stage_checklist => "list_stage_checklist"
  | create_order => "create_order"
  | update_order_priority => "update_order_priority"
  | claim_stage => "claim_stage"
  | update_stage_checklist => "update_stage_checklist"
  | complete_stage => "complete_stage"
  | flag_stage_exception => "flag_stage_exception"
  | approve_stage_skip => "approve_stage_skip"
  end.

Inductive Status := success | error | skipped.

Global Instance Status_eq_dec : EqDecision Status.
Proof. solve_decision. Defined.

(** [status.toUpperCase()] of the three literals. *)
Definition Status_upper (s : Status) : string :=
  match s with success => "SUCCESS" | error => "ERROR" | skipped => "SKIPPED" end.

Definition Status_string (s : Status) : string :=
  match s with success => "success" | error => "error" | skipped => "skipped" end.

(** The [data] of a result is [unknown] in the source; these are the values
    the handlers put there. *)
Inductive Payload :=
| DataOrders (orders : list OrderResponse)
| DataOrder (order : OrderResponse)
| DataChecklist (tasks : list ChecklistItem)
| DataStage (status : option OrderStageStatus).

Record AgentActionResult := {
  result_name : string;
  result_status : Status;
  result_summary : string;
  result_data : option Payload;
  result_error : option string;
}.

Record ExecutionContext := {
  ctx_token : string;
  ctx_username : string;
  ctx_roles : gset Role;
}.

(** ** Zod schemas

    [schema.safeParse(v)] gives the typed data or the list of issues; the
    issues of the properties of an object are collected in the order of the
    shape. An issue is kept as Zod records it: its code with the fields
    that go with the code, and its path; its message is derived from them. *)

Module Zod.

Inductive PathSeg := Key (k : string) | Index (i : nat).

Inductive IssueKind :=
| invalid_type (expected received : string)
| invalid_enum_value (options : list string) (received : string)
| too_small (kind : string) (minimum : Z) (inclusive : bool)
| too_big (kind : string) (maximum : Z) (inclusive : bool).

Record ZodIssue := {
  issue_kind : IssueKind;
  issue_path : list PathSeg;
}.

Definition issue_code (i : ZodIssue) : string :=
  match issue_kind i with
  | invalid_type _ _ => "invalid_type"
  | invalid_enum_value _ _ => "invalid_enum_value"
  | too_small _ _ _ => "too_small"
  | too_big _ _ _ => "too_big"
  end.

Inductive SafeParse (A : Type) :=
| Success (data : A)
| Failure (issues : list ZodIssue).
Global Arguments Success {A} data.
Global Arguments Failure {A} issues.

(** A schema reads the value found at a path; [None] is [undefined]. *)
Definition ZodType (A : Type) : Type := list PathSeg → option JSON → SafeParse A.

Definition safeParse {A} (t : ZodType A) (v : JSON) : SafeParse A := t [] (Some v).

Definition issue (kind : IssueKind) (path : list PathSeg) : ZodIssue :=
  {| issue_kind := kind; issue_path := path |}.

(** [getParsedType(v)], the [received] of an [invalid_type] issue. *)
Definition parsed_type (v : option JSON) : string :=
  match v with
  | None => "undefined"
  | Some JNull => "null"
  | Some (JBool _) => "boolean"
  | Some (JNumber _) => "number"
  | Some (JString _) => "string"
  | Some (JArray _) => "array"
  | Some (JObject _) => "object"
  end.

Definition map_parse {A B} (f : A → B) (x : SafeParse A) : SafeParse B :=
  match x with
  | Success a => Success (f a)
  | Failure e => Failure e
  end.

Definition ap_parse {A B} (f : SafeParse (A → B)) (x : SafeParse A) : SafeParse B :=
  match f, x with
  | Success g, Success a => Success (g a)
  | Success _, Failure e => Failure e
  | Failure e, Success _ => Failure e
  | Failure e1, Failure e2 => Failure (e1 ++ e2)
  end.

(** [.positive()], [.min(n)] and [.max(n)] *)
Inductive NumberCheck :=
| gt_zero
| at_least (n : Z)
| at_most (n : Z).

Definition check_number (x : JSNumber) (c : NumberCheck) : option IssueKind :=
  match c with
  | gt_zero => if lt_number 0 x then None else Some (too_small "number" 0 false)
  | at_least n => if le_number n x then None else Some (too_small "number" n true)
  | at_most n => if number_le x n then None else Some (too_big "number" n true)
  end.

(** [z.number().int()] followed by the range checks [cs]: the checks run
    in the order they were added, and each one that fails adds its issue;
    a number with a fractional part fails [.int()] and is still checked
    against the ranges. *)
Definition z_int (cs : list NumberCheck) : ZodType Z := λ path v,
  match v with
  | Some (JNumber (Integer z)) =>
      match omap (check_number (Integer z)) cs with
      | [] => Success z
      | kinds => Failure ((λ k, issue k path) <$> kinds)
      end
  | Some (JNumber (NonInteger m e)) =>
      Failure ((λ k, issue k path)
                 <$> invalid_type "integer" "float" :: omap (check_number (NonInteger m e)) cs)
  | _ => Failure [issue (invalid_type "number" (parsed_type v)) path]
  end.

Inductive StringCheck :=
| min_length (n : nat)
| max_length (n : nat).

Definition check_string (s : string) (c : StringCheck) : option IssueKind :=
  match c with
  | min_length n =>
      if (n <=? String.length s)%nat then None else Some (too_small "string" (Z.of_nat n) true)
  | max_length n =>
      if (String.length s <=? n)%nat then None else Some (too_big "string" (Z.of_nat n) true)
  end.

(** [z.string()] followed by the length checks [cs]. *)
Definition z_string (cs : list StringCheck) : ZodType string := λ path v,
  match v with
  | Some (JString s) =>
      match omap (check_string s) cs with
      | [] => Success s
      | kinds => Failure ((λ k, issue k path) <$> kinds)
      end
  | _ => Failure [issue (invalid_type "string" (parsed_type v)) path]
  end.

Definition z_boolean : ZodType bool := λ path v,
  match v with
  | Some (JBool b) => Success b
  | _ => Failure [issue (invalid_type "boolean" (parsed_type v)) path]
  end.

(** [z.any()] *)
Definition z_any : ZodType (option JSON) := λ _ v, Success v.

(** [util.joinValues(values)]: the literals in single quotes, with bars. *)
Definition joinValues (values : list string) : string :=
  JsString.join " | " ((λ v, "'" +:+ v +:+ "'") <$> values).

(** [z.enum(values)], the values given with their literal. *)
Definition z_enum {A} (show : A → string) (values : list A) : ZodType A := λ path v,
  match v with
  | Some (JString s) =>
      match List.find (λ a, bool_decide (show a = s)) values with
      | Some a => Success a
      | None => Failure [issue (invalid_enum_value (show <$> values) s) path]
      end
  | _ => Failure [issue (invalid_type (joinValues (show <$> values)) (parsed_type v)) path]
  end.

(** [t.optional()] *)
Definition optional {A} (t : ZodType A) : ZodType (option A) := λ path v,
  match v with
  | None => Success None
  | Some _ => map_parse Some (t path v)
  end.

(** [t.default(d)] *)
Definition with_default {A} (t : ZodType A) (d : A) : ZodType A := λ path v,
  match v with
  | None => Success d
  | Some _ => t path v
  end.

Fixpoint parse_items {A} (t : ZodType A) (path : list PathSeg) (i : nat)
    (items : list JSON) : SafeParse (list A) :=
  match items with
  | [] => Success []
  | x :: rest =>
      ap_parse (map_parse cons (t (path ++ [Index i]) (Some x)))
               (parse_items t path (S i) rest)
  end.

(** [z.array(t)], and [z.array(t).min(n)]: the length check comes first
    among the issues. *)
Definition z_array_min {A} (t : ZodType A) (n : nat) : ZodType (list A) := λ path v,
  match v with
  | Some (JArray items) =>
      let short : SafeParse unit :=
        if (n <=? length items)%nat then Success ()
        else Failure [issue (too_small "array" (Z.of_nat n) true) path] in
      ap_parse (map_parse (λ _ xs, xs) short) (parse_items t path 0 items)
  | _ => Failure [issue (invalid_type "array" (parsed_type v)) path]
  end.

Definition z_array {A} (t : ZodType A) : ZodType (list A) := z_array_min t 0.

(** [z.record(z.any())]: an object, with its properties as they are. *)
Definition z_record_any : ZodType (list (string * JSON)) := λ path v,
  match v with
  | Some (JObject props) => Success props
  | _ => Failure [issue (invalid_type "object" (parsed_type v)) path]
  end.

(** [z.object(shape)]: the properties named by the shape are read, the
    others are dropped. *)
Definition z_object {A}
    (shape : list PathSeg → list (string * JSON) → SafeParse A) : ZodType A := λ path v,
  match v with
  | Some (JObject props) => shape path props
  | _ => Failure [issue (invalid_type "object" (parsed_type v)) path]
  end.

Definition prop {A} (path : list PathSeg) (props : list (string * JSON))
    (k : string) (t : ZodType A) : SafeParse A :=
  t (path ++ [Key k]) (get_prop k props).

End Zod.

Import Zod.

Notation "f <$$> x" := (map_parse f x) (at level 61, left associativity).
Notation "f <**> x" := (ap_parse f x) (at level 61, left associativity).

(** ** The argument schemas of the actions *)

Record ListOrdersArgs := {
  lo_limit : option Z;
  lo_stage : option StageType;
  lo_states : option (list StageState);
}.

Record GetOrderDetailsArgs := {
  god_orderId : Z;
}.

Record CreateOrderArgs := {
  co_orderNumber : string;
  co_priority : option Z;
  co_notes : option string;
}.

Record UpdatePriorityArgs := {
  up_orderId : Z;
  up_priority : Z;
}.

Record ClaimStageArgs := {
  cl_orderId : Z;
  cl_stage : StageType;
  cl_assignee : option string;
}.

Record ListChecklistArgs := {
  lc_orderId : Z;
  lc_stage : StageType;
}.

Record CompleteStageArgs := {
  cs_orderId : Z;
  cs_stage : StageType;
  cs_serviceTimeMinutes : option Z;
  cs_notes : option string;
}.

Record TaskUpdate := {
  taskId : string;
  completed : bool;
}.

Record UpdateChecklistArgs := {
  uc_orderId : Z;
  uc_stage : StageType;
  uc_tasks : list TaskUpdate;
}.

Record FlagExceptionArgs := {
  fe_orderId : Z;
  fe_stage : StageType;
  fe_exceptionReason : string;
  fe_notes : option string;
}.

Record ApproveSkipArgs := {
  as_orderId : Z;
  as_stage : StageType;
  as_notes : option string;
}.

Definition z_stage : ZodType StageType := z_enum StageType_string STAGE_ORDER.
Definition z_state : ZodType StageState := z_enum StageState_string STAGE_STATES.
Definition z_orderId : ZodType Z := z_int [gt_zero].

Definition ListOrdersSchema : ZodType ListOrdersArgs :=
  z_object (λ path o,
    Build_ListOrdersArgs
      <$$> prop path o "limit" (optional (z_int [at_least 1; at_most 25]))
      <**> prop path o "stage" (optional z_stage)
      <**> prop path o "states" (optional (z_array z_state))).

Definition GetOrderDetailsSchema : ZodType GetOrderDetailsArgs :=
  z_object (λ path o,
    Build_GetOrderDetailsArgs <$$> prop path o "orderId" z_orderId).

Definition CreateOrderSchema : ZodType CreateOrderArgs :=
  z_object (λ path o,
    Build_CreateOrderArgs
      <$$> prop path o "orderNumber" (z_string [min_length 3; max_length 64])
      <**> prop path o "priority" (optional (z_int [at_least 0; at_most 999]))
      <**> prop path o "notes" (optional (z_string [max_length 2000]))).

Definition UpdatePrioritySchema : ZodType UpdatePriorityArgs :=
  z_object (λ path o,
    Build_UpdatePriorityArgs
      <$$> prop path o "orderId" z_orderId
      <**> prop path o "priority" (z_int [at_least 0; at_most 999])).

Definition ClaimStageSchema : ZodType ClaimStageArgs :=
  z_object (λ path o,
    Build_ClaimStageArgs
      <$$> prop path o "orderId" z_orderId
      <**> prop path o "stage" z_stage
      <**> prop path o "assignee" (optional (z_string [min_length 2; max_length 64]))).

Definition ListChecklistSchema : ZodType ListChecklistArgs :=
  z_object (λ path o,
    Build_ListChecklistArgs
      <$$> prop path o "orderId" z_orderId
      <**> prop path o "stage" z_stage).

Definition CompleteStageSchema : ZodType CompleteStageArgs :=
  z_object (λ path o,
    Build_CompleteStageArgs
      <$$> prop path o "orderId" z_orderId
      <**> prop path o "stage" z_stage
      <**> prop path o "serviceTimeMinutes" (optional (z_int [at_least 1; at_most 600]))
      <**> prop path o "notes" (optional (z_string [max_length 2000]))).

Definition TaskUpdateSchema : ZodType TaskUpdate :=
  z_object (λ path o,
    Build_TaskUpdate
      <$$> prop path o "taskId" (z_string [min_length 1])
      <**> prop path o "completed" z_boolean).

Definition UpdateChecklistSchema : ZodType UpdateChecklistArgs :=
  z_object (λ path o,
    Build_UpdateChecklistArgs
      <$$> prop path o "orderId" z_orderId
      <**> prop path o "stage" z_stage
      <**> prop path o "tasks" (z_array_min TaskUpdateSchema 1)).

Definition FlagExceptionSchema : ZodType FlagExceptionArgs :=
  z_object (λ path o,
    Build_FlagExceptionArgs
      <$$> prop path o "orderId" z_orderId
      <**> prop path o "stage" z_stage
      <**> prop path o "exceptionReason" (z_string [min_length 3; max_length 500])
      <**> prop path o "notes" (optional (z_string [max_length 2000]))).

Definition ApproveSkipSchema : ZodType ApproveSkipArgs :=
  z_object (λ path o,
    Build_ApproveSkipArgs
      <$$> prop path o "orderId" z_orderId
      <**> prop path o "stage" z_stage
      <**> prop path o "notes" (optional (z_string [max_length 2000]))).

(** The arguments of the handler of each action: [z.infer] of its schema. *)
Definition ArgsOf (n : ActionName) : Type :=
  match n with
  | list_orders => ListOrdersArgs
  | get_order_details => GetOrderDetailsArgs
  | list_stage_checklist => ListChecklistArgs
  | create_order => CreateOrderArgs
  | update_order_priority => UpdatePriorityArgs
  | claim_stage => ClaimStageArgs
  | update_stage_checklist => UpdateChecklistArgs
  | complete_stage => CompleteStageArgs
  | flag_stage_exception => FlagExceptionArgs
  | approve_stage_skip => ApproveSkipArgs
  end.

(** ** The plan *)

Record PlannedAction := {
  action_name : string;
  action_rationale : option string;
  action_arguments : list (string * JSON);
}.

Record AgentPlan := {
  plan_intent : string;
  plan_reasoning : option string;
  plan_notes : option string;
  plan_actions : list PlannedAction;
}.

(** [z.enum(ACTION_NAMES)]; the name stays the string it is at run time. *)
Definition z_action_name : ZodType string := λ path v,
  ActionName_string <$$> z_enum ActionName_string ACTION_NAMES path v.

Definition PlanActionSchema : ZodType PlannedAction :=
  z_object (λ path o,
    Build_PlannedAction
      <$$> prop path o "name" z_action_name
      <**> prop path o "rationale" (optional (z_string []))
      <**> prop path o "arguments" (with_default z_record_any [])).

Definition PlanSchema : ZodType AgentPlan :=
  z_object (λ path o,
    Build_AgentPlan
      <$$> prop path o "intent" (with_default (z_string []) "")
      <**> prop path o "reasoning" (optional (z_string []))
      <**> prop path o "notes" (optional (z_string []))
      <**> prop path o "actions" (with_default (z_array PlanActionSchema) [])).

(** ** The run time and the remote services *)

(** *** Sorting

    A comparator gives a number, or [NaN] ([None]). The standard fixes the
    outcome of [Array.prototype.sort(compare)] when the comparator is
    consistent on the items: it is the stable sort, in which an item moves
    behind the items it is greater than ([compare(x, y)] is positive) and
    behind no other. When the comparator is not consistent the order is
    left to the engine. *)

(** [compare] is a consistent comparison function for [xs]: it gives a
    number on every pair, zero on equal items, opposite signs when its
    arguments are swapped, and what it puts in order is transitive. *)
Definition consistent {A} (compare : A → A → option Z) (xs : list A) : Prop :=
  ∀ a b c, a ∈ xs → b ∈ xs → c ∈ xs →
    compare a a = Some 0 ∧
    ∃ ab ba bc ac,
      compare a b = Some ab ∧ compare b a = Some ba ∧
      compare b c = Some bc ∧ compare a c = Some ac ∧
      Z.sgn ba = - Z.sgn ab ∧
      (ab ≤ 0 → bc ≤ 0 → ac ≤ 0).

Definition is_positive (v : option Z) : bool :=
  match v with Some z => 0 <? z | None => false end.

Fixpoint sort_insert {A} (compare : A → A → option Z) (x : A) (sorted : list A) : list A :=
  match sorted with
  | [] => [x]
  | y :: rest =>
      if is_positive (compare x y) then y :: sort_insert compare x rest
      else x :: sorted
  end.

(** The stable sort, by insertion from the right. *)
Definition sort {A} (compare : A → A → option Z) (xs : list A) : list A :=
  foldr (sort_insert compare) [] xs.

(** What the route takes from JavaScript, from its libraries and from the
    environment of the process. [JSON_parse] gives the message of the
    [SyntaxError] when it throws; [Date_getTime s] is
    [new Date(s).getTime()], [None] when that is [NaN]; [Number_toString]
    is [String(n)] of an integral number of 10^21 and more in absolute
    value, which JavaScript prints with an exponent; [ToString v] is
    [`${v}`]; [Array_sort compare xs] is [xs.slice().sort(compare)], known
    only where the standard fixes it. *)
Class Runtime := {
  toUpperCase : string → string;
  toLowerCase : string → string;
  JSON_parse : string → string + JSON;
  JSON_stringify_plan : AgentPlan → string;
  Date_getTime : string → option Z;
  Number_toString : Z → string;
  ToString : JSON → string;
  Array_sort : ∀ {A : Type}, (A → A → option Z) → list A → list A;
  Array_sort_consistent :
    ∀ {A : Type} (compare : A → A → option Z) (xs : list A),
      consistent compare xs → Array_sort compare xs = sort compare xs;
  ZodError_message : list ZodIssue → string;
  OLLAMA_BASE_URL : string;
  OLLAMA_MODEL : string;
}.

(** The requests of the route to the workflow service, one constructor per
    URL and method, with the content of the body. *)
Inductive Endpoint :=
| GET_orders                                   (* GET /api/orders *)
| GET_order (orderId : Z)                      (* GET /api/orders/:id *)
| POST_orders (orderNumber : string) (priority : option Z) (notes : option string)
| PATCH_priority (orderId : Z) (priority : Z)  (* PATCH /api/orders/:id/priority *)
| POST_claim (orderId : Z) (stage : StageType) (assignee : string)
| PATCH_checklist (orderId : Z) (stage : StageType) (task : string) (done : bool)
| POST_complete (orderId : Z) (stage : StageType) (assignee : string)
    (serviceTimeMinutes : Z) (notes : option string)
| POST_flag_exception (orderId : Z) (stage : StageType) (assignee : string)
    (exceptionReason : string) (notes : option string)
| POST_approve_skip (orderId : Z) (stage : StageType) (approver : string)
    (notes : option string)
| GET_auth_me.                                 (* GET /auth/me *)

(** The type the route reads the body of the answer at. *)
Definition Response (e : Endpoint) : Type :=
  match e with
  | GET_orders => list OrderResponse
  | GET_order _ | POST_orders _ _ _ | PATCH_priority _ _ => OrderResponse
  | GET_auth_me => UserProfile
  | _ => OrderStageStatus
  end.

(** The content of a model message is [unknown] in the source; these are
    the shapes [normalizeContent] tells apart. *)
Inductive ContentPart :=
| PartString (s : string)
| PartText (text : string)     (* an object whose [text] is a string *)
| PartOther.

Inductive Content :=
| ContentString (s : string)
| ContentParts (parts : list ContentPart)
| ContentOther.

Record ModelResponse := {
  response_content : Content;
  response_metadata_model : option string;
}.

Definition Message : Type := string * string.

(** [fetchJson token e] is [fetchWithAuthJson] on the request [e]: the body
    of the answer, or the message of the [Error] it throws (a status that
    is not ok, a body that is not JSON, no connection). [invoke] is
    [model.invoke]. Both may change the state of the world. *)
Class Remote (World : Type) := {
  fetchJson : string → ∀ e : Endpoint, World → (string + Response e) * World;
  invoke : list Message → World → (string + ModelResponse) * World;
}.

(** What a computation did, in order: the requests it sent, and the calls
    of action handlers (a ghost event at each call of [definition.handler]). *)
Inductive Event :=
| Request (token : string) (e : Endpoint)
| ModelCall (messages : list Message)
| HandlerCall (n : ActionName) (args : ArgsOf n).

Inductive Outcome (A : Type) :=
| Return (a : A)
| Throw (message : string).
Global Arguments Return {A} a.
Global Arguments Throw {A} message.

Definition M (World A : Type) : Type := World → Outcome A * World * list Event.

Section Monad.
Context {World : Type}.

Definition ret {A} (a : A) : M World A := λ w, (Return a, w, []).

Definition throw {A} (message : string) : M World A := λ w, (Throw message, w, []).

Definition bind {A B} (m : M World A) (k : A → M World B) : M World B := λ w,
  match m w with
  | (Return a, w', evs) =>
      match k a w' with
      | (r, w'', evs') => (r, w'', evs ++ evs')
      end
  | (Throw e, w', evs) => (Throw e, w', evs)
  end.

(** [try { m } catch (error) { h(error.message) }] *)
Definition try_catch {A} (m : M World A) (h : string → M World A) : M World A := λ w,
  match m w with
  | (Return a, w', evs) => (Return a, w', evs)
  | (Throw e, w', evs) =>
      match h e w' with
      | (r, w'', evs') => (r, w'', evs ++ evs')
      end
  end.

Definition emit (ev : Event) : M World unit := λ w, (Return (), w, [ev]).

End Monad.

Global Instance M_ret {World} : MRet (M World) := λ A a, ret a.
Global Instance M_bind {World} : MBind (M World) := λ A B k m, bind m k.

(** ** The route *)

Section Route.
Context {rt : Runtime} {World : Type} {rm : Remote World}.

Abbreviation M := (M World).

Definition fetchWithAuthJson (token : string) (e : Endpoint) : M (Response e) := λ w,
  match fetchJson token e w with
  | (inr body, w') => (Return body, w', [Request token e])
  | (inl message, w') => (Throw message, w', [Request token e])
  end.

Definition fetchOrders (token : string) : M (list OrderResponse) :=
  fetchWithAuthJson token GET_orders.

Definition fetchUserProfile (token : string) : M UserProfile :=
  fetchWithAuthJson token GET_auth_me.

Definition model_invoke (messages : list Message) : M ModelResponse := λ w,
  match invoke messages w with
  | (inr response, w') => (Return response, w', [ModelCall messages])
  | (inl message, w') => (Throw message, w', [ModelCall messages])
  end.

Record ActionDefinition := defineAction {
  name : ActionName;
  description : string;
  parameterSummary : string;
  roles : list Role;
  schema : ZodType (ArgsOf name);
  handler : ArgsOf name → ExecutionContext → M AgentActionResult;
}.

(** [`${n}`] of an integral number: the exponent form of the run time from
    10^21 on in absolute value, all its digits below. *)
Definition number_string (n : Z) : string :=
  if 10 ^ 21 <=? Z.abs n then Number_toString n else JsString.of_Z n.

(** [`${n}`] of a number that may be [null]. *)
Definition of_nullable (n : option Z) : string :=
  match n with Some z => number_string z | None => "null" end.

(** [`${s}`] of a string that may be [null]. *)
Definition of_nullable_string (s : option string) : string := default "null" s.

(** The code unit 34, the double quote. *)
Definition DQUOTE : string := String (ascii_of_nat 34) EmptyString.

(** [s.length === 1 ? '' : 's'] *)
Definition plural (n : nat) : string := if decide (n = 1%nat) then "" else "s".

Definition list_orders_handler (args : ListOrdersArgs) (ctx : ExecutionContext)
    : M AgentActionResult :=
  orders ← fetchOrders (ctx_token ctx);
  let filtered : list OrderResponse := orders in
  let filtered :=
    match lo_stage args with
    | Some stage => filter (λ order, order_currentStage order = StageType_string stage) filtered
    | None => filtered
    end in
  let filtered :=
    match lo_states args with
    | Some states =>
        if decide (length states = 0%nat) then filtered
        else filter (λ order, order_overallState order ∈ StageState_string <$> states) filtered
    | None => filtered
    end in
  let limit := default (Z.min (Z.of_nat (length filtered)) 10) (lo_limit args) in
  mret {| result_name := "list_orders";
          result_status := success;
          result_summary := "Retrieved " +:+ JsString.of_nat (length filtered)
                            +:+ " orders, returning " +:+ number_string limit +:+ ".";
          result_data := Some (DataOrders (take (Z.to_nat limit) filtered));
          result_error := None |}.

Definition get_order_details_handler (args : GetOrderDetailsArgs) (ctx : ExecutionContext)
    : M AgentActionResult :=
  data ← fetchWithAuthJson (ctx_token ctx) (GET_order (god_orderId args));
  mret {| result_name := "get_order_details";
          result_status := success;
          result_summary := "Pulled current data for order " +:+ order_orderNumber data +:+ ".";
          result_data := Some (DataOrder data);
          result_error := None |}.

(** [order.stages.find((status) => status.stage === stage)] *)
Definition find_stage (stage : StageType) (order : OrderResponse) : option OrderStageStatus :=
  List.find (λ status, bool_decide (stage_stage status = StageType_string stage))
            (order_stages order).

Definition list_stage_checklist_handler (args : ListChecklistArgs) (ctx : ExecutionContext)
    : M AgentActionResult :=
  order ← fetchWithAuthJson (ctx_token ctx) (GET_order (lc_orderId args));
  match find_stage (lc_stage args) order with
  | None =>
      mret {| result_name := "list_stage_checklist";
              result_status := error;
              result_summary := "Stage " +:+ StageType_string (lc_stage args)
                                +:+ " was not found on order " +:+ order_orderNumber order +:+ ".";
              result_data := None;
              result_error := None |}
  | Some stageStatus =>
      mret {| result_name := "list_stage_checklist";
              result_status := success;
              result_summary := "Retrieved " +:+ JsString.of_nat (length (stage_checklist stageStatus))
                                +:+ " tasks for stage " +:+ StageType_string (lc_stage args) +:+ ".";
              result_data := Some (DataChecklist (stage_checklist stageStatus));
              result_error := None |}
  end.

Definition create_order_handler (args : CreateOrderArgs) (ctx : ExecutionContext)
    : M AgentActionResult :=
  data ← fetchWithAuthJson (ctx_token ctx)
           (POST_orders (co_orderNumber args) (co_priority args) (co_notes args));
  mret {| result_name := "create_order";
          result_status := success;
          result_summary := "Created order " +:+ order_orderNumber data
                            +:+ " (id " +:+ number_string (order_id data) +:+ ").";
          result_data := Some (DataOrder data);
          result_error := None |}.

Definition update_order_priority_handler (args : UpdatePriorityArgs) (ctx : ExecutionContext)
    : M AgentActionResult :=
  data ← fetchWithAuthJson (ctx_token ctx) (PATCH_priority (up_orderId args) (up_priority args));
  mret {| result_name := "update_order_priority";
          result_status := success;
          result_summary := "Updated order " +:+ order_orderNumber data
                            +:+ " priority to " +:+ of_nullable (order_priority data) +:+ ".";
          result_data := Some (DataOrder data);
          result_error := None |}.

Definition claim_stage_handler (args : ClaimStageArgs) (ctx : ExecutionContext)
    : M AgentActionResult :=
  let assignee := default (ctx_username ctx) (cl_assignee args) in
  data ← fetchWithAuthJson (ctx_token ctx) (POST_claim (cl_orderId args) (cl_stage args) assignee);
  mret {| result_name := "claim_stage";
          result_status := success;
          result_summary := "Stage " +:+ stage_stage data +:+ " claimed by "
                            +:+ default (ctx_username ctx) (stage_assignee data) +:+ ".";
          result_data := Some (DataStage (Some data));
          result_error := None |}.

(** The loop of the checklist handler: one request per task, in order;
    [lastStatus] is the answer to the last one. *)
Fixpoint update_tasks (orderId : Z) (stage : StageType) (token : string)
    (lastStatus : option OrderStageStatus) (tasks : list TaskUpdate)
    : M (option OrderStageStatus) :=
  match tasks with
  | [] => mret lastStatus
  | task :: rest =>
      status ← fetchWithAuthJson token
                 (PATCH_checklist orderId stage (taskId task) (completed task));
      update_tasks orderId stage token (Some status) rest
  end.

Definition operators_only_result : AgentActionResult :=
  {| result_name := "update_stage_checklist";
     result_status := error;
     result_summary := "Only operators can update stage checklists.";
     result_data := None;
     result_error := None |}.

Definition checklist_updated_result (args : UpdateChecklistArgs)
    (lastStatus : option OrderStageStatus) : AgentActionResult :=
  {| result_name := "update_stage_checklist";
     result_status := success;
     result_summary := "Updated " +:+ JsString.of_nat (length (uc_tasks args))
                       +:+ " checklist task" +:+ plural (length (uc_tasks args))
                       +:+ " for stage " +:+ StageType_string (uc_stage args) +:+ ".";
     result_data := Some (DataStage lastStatus);
     result_error := None |}.

Definition update_stage_checklist_handler (args : UpdateChecklistArgs) (ctx : ExecutionContext)
    : M AgentActionResult :=
  if decide (OPERATOR ∉ ctx_roles ctx) then mret operators_only_result
  else
    lastStatus ← update_tasks (uc_orderId args) (uc_stage args) (ctx_token ctx) None (uc_tasks args);
    mret (checklist_updated_result args lastStatus).

Definition complete_stage_handler (args : CompleteStageArgs) (ctx : ExecutionContext)
    : M AgentActionResult :=
  let serviceTime := default 30 (cs_serviceTimeMinutes args) in
  data ← fetchWithAuthJson (ctx_token ctx)
           (POST_complete (cs_orderId args) (cs_stage args) (ctx_username ctx)
                          serviceTime (cs_notes args));
  mret {| result_name := "complete_stage";
          result_status := success;
          result_summary := "Stage " +:+ stage_stage data +:+ " completed (state "
                            +:+ stage_state data +:+ ").";
          result_data := Some (DataStage (Some data));
          result_error := None |}.

Definition flag_stage_exception_handler (args : FlagExceptionArgs) (ctx : ExecutionContext)
    : M AgentActionResult :=
  data ← fetchWithAuthJson (ctx_token ctx)
           (POST_flag_exception (fe_orderId args) (fe_stage args) (ctx_username ctx)
                                (fe_exceptionReason args) (fe_notes args));
  mret {| result_name := "flag_stage_exception";
          result_status := success;
          result_summary := "Flagged stage " +:+ stage_stage data +:+ " with exception " +:+ DQUOTE
                            +:+ of_nullable_string (stage_exceptionReason data) +:+ DQUOTE +:+ ".";
          result_data := Some (DataStage (Some data));
          result_error := None |}.

Definition approve_stage_skip_handler (args : ApproveSkipArgs) (ctx : ExecutionContext)
    : M AgentActionResult :=
  data ← fetchWithAuthJson (ctx_token ctx)
           (POST_approve_skip (as_orderId args) (as_stage args) (ctx_username ctx) (as_notes args));
  mret {| result_name := "approve_stage_skip";
          result_status := success;
          result_summary := "Approved skip for stage " +:+ stage_stage data +:+ ".";
          result_data := Some (DataStage (Some data));
          result_error := None |}.

Definition list_orders_action : ActionDefinition :=
  defineAction list_orders
    "Retrieve up to 25 live orders for situational awareness."
    "limit (optional number 1-25), stage (PREPARATION/ASSEMBLY/DELIVERY), states (array of workflow states)."
    [OPERATOR; SUPERVISOR] ListOrdersSchema list_orders_handler.

Definition get_order_details_action : ActionDefinition :=
  defineAction get_order_details
    "Pull a single order with all stage details before taking action."
    "orderId (number)."
    [OPERATOR; SUPERVISOR] GetOrderDetailsSchema get_order_details_handler.

Definition list_stage_checklist_action : ActionDefinition :=
  defineAction list_stage_checklist
    "Read the checklist items for any stage of an order."
    "orderId (number), stage (PREPARATION/ASSEMBLY/DELIVERY)."
    [OPERATOR; SUPERVISOR] ListChecklistSchema list_stage_checklist_handler.

Definition create_order_action : ActionDefinition :=
  defineAction create_order
    "Create a brand-new work order when supervisors request new work."
    "orderNumber (string), priority (optional integer), notes (optional string)."
    [SUPERVISOR] CreateOrderSchema create_order_handler.

Definition update_order_priority_action : ActionDefinition :=
  defineAction update_order_priority
    "Supervisors can adjust queue priority on any order."
    "orderId (number), priority (integer)."
    [SUPERVISOR] UpdatePrioritySchema update_order_priority_handler.

Definition claim_stage_action : ActionDefinition :=
  defineAction claim_stage
    "Operators claim a stage before doing work."
    "orderId (number), stage (PREPARATION/ASSEMBLY/DELIVERY), assignee (optional string defaults to current user)."
    [OPERATOR] ClaimStageSchema claim_stage_handler.

Definition update_stage_checklist_action : ActionDefinition :=
  defineAction update_stage_checklist
    "Operators can toggle checklist tasks before finishing a stage."
    "orderId (number), stage, tasks (array of { taskId, completed })."
    [OPERATOR] UpdateChecklistSchema update_stage_checklist_handler.

Definition complete_stage_action : ActionDefinition :=
  defineAction complete_stage
    "Operators mark a stage complete once the work and notes are captured."
    "orderId (number), stage, serviceTimeMinutes (optional int, defaults to 30), notes (optional string)."
    [OPERATOR] CompleteStageSchema complete_stage_handler.

Definition flag_stage_exception_action : ActionDefinition :=
  defineAction flag_stage_exception
    "Operators document blocking issues so supervisors can follow up."
    "orderId (number), stage, exceptionReason (string), notes (optional string)."
    [OPERATOR] FlagExceptionSchema flag_stage_exception_handler.

Definition approve_stage_skip_action : ActionDefinition :=
  defineAction approve_stage_skip
    "Supervisors can approve stage skips or resequencing when justified."
    "orderId (number), stage, notes (optional string)."
    [SUPERVISOR] ApproveSkipSchema approve_stage_skip_handler.

Definition ACTION_DEFINITIONS : list ActionDefinition := [
  list_orders_action;
  get_order_details_action;
  list_stage_checklist_action;
  create_order_action;
  update_order_priority_action;
  claim_stage_action;
  update_stage_checklist_action;
  complete_stage_action;
  flag_stage_exception_action;
  approve_stage_skip_action
].

Definition ACTION_LIST : list ActionDefinition := ACTION_DEFINITIONS.

(** [new Map(entries)]: of two entries with one key the later one stays. *)
Definition new_Map {V} (entries : list (string * V)) : gmap string V :=
  foldl (λ m kv, <[kv.1 := kv.2]> m) ∅ entries.

Definition ACTION_MAP : gmap string ActionDefinition :=
  new_Map ((λ action, (ActionName_string (name action), action)) <$> ACTION_LIST).

(** [definition.handler(args, ctx)], with its ghost event. *)
Definition call_handler (definition : ActionDefinition) (args : ArgsOf (name definition))
    (ctx : ExecutionContext) : M AgentActionResult :=
  emit (HandlerCall (name definition) args);;
  handler definition args ctx.

(** [ACTION_MAP.get(n)] read at the argument type of the action [n], as the
    source does with a type annotation; a definition filed under another
    name than its own counts as absent. *)
Definition get_action (n : ActionName)
    : option (ArgsOf n → ExecutionContext → M AgentActionResult) :=
  match ACTION_MAP !! ActionName_string n with
  | Some definition =>
      match decide (name definition = n) with
      | left e => Some (eq_rect (name definition)
                          (λ k, ArgsOf k → ExecutionContext → M AgentActionResult)
                          (call_handler definition) n e)
      | right _ => None
      end
  | None => None
  end.

Record ChecklistGate := {
  entries : list AgentActionResult;
  ready : bool;
}.

(** [stageStatus.checklist.filter((task) => task.required && !task.completed)] *)
Definition pending_tasks (stageStatus : OrderStageStatus) : list ChecklistItem :=
  filter (λ task, item_required task && negb (item_completed task)) (stage_checklist stageStatus).

Definition stage_not_found_entry (args : CompleteStageArgs) (order : OrderResponse)
    : AgentActionResult :=
  {| result_name := "complete_stage";
     result_status := error;
     result_summary := "Stage " +:+ StageType_string (cs_stage args)
                       +:+ " was not found on order " +:+ order_orderNumber order +:+ ".";
     result_data := None;
     result_error := None |}.

Definition not_operator_entry : AgentActionResult :=
  {| result_name := "update_stage_checklist";
     result_status := error;
     result_summary := "Checklist tasks are pending, but the current user is not an operator and cannot update them automatically.";
     result_data := None;
     result_error := None |}.

Definition not_available_entry : AgentActionResult :=
  {| result_name := "update_stage_checklist";
     result_status := error;
     result_summary := "Checklist update action is not available in this environment.";
     result_data := None;
     result_error := None |}.

Definition checklist_failed_entry (message : string) : AgentActionResult :=
  {| result_name := "update_stage_checklist";
     result_status := error;
     result_summary := "Failed to evaluate or update checklist tasks before completion.";
     result_data := None;
     result_error := Some message |}.

(** The tasks of the implicit update: each pending task, marked completed. *)
Definition mark_complete (pending : list ChecklistItem) : list TaskUpdate :=
  (λ task, {| taskId := item_id task; completed := true |}) <$> pending.

(** [entries] is empty whenever the [catch] is entered: each [push] of the
    [try] block is followed by a [return] with nothing in between that can
    throw. *)
Definition ensureChecklistBeforeCompletion (args : CompleteStageArgs) (ctx : ExecutionContext)
    : M ChecklistGate :=
  let entries := [] in
  try_catch
    (order ← fetchWithAuthJson (ctx_token ctx) (GET_order (cs_orderId args));
     match find_stage (cs_stage args) order with
     | None =>
         mret {| entries := entries ++ [stage_not_found_entry args order]; ready := false |}
     | Some stageStatus =>
         let pending := pending_tasks stageStatus in
         if decide (length pending = 0%nat) then
           mret {| entries := entries; ready := true |}
         else if decide (OPERATOR ∉ ctx_roles ctx) then
           mret {| entries := entries ++ [not_operator_entry]; ready := false |}
         else
           let updateArgs :=
             {| uc_orderId := cs_orderId args;
                uc_stage := cs_stage args;
                uc_tasks := mark_complete pending |} in
           match get_action update_stage_checklist with
           | None =>
               mret {| entries := entries ++ [not_available_entry]; ready := false |}
           | Some updateAction_handler =>
               updateResult ← updateAction_handler updateArgs ctx;
               let entries := entries ++ [updateResult] in
               if decide (result_status updateResult ≠ success) then
                 mret {| entries := entries; ready := false |}
               else
                 mret {| entries := entries; ready := true |}
           end
     end)
    (λ message,
       mret {| entries := entries ++ [checklist_failed_entry message]; ready := false |}).

(** The code unit 10, written [\n] in the source. *)
Definition NL : string := String (ascii_of_nat 10) EmptyString.

(** *** The plan executor *)

Definition unsupported_result (action : PlannedAction) : AgentActionResult :=
  {| result_name := action_name action;
     result_status := error;
     result_summary := "Action " +:+ action_name action +:+ " is not supported by this environment.";
     result_data := None;
     result_error := None |}.

Definition invalid_arguments_result (action : PlannedAction) (issues : list ZodIssue)
    : AgentActionResult :=
  {| result_name := action_name action;
     result_status := error;
     result_summary := "Invalid arguments supplied for " +:+ action_name action +:+ ".";
     result_data := None;
     result_error := Some (ZodError_message issues) |}.

Definition failed_result (action : PlannedAction) (message : string) : AgentActionResult :=
  {| result_name := action_name action;
     result_status := error;
     result_summary := "Failed to execute " +:+ action_name action +:+ ".";
     result_data := None;
     result_error := Some message |}.

(** The [try] block that ends the body of the loop. *)
Definition invoke_handler (results : list AgentActionResult) (action : PlannedAction)
    (definition : ActionDefinition) (data : ArgsOf (name definition))
    (ctx : ExecutionContext) : M (list AgentActionResult) :=
  try_catch
    (result ← call_handler definition data ctx;
     mret (results ++ [result]))
    (λ message, mret (results ++ [failed_result action message])).

(** One turn of the loop of [executePlan]: from the log so far to the log
    after the planned action. *)
Definition executeAction (results : list AgentActionResult) (action : PlannedAction)
    (ctx : ExecutionContext) : M (list AgentActionResult) :=
  match ACTION_MAP !! action_name action with
  | None => mret (results ++ [unsupported_result action])
  | Some definition =>
      match safeParse (schema definition) (JObject (action_arguments action)) with
      | Failure issues => mret (results ++ [invalid_arguments_result action issues])
      | Success data =>
          match name definition as n
                return (ArgsOf n → (list AgentActionResult → M (list AgentActionResult))
                        → M (list AgentActionResult)) with
          | complete_stage => λ d continue,
              checklistResults ← ensureChecklistBeforeCompletion d ctx;
              let results := results ++ entries checklistResults in
              if negb (ready checklistResults) then mret results
              else continue results
          | _ => λ _ continue, continue results
          end data (λ results, invoke_handler results action definition data ctx)
      end
  end.

Fixpoint executeLoop (results : list AgentActionResult) (actions : list PlannedAction)
    (ctx : ExecutionContext) : M (list AgentActionResult) :=
  match actions with
  | [] => mret results
  | action :: rest =>
      results' ← executeAction results action ctx;
      executeLoop results' rest ctx
  end.

Definition executePlan (actions : list PlannedAction) (ctx : ExecutionContext)
    : M (list AgentActionResult) :=
  executeLoop [] actions ctx.

(** *** The plan generator *)

Definition part_text (entry : ContentPart) : string :=
  match entry with
  | PartString s => s
  | PartText text => text
  | PartOther => ""
  end.

Definition normalizeContent (content : Content) : string :=
  match content with
  | ContentString s => s
  | ContentParts parts =>
      JsString.join NL (filter (λ s, s ≠ "") (part_text <$> parts))
  | ContentOther => ""
  end.

(** The match of [/```json([\s\S]*?)```/i] that starts at the head of [s]:
    its first group. *)
Definition code_fence_at (s : string) : option string :=
  if JsString.startsWith_ci "```json" s then
    let rest := JsString.drop 7 s in
    match JsString.indexOf "```" rest with
    | Some j => Some (JsString.take j rest)
    | None => None
    end
  else None.

(** [s.match(/```json([\s\S]*?)```/i)]: the first group of the leftmost
    match. *)
Fixpoint code_fence_match (s : string) : option string :=
  match code_fence_at s with
  | Some group => Some group
  | None =>
      match s with
      | EmptyString => None
      | String _ s' => code_fence_match s'
      end
  end.

(** [None] is [null]. *)
Definition extractJson (text : string) : option string :=
  let trimmed := JsString.trim text in
  match code_fence_match trimmed with
  | Some group => Some (JsString.trim group)
  | None =>
      match JsString.indexOf "{" trimmed, JsString.lastIndexOf "}" trimmed with
      | Some start, Some end_ =>
          if (end_ <=? start)%nat then None
          else Some (JsString.slice trimmed start (end_ + 1))
      | _, _ => None
      end
  end.

Definition quoted (s : string) : string := DQUOTE +:+ s +:+ DQUOTE.

Definition PLAN_SYSTEM_PROMPT : string :=
  "You are ProduSoft's autonomous workflow orchestrator. Plan ONLY with the actions explicitly listed. Return STRICT JSON (no prose) matching schema { "
  +:+ quoted "intent" +:+ ": string, " +:+ quoted "reasoning" +:+ ": string, "
  +:+ quoted "notes" +:+ ": string?, " +:+ quoted "actions" +:+ ": [ { "
  +:+ quoted "name" +:+ ": string, " +:+ quoted "rationale" +:+ ": string, "
  +:+ quoted "arguments"
  +:+ ": object } ] }. If no action is needed, return an empty actions array.".

(** [s || d] on strings. *)
Definition or_else (s d : string) : string := if decide (s = "") then d else s.

Definition plan_messages (question contextSummary : string)
    (allowedActions : list ActionDefinition) (profile : UserProfile) : list Message :=
  let toolDescription :=
    JsString.join NL
      ((λ action, "- " +:+ ActionName_string (name action) +:+ ": " +:+ description action
                  +:+ " Params: " +:+ parameterSummary action) <$> allowedActions) in
  [ ("system", PLAN_SYSTEM_PROMPT);
    ("human",
     JsString.join (NL +:+ NL)
       [ "User: " +:+ profile_username profile;
         "Roles: " +:+ or_else (JsString.join ", " (profile_roles profile)) "unknown";
         "Available actions:" +:+ NL +:+ toolDescription;
         "Context:" +:+ NL +:+ contextSummary;
         "Objective:" +:+ NL +:+ question ]) ].

Definition generatePlan (question contextSummary : string)
    (allowedActions : list ActionDefinition) (profile : UserProfile) : M AgentPlan :=
  response ← model_invoke (plan_messages question contextSummary allowedActions profile);
  let planText := normalizeContent (response_content response) in
  match extractJson planText with
  | None => throw "Agent plan was not valid JSON."
  | Some planJson =>
      if decide (planJson = "") then throw "Agent plan was not valid JSON."
      else
        match JSON_parse planJson with
        | inl syntax_error => throw syntax_error
        | inr value =>
            match safeParse PlanSchema value with
            | Failure _ => throw "Agent plan schema validation failed."
            | Success plan => mret plan
            end
        end
  end.

(** *** The answer synthesizer *)

Definition log_line (result : AgentActionResult) : string :=
  "- " +:+ result_name result +:+ ": " +:+ Status_upper (result_status result)
  +:+ " " +:+ EM_DASH +:+ " " +:+ result_summary result
  +:+ match result_error result with
      | Some e => if decide (e = "") then "" else " (error: " +:+ e +:+ ")"
      | None => ""
      end.

Definition answer_messages (question contextSummary : string) (plan : option AgentPlan)
    (actionResults : list AgentActionResult) : list Message :=
  let executionLog :=
    if decide (length actionResults = 0%nat) then "No autonomous actions were executed."
    else JsString.join NL (log_line <$> actionResults) in
  let planSummary :=
    match plan with
    | Some plan => JSON_stringify_plan plan
    | None => "No plan generated (information-only response)."
    end in
  [ ("system", "You are ProduSoft's workflow assistant. You MUST reflect the real execution results that were already performed. If something failed, explain why and recommend next steps. Never invent actions outside the execution log.");
    ("system", "Operational context:" +:+ NL +:+ contextSummary);
    ("system", "Agent plan:" +:+ NL +:+ planSummary);
    ("system", "Execution log:" +:+ NL +:+ executionLog);
    ("human", question) ].

Record FinalAnswer := {
  answer : string;
  model : string;
}.

Definition buildFinalAnswer (question contextSummary : string) (plan : option AgentPlan)
    (actionResults : list AgentActionResult) : M FinalAnswer :=
  response ← model_invoke (answer_messages question contextSummary plan actionResults);
  mret {| answer := normalizeContent (response_content response);
          model := default OLLAMA_MODEL (response_metadata_model response) |}.

(** *** The context builder *)

Definition MAX_CONTEXT_ORDERS : nat := 10.

(** [a.createdAt ? new Date(a.createdAt).getTime() : 0] *)
Definition created_time (a : OrderResponse) : option Z :=
  if decide (order_createdAt a = "") then Some 0 else Date_getTime (order_createdAt a).

Definition compareOrders (a b : OrderResponse) : option Z :=
  let priorityDiff := default 0 (order_priority b) - default 0 (order_priority a) in
  if decide (priorityDiff ≠ 0) then Some priorityDiff
  else
    match created_time a, created_time b with
    | Some dateA, Some dateB => Some (dateB - dateA)
    | _, _ => None
    end.

Definition MAX_SAFE_INTEGER : Z := 9007199254740991.

Definition STAGE_RANK : gmap string Z :=
  new_Map (imap (λ index stage, (StageType_string stage, Z.of_nat index)) STAGE_ORDER).

Definition rankStage (stage : string) : Z :=
  default MAX_SAFE_INTEGER (STAGE_RANK !! stage).

(** A string that is not [null] and not empty. *)
Definition truthy (s : option string) : option string :=
  match s with
  | Some v => if decide (v = "") then None else Some v
  | None => None
  end.

Definition formatStage (stage : OrderStageStatus) : string :=
  let parts := [
    Some (toLowerCase (stage_stage stage) +:+ ": " +:+ toLowerCase (stage_state stage));
    (λ v, "assignee " +:+ v) <$> truthy (stage_assignee stage);
    (λ v, "exception " +:+ v) <$> truthy (stage_exceptionReason stage);
    (λ v, "notes " +:+ v) <$> truthy (stage_notes stage) ] in
  JsString.join " | " (omap truthy parts).

(** [rankStage(a.stage) - rankStage(b.stage)] *)
Definition compareStages (a b : OrderStageStatus) : option Z :=
  Some (rankStage (stage_stage a) - rankStage (stage_stage b)).

(** [order.stages.slice().sort(...)] *)
Definition sorted_stages (order : OrderResponse) : list OrderStageStatus :=
  Array_sort compareStages (order_stages order).

(** [orderNumber] is a string in [OrderResponse], so that the ['unknown'] of
    [order.orderNumber ?? 'unknown'] is never taken. *)
Definition formatOrder (order : OrderResponse) : string :=
  let header :=
    "Order " +:+ order_orderNumber order +:+ " (id=" +:+ number_string (order_id order)
    +:+ ") priority "
    +:+ match order_priority order with Some p => number_string p | None => "n/a" end
    +:+ " - current stage " +:+ toLowerCase (order_currentStage order)
    +:+ " / overall " +:+ toLowerCase (order_overallState order) in
  let stageSummaries := JsString.join "; " (formatStage <$> sorted_stages order) in
  header +:+ ". Stage details: " +:+ or_else stageSummaries "no recorded stages.".

(** The orders the digest shows, in the order it shows them. *)
Definition limited_orders (orders : list OrderResponse) : list OrderResponse :=
  take MAX_CONTEXT_ORDERS (Array_sort compareOrders orders).

Record WorkflowContext := {
  summary : string;
  context_error : option string;
}.

Definition context_summary (orders : list OrderResponse) : string :=
  let limited := limited_orders orders in
  "Total orders available: " +:+ JsString.of_nat (length orders) +:+ ". Showing top "
  +:+ JsString.of_nat (length limited) +:+ " by priority and creation." +:+ NL
  +:+ JsString.join NL (formatOrder <$> limited).

Definition buildWorkflowContext (token : string) : M WorkflowContext :=
  try_catch
    (orders ← fetchOrders token;
     if decide (length orders = 0%nat) then
       mret {| summary := "No orders are currently available to the signed-in user.";
               context_error := None |}
     else
       mret {| summary := context_summary orders; context_error := None |})
    (λ message, mret {| summary := ""; context_error := Some message |}).

(** *** Roles *)

(** [role.replace(/^ROLE_/, '')] *)
Definition strip_role_prefix (role : string) : string :=
  if JsString.startsWith "ROLE_" role then JsString.drop 5 role else role.

Definition as_role (role : string) : option Role :=
  if decide (role = "OPERATOR") then Some OPERATOR
  else if decide (role = "SUPERVISOR") then Some SUPERVISOR
  else None.

Definition normalizeRoles (roles : list string) : gset Role :=
  list_to_set (omap (λ role, as_role (toUpperCase (strip_role_prefix role))) roles).

(** *** The entry point *)

(** The body of the request as [request.json()] reads it: any JSON value;
    its type [AgentRequest] is not checked at run time. *)

(** What [payload.question?.trim()] evaluates to: a string, [undefined]
    (no question, or a [null] one), or a [TypeError] when the body is
    [null] or the question is neither a string nor [null]. The texts of
    the two errors are those of V8. *)
Inductive Trimmed :=
| trimmed (s : string)
| undefined
| type_error (message : string).

Definition trimmed_question (payload : JSON) : Trimmed :=
  match payload with
  | JNull => type_error "Cannot read properties of null (reading 'question')"
  | JObject props =>
      match get_prop "question" props with
      | None | Some JNull => undefined
      | Some (JString s) => trimmed (JsString.trim s)
      | Some _ => type_error "payload.question?.trim is not a function"
      end
  | _ => undefined
  end.

(** [payload.question], when it is a string. *)
Definition question (payload : JSON) : option string :=
  match payload with
  | JObject props =>
      match get_prop "question" props with
      | Some (JString s) => Some s
      | _ => None
      end
  | _ => None
  end.

(** [!v] is false. *)
Definition is_truthy (v : JSON) : bool :=
  match v with
  | JNull | JBool false | JNumber (Integer 0) | JString "" => false
  | _ => true
  end.

(** [`${v}`] *)
Definition template (v : JSON) : string :=
  match v with
  | JString s => s
  | _ => ToString v
  end.

(** [payload.token] when it is truthy, as the text the template of the
    [Authorization] header makes of it; [None] when [!payload.token]. *)
Definition token (payload : JSON) : option string :=
  match payload with
  | JObject props =>
      match get_prop "token" props with
      | Some v => if is_truthy v then Some (template v) else None
      | None => None
      end
  | _ => None
  end.

Inductive ResponseBody :=
| MessageBody (message : string)
| AnswerBody (answer : string) (model : string) (contextWarning : option string).

Record HttpResponse := json {
  body : ResponseBody;
  status : nat;
}.

Definition allowed_actions (normalizedRoles : gset Role) : list ActionDefinition :=
  filter (λ action, Exists (λ role, role ∈ normalizedRoles) (roles action)) ACTION_LIST.

(** The [try] block that ends [POST], with its [catch]: what is done once
    the question and the token are there. *)
Definition answer_request (question token : string) : M HttpResponse :=
  try_catch
    (let trimmedQuestion := JsString.slice question 0 4000 in
     context ← buildWorkflowContext token;
     userProfile ← fetchUserProfile token;
     let normalizedRoles := normalizeRoles (profile_roles userProfile) in
     let allowedActions := allowed_actions normalizedRoles in
     planned ←
       (if decide (0 < length allowedActions)%nat then
          agentPlan ← generatePlan trimmedQuestion (summary context)
                        allowedActions userProfile;
          if decide (0 < length (plan_actions agentPlan))%nat then
            actionResults ← executePlan (plan_actions agentPlan)
                              {| ctx_token := token;
                                 ctx_username := profile_username userProfile;
                                 ctx_roles := normalizedRoles |};
            mret (Some agentPlan, actionResults)
          else mret (Some agentPlan, [])
        else mret (None, []));
     finalResponse ← buildFinalAnswer trimmedQuestion (summary context)
                       planned.1 planned.2;
     mret (json (AnswerBody (answer finalResponse) (model finalResponse)
                            (context_error context)) 200))
    (λ message, mret (json (MessageBody message) 502)).

(** [payload] is the body as [request.json()] reads it, [None] when that
    throws (the body is not JSON). The question is read outside the [try]
    blocks, so its [TypeError] leaves the function. *)
Definition POST (payload : option JSON) : M HttpResponse :=
  if decide (OLLAMA_BASE_URL = "") then
    mret (json (MessageBody "LANGCHAIN_OLLAMA_ENDPOINT (or OLLAMA_ENDPOINT) is not configured on the server.") 500)
  else
    match payload with
    | None => mret (json (MessageBody "Invalid JSON payload.") 400)
    | Some payload =>
        match trimmed_question payload with
        | type_error message => throw message
        | undefined => mret (json (MessageBody "question is required.") 400)
        | trimmed question =>
            if decide (question = "") then
              mret (json (MessageBody "question is required.") 400)
            else
              match token payload with
              | None =>
                  mret (json (MessageBody "Authentication token is required for autonomous actions.") 401)
              | Some token => answer_request question token
              end
        end
    end.

End Route.

(** ** A run time and a workflow service to run the route on

    [Sim] is a small run time restricted to ASCII text and an in-memory
    workflow service with the checklist gate on completion; the examples
    are evaluated on them. *)

Module Sim.

Definition lower_char (c : ascii) : ascii :=
  let n := nat_of_ascii c in
  if (65 <=? n)%nat && (n <=? 90)%nat then ascii_of_nat (n + 32) else c.

Fixpoint map_chars (f : ascii → ascii) (s : string) : string :=
  match s with
  | EmptyString => EmptyString
  | String c s' => String (f c) (map_chars f s')
  end.

(** The JSON texts the examples use. *)
Definition known_json : list (string * JSON) :=
  [ ("{}", JObject []);
    ("{ }", JObject []) ].

Definition parse_known (s : string) : string + JSON :=
  match List.find (λ kv, bool_decide (kv.1 = s)) known_json with
  | Some kv => inr kv.2
  | None => inl "Unexpected token in JSON"
  end.

Fixpoint digits_value (acc : Z) (s : string) : option Z :=
  match s with
  | EmptyString => Some acc
  | String c s' =>
      match Ascii.is_nat c with
      | Some d => digits_value (10 * acc + Z.of_nat d) s'
      | None => None
      end
  end.

Definition is_leap (y : Z) : bool :=
  ((y mod 4 =? 0) && negb (y mod 100 =? 0)) || (y mod 400 =? 0).

Definition days_in_month (y m : Z) : Z :=
  if m =? 2 then (if is_leap y then 29 else 28)
  else if (m =? 4) || (m =? 6) || (m =? 9) || (m =? 11) then 30 else 31.

(** Days from 1970-01-01 to the civil date [y-m-d]. *)
Definition days_from_civil (y m d : Z) : Z :=
  let y' := if m <=? 2 then y - 1 else y in
  let era := y' / 400 in
  let yoe := y' - era * 400 in
  let mp := (m + 9) mod 12 in
  let doy := (153 * mp + 2) / 5 + d - 1 in
  let doe := yoe * 365 + yoe / 4 - yoe / 100 + doy in
  era * 146097 + doe - 719468.

(** [new Date(s).getTime()] for the date-only form [YYYY-MM-DD]; any other
    text is taken as an invalid date. *)
Definition date_only_time (s : string) : option Z :=
  if bool_decide (String.length s = 10%nat)
     && bool_decide (JsString.slice s 4 5 = "-") && bool_decide (JsString.slice s 7 8 = "-")
  then
    y ← digits_value 0 (JsString.slice s 0 4);
    m ← digits_value 0 (JsString.slice s 5 7);
    d ← digits_value 0 (JsString.slice s 8 10);
    if (1 <=? m) && (m <=? 12) && (1 <=? d) && (d <=? days_in_month y m)
    then Some (days_from_civil y m d * 86400000)
    else None
  else None.

Definition issue_codes (issues : list ZodIssue) : string :=
  JsString.join ", " (issue_code <$> issues).

(** [`${v}`] for the values the examples use: scalars without a fractional
    part, and objects. *)
Definition to_string (v : JSON) : string :=
  match v with
  | JNull => "null"
  | JBool true => "true"
  | JBool false => "false"
  | JNumber (Integer z) => JsString.of_Z z
  | JString s => s
  | JObject _ => "[object Object]"
  | _ => ""
  end.

(** The sort of this run time is the stable sort on every input. With a
    comparator that is not consistent the engines differ from each other
    and from it; the one example with such a comparator is on a list that
    V8 leaves as it is, as the stable sort does. *)
Definition runtime : Runtime := {|
  toUpperCase := map_chars JsString.canonicalize;
  toLowerCase := map_chars lower_char;
  JSON_parse := parse_known;
  JSON_stringify_plan := plan_intent;
  Date_getTime := date_only_time;
  Number_toString := JsString.of_Z;
  ToString := to_string;
  Array_sort := @sort;
  Array_sort_consistent := λ _ _ _ _, eq_refl;
  ZodError_message := issue_codes;
  OLLAMA_BASE_URL := "https://ollama.com";
  OLLAMA_MODEL := "gpt-oss:20b-cloud";
|}.

(** The state of the simulated services: the orders, the signed-in user,
    the tasks the service refuses to change, and the texts the model will
    answer with. *)
Record World := {
  orders : list OrderResponse;
  user : UserProfile;
  locked_tasks : list string;
  replies : list string;
}.

Definition set_orders (w : World) (os : list OrderResponse) : World :=
  {| orders := os; user := user w; locked_tasks := locked_tasks w; replies := replies w |}.

Definition find_order (w : World) (orderId : Z) : option OrderResponse :=
  List.find (λ o, bool_decide (order_id o = orderId)) (orders w).

Definition with_stages (o : OrderResponse) (stages : list OrderStageStatus) : OrderResponse :=
  {| order_id := order_id o; order_orderNumber := order_orderNumber o;
     order_priority := order_priority o; order_currentStage := order_currentStage o;
     order_overallState := order_overallState o; order_createdAt := order_createdAt o;
     order_updatedAt := order_updatedAt o; order_notes := order_notes o;
     order_stages := stages |}.

Definition with_priority (o : OrderResponse) (p : Z) : OrderResponse :=
  {| order_id := order_id o; order_orderNumber := order_orderNumber o;
     order_priority := Some p; order_currentStage := order_currentStage o;
     order_overallState := order_overallState o; order_createdAt := order_createdAt o;
     order_updatedAt := order_updatedAt o; order_notes := order_notes o;
     order_stages := order_stages o |}.

(** The stage with a new state, assignee, exception reason and checklist. *)
Definition with_stage (s : OrderStageStatus) (state : string) (assignee : option string)
    (reason : option string) (checklist : list ChecklistItem) : OrderStageStatus :=
  {| stage_id := stage_id s; stage_stage := stage_stage s; stage_state := state;
     stage_assignee := assignee; stage_claimedAt := stage_claimedAt s;
     stage_startedAt := stage_startedAt s; stage_completedAt := stage_completedAt s;
     stage_serviceTimeMinutes := stage_serviceTimeMinutes s; stage_notes := stage_notes s;
     stage_exceptionReason := reason; stage_supervisorNotes := stage_supervisorNotes s;
     stage_approvedBy := stage_approvedBy s; stage_updatedAt := stage_updatedAt s;
     stage_checklist := checklist |}.

Definition set_task (task : string) (flag : bool) (t : ChecklistItem) : ChecklistItem :=
  if decide (item_id t = task)
  then {| item_id := item_id t; item_label := item_label t;
          item_required := item_required t; item_completed := flag |}
  else t.

(** Change one stage of one order; the answer is the stage after the change. *)
Definition change_stage (w : World) (orderId : Z) (stage : StageType)
    (f : OrderStageStatus → string + OrderStageStatus) : (string + OrderStageStatus) * World :=
  match find_order w orderId with
  | None => (inl "Order not found", w)
  | Some o =>
      match find_stage stage o with
      | None => (inl "Stage not found", w)
      | Some s =>
          match f s with
          | inl message => (inl message, w)
          | inr s' =>
              let stages := (λ x, if decide (stage_stage x = stage_stage s) then s' else x)
                              <$> order_stages o in
              let os := (λ x, if decide (order_id x = orderId) then with_stages o stages else x)
                          <$> orders w in
              (inr s', set_orders w os)
          end
      end
  end.

Definition serve (token : string) (e : Endpoint) (w : World) : (string + Response e) * World :=
  match e return (string + Response e) * World with
  | GET_orders => (inr (orders w), w)
  | GET_order orderId =>
      match find_order w orderId with
      | Some o => (inr o, w)
      | None => (inl "Order not found", w)
      end
  | POST_orders orderNumber priority notes =>
      let o := {| order_id := Z.of_nat (length (orders w)) + 1; order_orderNumber := orderNumber;
                  order_priority := priority; order_currentStage := "PREPARATION";
                  order_overallState := "PENDING"; order_createdAt := "";
                  order_updatedAt := ""; order_notes := notes; order_stages := [] |} in
      (inr o, set_orders w (orders w ++ [o]))
  | PATCH_priority orderId priority =>
      match find_order w orderId with
      | Some o =>
          let o' := with_priority o priority in
          (inr o', set_orders w ((λ x, if decide (order_id x = orderId) then o' else x) <$> orders w))
      | None => (inl "Order not found", w)
      end
  | POST_claim orderId stage assignee =>
      change_stage w orderId stage (λ s,
        inr (with_stage s "IN_PROGRESS" (Some assignee) (stage_exceptionReason s) (stage_checklist s)))
  | PATCH_checklist orderId stage task flag =>
      change_stage w orderId stage (λ s,
        if bool_decide (task ∈ locked_tasks w) then inl "Task is locked"
        else inr (with_stage s (stage_state s) (stage_assignee s) (stage_exceptionReason s)
                             (set_task task flag <$> stage_checklist s)))
  | POST_complete orderId stage assignee _ _ =>
      change_stage w orderId stage (λ s,
        if bool_decide (pending_tasks s = []) then
          inr (with_stage s "COMPLETED" (Some assignee) (stage_exceptionReason s) (stage_checklist s))
        else inl "Required checklist tasks are incomplete")
  | POST_flag_exception orderId stage assignee reason _ =>
      change_stage w orderId stage (λ s,
        inr (with_stage s "EXCEPTION" (Some assignee) (Some reason) (stage_checklist s)))
  | POST_approve_skip orderId stage _ _ =>
      change_stage w orderId stage (λ s,
        inr (with_stage s "SKIPPED" (stage_assignee s) (stage_exceptionReason s) (stage_checklist s)))
  | GET_auth_me => (inr (user w), w)
  end.

Definition answer_model (messages : list Message) (w : World) : (string + ModelResponse) * World :=
  match replies w with
  | [] => (inl "The model endpoint is unreachable", w)
  | text :: rest =>
      (inr {| response_content := ContentString text; response_metadata_model := None |},
       {| orders := orders w; user := user w; locked_tasks := locked_tasks w; replies := rest |})
  end.

Definition remote : Remote World := {|
  fetchJson := serve;
  invoke := answer_model;
|}.

End Sim.

(** ** Vocabulary of the statements *)

(** The checklist requests for a list of task updates, in order. *)
Definition checklist_requests (token : string) (orderId : Z) (stage : StageType)
    (tasks : list TaskUpdate) : list Event :=
  (λ task, Request token (PATCH_checklist orderId stage (taskId task) (completed task))) <$> tasks.

(** The arguments of the implicit checklist update that precedes the
    completion [args] of a stage with the pending tasks [pending]. *)
Definition implicit_update (args : CompleteStageArgs) (pending : list ChecklistItem)
    : UpdateChecklistArgs :=
  {| uc_orderId := cs_orderId args; uc_stage := cs_stage args; uc_tasks := mark_complete pending |}.

(** The request of the complete-stage handler. *)
Definition completion_request (args : CompleteStageArgs) (ctx : ExecutionContext) : Event :=
  Request (ctx_token ctx)
    (POST_complete (cs_orderId args) (cs_stage args) (ctx_username ctx)
                   (default 30 (cs_serviceTimeMinutes args)) (cs_notes args)).

(** The arguments the handler of the action [n] was called with, in order. *)
Definition handler_args (n : ActionName) (ev : Event) : option (ArgsOf n) :=
  match ev with
  | HandlerCall m args =>
      match decide (m = n) with
      | left e => Some (eq_rect m ArgsOf args n e)
      | right _ => None
      end
  | _ => None
  end.

Definition handler_calls (n : ActionName) (evs : list Event) : list (ArgsOf n) :=
  omap (handler_args n) evs.

Definition is_request (ev : Event) : Prop :=
  match ev with Request _ _ => True | _ => False end.

(** The data of a complete_stage action, the one action the checklist rule
    is run for. *)
Definition completion_args (n : ActionName) : ArgsOf n → option CompleteStageArgs :=
  match n with
  | complete_stage => λ args, Some args
  | _ => λ _, None
  end.

(** *** Arguments as JSON, to compare them with the argument bag *)

Global Instance JSNumber_eq_dec : EqDecision JSNumber.
Proof. solve_decision. Defined.

Definition JInt (z : Z) : JSON := JNumber (Integer z).
Definition JStage (s : StageType) : JSON := JString (StageType_string s).
Definition JState (s : StageState) : JSON := JString (StageState_string s).

Definition opt_prop {A} (k : string) (f : A → JSON) (v : option A) : list (string * JSON) :=
  match v with
  | Some a => [(k, f a)]
  | None => []
  end.

Definition JTask (t : TaskUpdate) : JSON :=
  JObject [("taskId", JString (taskId t)); ("completed", JBool (completed t))].

(** The object the handler of [n] receives, property by property; an
    optional property that is [undefined] is left out. *)
Definition to_json (n : ActionName) : ArgsOf n → list (string * JSON) :=
  match n with
  | list_orders => λ a,
      opt_prop "limit" JInt (lo_limit a) ++ opt_prop "stage" JStage (lo_stage a)
      ++ opt_prop "states" (λ l, JArray (JState <$> l)) (lo_states a)
  | get_order_details => λ a, [("orderId", JInt (god_orderId a))]
  | list_stage_checklist => λ a,
      [("orderId", JInt (lc_orderId a)); ("stage", JStage (lc_stage a))]
  | create_order => λ a,
      [("orderNumber", JString (co_orderNumber a))]
      ++ opt_prop "priority" JInt (co_priority a) ++ opt_prop "notes" JString (co_notes a)
  | update_order_priority => λ a,
      [("orderId", JInt (up_orderId a)); ("priority", JInt (up_priority a))]
  | claim_stage => λ a,
      [("orderId", JInt (cl_orderId a)); ("stage", JStage (cl_stage a))]
      ++ opt_prop "assignee" JString (cl_assignee a)
  | update_stage_checklist => λ a,
      [("orderId", JInt (uc_orderId a)); ("stage", JStage (uc_stage a));
       ("tasks", JArray (JTask <$> uc_tasks a))]
  | complete_stage => λ a,
      [("orderId", JInt (cs_orderId a)); ("stage", JStage (cs_stage a))]
      ++ opt_prop "serviceTimeMinutes" JInt (cs_serviceTimeMinutes a)
      ++ opt_prop "notes" JString (cs_notes a)
  | flag_stage_exception => λ a,
      [("orderId", JInt (fe_orderId a)); ("stage", JStage (fe_stage a));
       ("exceptionReason", JString (fe_exceptionReason a))]
      ++ opt_prop "notes" JString (fe_notes a)
  | approve_stage_skip => λ a,
      [("orderId", JInt (as_orderId a)); ("stage", JStage (as_stage a))]
      ++ opt_prop "notes" JString (as_notes a)
  end.

(** The property names of the schema of each action. *)
Definition shape_keys (n : ActionName) : list string :=
  match n with
  | list_orders => ["limit"; "stage"; "states"]
  | get_order_details => ["orderId"]
  | list_stage_checklist => ["orderId"; "stage"]
  | create_order => ["orderNumber"; "priority"; "notes"]
  | update_order_priority => ["orderId"; "priority"]
  | claim_stage => ["orderId"; "stage"; "assignee"]
  | update_stage_checklist => ["orderId"; "stage"; "tasks"]
  | complete_stage => ["orderId"; "stage"; "serviceTimeMinutes"; "notes"]
  | flag_stage_exception => ["orderId"; "stage"; "exceptionReason"; "notes"]
  | approve_stage_skip => ["orderId"; "stage"; "notes"]
  end.

(** [agrees typed raw]: every property of [typed] is a property of [raw]
    with the same value, at every depth; scalars are equal, arrays agree
    item by item. *)
Fixpoint agrees (typed raw : JSON) {struct typed} : bool :=
  match typed, raw with
  | JNull, JNull => true
  | JBool a, JBool b => bool_decide (a = b)
  | JNumber a, JNumber b => bool_decide (a = b)
  | JString a, JString b => bool_decide (a = b)
  | JArray xs, JArray ys =>
      (fix items (xs ys : list JSON) : bool :=
         match xs, ys with
         | [], [] => true
         | x :: xs', y :: ys' => agrees x y && items xs' ys'
         | _, _ => false
         end) xs ys
  | JObject ps, JObject qs =>
      (fix props (ps : list (string * JSON)) : bool :=
         match ps with
         | [] => true
         | (k, x) :: ps' =>
             match get_prop k qs with
             | Some y => agrees x y
             | None => false
             end && props ps'
         end) ps
  | _, _ => false
  end.

(** *** The tasks of the implicit update *)

(** The tasks of the stage that are required and not completed, in the
    order of the checklist. *)
Definition required_incomplete (s : OrderStageStatus) : list ChecklistItem :=
  filter (λ task, item_required task = true ∧ item_completed task = false) (stage_checklist s).

(** *** The order of the digest *)

(** The priority of an order, 0 when it has none. *)
Definition priority_of (o : OrderResponse) : Z := default 0 (order_priority o).

(** The creation date of the order can be read: it is empty, or [Date]
    parses it. *)
Definition dated {rt : Runtime} (o : OrderResponse) : Prop :=
  order_createdAt o = "" ∨ is_Some (Date_getTime (order_createdAt o)).

(** [t] is the instant of the creation of the order: the time of its
    creation date, 0 when the date is empty. *)
Definition created_at {rt : Runtime} (o : OrderResponse) (t : Z) : Prop :=
  (order_createdAt o = "" ∧ t = 0) ∨
  (order_createdAt o ≠ "" ∧ Date_getTime (order_createdAt o) = Some t).

(** [a] may come before [b] in the digest: its priority is higher, or the
    priorities are the same and it was created no earlier. *)
Definition comes_before {rt : Runtime} (a b : OrderResponse) : Prop :=
  priority_of b < priority_of a ∨
  priority_of a = priority_of b ∧ ∃ ta tb, created_at a ta ∧ created_at b tb ∧ tb ≤ ta.

(** The place of a stage name in the sequence PREPARATION, ASSEMBLY,
    DELIVERY; any other name comes after the three. *)
Definition stage_position (stage : string) : nat :=
  if decide (stage = "PREPARATION") then 0
  else if decide (stage = "ASSEMBLY") then 1
  else if decide (stage = "DELIVERY") then 2
  else 3.

Definition stage_before (a b : OrderStageStatus) : Prop :=
  (stage_position (stage_stage a) ≤ stage_position (stage_stage b))%nat.

(** *** The two ways to find the JSON text of a plan *)

(** The code unit [c] occurs in [s]. *)
Fixpoint contains (c : ascii) (s : string) : bool :=
  match s with
  | EmptyString => false
  | String a s' => bool_decide (a = c) || contains c s'
  end.

(** After [before], [text] has a code block fenced by three backquotes and
    labelled json (in any letter case), with [content] between the label and
    a closing fence. *)
Definition block_at (text before content : string) : Prop :=
  ∃ label after,
    text = before +:+ label +:+ content +:+ "```" +:+ after ∧
    String.length label = 7%nat ∧
    JsString.startsWith_ci "```json" label = true.

(** [content] is the content of the first fenced block of [text] labelled
    json: no such block opens earlier, and the block ends at the first
    closing fence after its label. *)
Definition fenced_block (text content : string) : Prop :=
  ∃ before,
    block_at text before content ∧
    (∀ before' content',
       block_at text before' content' → (String.length before ≤ String.length before')%nat) ∧
    (∀ content',
       block_at text before content' → (String.length content ≤ String.length content')%nat).

(** [span] is the part of [text] from its first opening brace to its last
    closing brace, which comes later. *)
Definition braces_span (text span : string) : Prop :=
  ∃ before inner after,
    text = before +:+ "{" +:+ inner +:+ "}" +:+ after ∧
    contains "{" before = false ∧
    contains "}" after = false ∧
    span = "{" +:+ inner +:+ "}".

(** ** Sample data

    An order with three checklist tasks on its assembly stage, two of them
    required and open; worlds around it; callers; planned actions. *)

Module Sample.

Definition task (id : string) (required done : bool) : ChecklistItem :=
  {| item_id := id; item_label := id; item_required := required; item_completed := done |}.

Definition stage (id : Z) (name state : string) (tasks : list ChecklistItem)
    : OrderStageStatus :=
  {| stage_id := id; stage_stage := name; stage_state := state; stage_assignee := None;
     stage_claimedAt := None; stage_startedAt := None; stage_completedAt := None;
     stage_serviceTimeMinutes := None; stage_notes := None; stage_exceptionReason := None;
     stage_supervisorNotes := None; stage_approvedBy := None; stage_updatedAt := None;
     stage_checklist := tasks |}.

Definition assembly9 : OrderStageStatus :=
  stage 2 "ASSEMBLY" "IN_PROGRESS"
    [task "a" true false; task "b" false false; task "c" true false].

Definition order9 : OrderResponse :=
  {| order_id := 9; order_orderNumber := "PO-9"; order_priority := Some 5;
     order_currentStage := "ASSEMBLY"; order_overallState := "IN_PROGRESS";
     order_createdAt := "2024-03-01"; order_updatedAt := "2024-03-02"; order_notes := None;
     order_stages := [assembly9; stage 1 "PREPARATION" "COMPLETED" []] |}.

Definition order7 : OrderResponse :=
  {| order_id := 7; order_orderNumber := "PO-7"; order_priority := Some 5;
     order_currentStage := "PREPARATION"; order_overallState := "PENDING";
     order_createdAt := "2024-03-05"; order_updatedAt := "2024-03-05"; order_notes := None;
     order_stages := [stage 3 "PREPARATION" "PENDING" []] |}.

Definition order3 : OrderResponse :=
  {| order_id := 3; order_orderNumber := "PO-3"; order_priority := None;
     order_currentStage := "DELIVERY"; order_overallState := "IN_PROGRESS";
     order_createdAt := ""; order_updatedAt := ""; order_notes := None;
     order_stages := [stage 6 "DELIVERY" "IN_PROGRESS" []; stage 5 "ASSEMBLY" "COMPLETED" [];
                      stage 4 "PREPARATION" "COMPLETED" []] |}.

Definition ana : UserProfile :=
  {| profile_username := "ana"; profile_roles := ["ROLE_OPERATOR"] |}.

Definition guest : UserProfile :=
  {| profile_username := "guest"; profile_roles := ["ROLE_AUDITOR"; "viewer"] |}.

Definition world (locked : list string) : Sim.World :=
  {| Sim.orders := [order3; order9; order7]; Sim.user := ana;
     Sim.locked_tasks := locked; Sim.replies := [] |}.

Definition guest_world (replies : list string) : Sim.World :=
  {| Sim.orders := [order3; order9; order7]; Sim.user := guest;
     Sim.locked_tasks := []; Sim.replies := replies |}.

Definition operator : ExecutionContext :=
  {| ctx_token := "dG9rZW4="; ctx_username := "ana"; ctx_roles := {[OPERATOR]} |}.

Definition supervisor : ExecutionContext :=
  {| ctx_token := "dG9rZW4="; ctx_username := "sol"; ctx_roles := {[SUPERVISOR]} |}.

Definition complete_assembly : PlannedAction :=
  {| action_name := "complete_stage"; action_rationale := None;
     action_arguments := [("orderId", JInt 9); ("stage", JString "ASSEMBLY");
                          ("urgent", JBool true)] |}.

Definition complete_assembly_args : CompleteStageArgs :=
  {| cs_orderId := 9; cs_stage := ASSEMBLY; cs_serviceTimeMinutes := None; cs_notes := None |}.

Definition tick_a_c : PlannedAction :=
  {| action_name := "update_stage_checklist"; action_rationale := None;
     action_arguments :=
       [("orderId", JInt 9); ("stage", JString "ASSEMBLY");
        ("tasks", JArray [JObject [("taskId", JString "a"); ("completed", JBool true)];
                          JObject [("taskId", JString "c"); ("completed", JBool true)]])] |}.

Definition tick_a_c_args : UpdateChecklistArgs :=
  {| uc_orderId := 9; uc_stage := ASSEMBLY;
     uc_tasks := [{| taskId := "a"; completed := true |}; {| taskId := "c"; completed := true |}] |}.

Definition delete_order : PlannedAction :=
  {| action_name := "delete_order"; action_rationale := Some "clean up";
     action_arguments := [("orderId", JInt 9)] |}.

Definition look_at_nine : PlannedAction :=
  {| action_name := "get_order_details"; action_rationale := None;
     action_arguments := [("orderId", JInt 9)] |}.

Definition look_at_text : PlannedAction :=
  {| action_name := "get_order_details"; action_rationale := None;
     action_arguments := [("orderId", JString "nine")] |}.

(** The answer to the last request and the world after the two checklist
    requests of the implicit update of [assembly9]. *)
Definition ticked_stage : option OrderStageStatus :=
  Eval vm_compute in
    match @update_tasks Sim.World Sim.remote 9 ASSEMBLY "dG9rZW4=" None
            (mark_complete (pending_tasks assembly9)) (world []) with
    | (Return last, _, _) => last
    | (Throw _, _, _) => None
    end.

Definition ticked_world : Sim.World :=
  Eval vm_compute in
    (@update_tasks Sim.World Sim.remote 9 ASSEMBLY "dG9rZW4=" None
       (mark_complete (pending_tasks assembly9)) (world [])).1.2.

(** The world after task [a] alone was ticked, task [c] being locked. *)
Definition half_ticked_stage : option OrderStageStatus :=
  Eval vm_compute in
    match @update_tasks Sim.World Sim.remote 9 ASSEMBLY "dG9rZW4=" None
            [{| taskId := "a"; completed := true |}] (world ["c"]) with
    | (Return last, _, _) => last
    | (Throw _, _, _) => None
    end.

Definition half_ticked_world : Sim.World :=
  Eval vm_compute in
    (@update_tasks Sim.World Sim.remote 9 ASSEMBLY "dG9rZW4=" None
       [{| taskId := "a"; completed := true |}] (world ["c"])).1.2.

Definition sample_context : WorkflowContext :=
  Eval vm_compute in
    match @buildWorkflowContext Sim.runtime Sim.World Sim.remote "dG9rZW4=" (world []) with
    | (Return context, _, _) => context
    | (Throw _, _, _) => {| summary := ""; context_error := None |}
    end.

Definition request : JSON :=
  JObject [("question", JString "  What is the state of order PO-9?  ");
           ("token", JString "dG9rZW4=")].

End Sample.

(** ** Vocabulary of the further properties *)

(** *** The data a schema accepts *)

Definition between (lo hi z : Z) : Prop := lo ≤ z ≤ hi.

Definition length_between (lo hi : nat) (s : string) : Prop :=
  (lo ≤ String.length s ≤ hi)%nat.

(** A property of an optional value, when the value is given. *)
Definition if_given {A} (P : A → Prop) (v : option A) : Prop := from_option P True v.

(** The bounds the schema of each action puts on its data; a stage or a
    state is one of the literals by its type. *)
Definition in_range (n : ActionName) : ArgsOf n → Prop :=
  match n with
  | list_orders => λ a, if_given (between 1 25) (lo_limit a)
  | get_order_details => λ a, 0 < god_orderId a
  | list_stage_checklist => λ a, 0 < lc_orderId a
  | create_order => λ a,
      length_between 3 64 (co_orderNumber a) ∧ if_given (between 0 999) (co_priority a) ∧
      if_given (length_between 0 2000) (co_notes a)
  | update_order_priority => λ a, 0 < up_orderId a ∧ between 0 999 (up_priority a)
  | claim_stage => λ a, 0 < cl_orderId a ∧ if_given (length_between 2 64) (cl_assignee a)
  | update_stage_checklist => λ a,
      0 < uc_orderId a ∧ (1 ≤ length (uc_tasks a))%nat ∧
      Forall (λ task, (1 ≤ String.length (taskId task))%nat) (uc_tasks a)
  | complete_stage => λ a,
      0 < cs_orderId a ∧ if_given (between 1 600) (cs_serviceTimeMinutes a) ∧
      if_given (length_between 0 2000) (cs_notes a)
  | flag_stage_exception => λ a,
      0 < fe_orderId a ∧ length_between 3 500 (fe_exceptionReason a) ∧
      if_given (length_between 0 2000) (fe_notes a)
  | approve_stage_skip => λ a,
      0 < as_orderId a ∧ if_given (length_between 0 2000) (as_notes a)
  end.

(** *** The requests of the handlers *)

(** The requests the handler of the action [n] sends for the data [a] and
    the caller [ctx] when none of them fails, in order. *)
Definition handler_requests (n : ActionName) : ArgsOf n → ExecutionContext → list Endpoint :=
  match n with
  | list_orders => λ _ _, [GET_orders]
  | get_order_details => λ a _, [GET_order (god_orderId a)]
  | list_stage_checklist => λ a _, [GET_order (lc_orderId a)]
  | create_order => λ a _, [POST_orders (co_orderNumber a) (co_priority a) (co_notes a)]
  | update_order_priority => λ a _, [PATCH_priority (up_orderId a) (up_priority a)]
  | claim_stage => λ a ctx,
      [POST_claim (cl_orderId a) (cl_stage a) (default (ctx_username ctx) (cl_assignee a))]
  | update_stage_checklist => λ a ctx,
      if decide (OPERATOR ∈ ctx_roles ctx) then
        (λ task, PATCH_checklist (uc_orderId a) (uc_stage a) (taskId task) (completed task))
          <$> uc_tasks a
      else []
  | complete_stage => λ a ctx,
      [POST_complete (cs_orderId a) (cs_stage a) (ctx_username ctx)
                     (default 30 (cs_serviceTimeMinutes a)) (cs_notes a)]
  | flag_stage_exception => λ a ctx,
      [POST_flag_exception (fe_orderId a) (fe_stage a) (ctx_username ctx)
                           (fe_exceptionReason a) (fe_notes a)]
  | approve_stage_skip => λ a ctx,
      [POST_approve_skip (as_orderId a) (as_stage a) (ctx_username ctx) (as_notes a)]
  end.

(** *** Kinds of events *)

(** A call of a handler, or a request that carries the token. *)
Definition sent_with (token : string) (ev : Event) : Prop :=
  match ev with
  | Request t _ => t = token
  | ModelCall _ => False
  | HandlerCall _ _ => True
  end.

(** A request that reads: a [GET]. *)
Definition is_read (e : Endpoint) : bool :=
  match e with
  | GET_orders | GET_order _ | GET_auth_me => true
  | _ => false
  end.

Definition reads_only (ev : Event) : Prop :=
  match ev with
  | Request _ e => is_read e = true
  | ModelCall _ => False
  | HandlerCall _ _ => True
  end.

Definition is_checklist_patch (ev : Event) : Prop :=
  match ev with
  | Request _ (PATCH_checklist _ _ _ _) => True
  | _ => False
  end.

(** The requests that complete a stage, flag it or approve its skip name
    [username] as the one who acts. *)
Definition acts_for (username : string) (ev : Event) : Prop :=
  match ev with
  | Request _ (POST_complete _ _ assignee _ _) => assignee = username
  | Request _ (POST_flag_exception _ _ assignee _ _) => assignee = username
  | Request _ (POST_approve_skip _ _ approver _) => approver = username
  | _ => True
  end.

(** The three actions that only read. *)
Definition READ_ACTIONS : list string :=
  ["list_orders"; "get_order_details"; "list_stage_checklist"].

(** The two actions whose course depends on the roles of the caller. *)
Definition ROLE_CHECKED_ACTIONS : list string :=
  ["update_stage_checklist"; "complete_stage"].

(** The caller with other roles. *)
Definition with_roles (ctx : ExecutionContext) (roles : gset Role) : ExecutionContext :=
  {| ctx_token := ctx_token ctx; ctx_username := ctx_username ctx; ctx_roles := roles |}.

(** *** Requests of the entry point *)

Fixpoint white_space_only (s : string) : bool :=
  match s with
  | EmptyString => true
  | String c s' => JsString.is_white_space c && white_space_only s'
  end.

(** The property [question] of the body, when the body is an object. *)
Definition question_value (payload : JSON) : option JSON :=
  match payload with
  | JObject props => get_prop "question" props
  | _ => None
  end.

(** The body does not have the type the route reads it at: it is [null],
    or its question is neither a string nor [null]. *)
Definition ill_typed (payload : JSON) : Prop :=
  payload = JNull ∨
  ∃ v, question_value payload = Some v ∧ v ≠ JNull ∧ ∀ s, v ≠ JString s.

(** The question of the payload is missing, [null] or blank. *)
Definition no_question (payload : JSON) : Prop :=
  payload ≠ JNull ∧
  match question_value payload with
  | None | Some JNull => True
  | Some (JString q) => white_space_only q = true
  | Some _ => False
  end.

(** The token of the payload is missing or falsy: [null], empty, zero or
    [false]. *)
Definition no_token (payload : JSON) : Prop :=
  match payload with
  | JObject props => from_option (λ v, is_truthy v = false) True (get_prop "token" props)
  | _ => True
  end.

(** The caller of the executor in the entry point. *)
Definition caller {rt : Runtime} (tok : string) (profile : UserProfile) : ExecutionContext :=
  {| ctx_token := tok;
     ctx_username := profile_username profile;
     ctx_roles := normalizeRoles (profile_roles profile) |}.

(** ** Further sample data

    More planned actions on the orders of [Sample]; a run time that reads
    the text of one plan; a workflow service whose order list is down and
    one whose identity endpoint is down. *)

Module Cases.
Import Sample.

Definition look_at_missing : PlannedAction :=
  {| action_name := "get_order_details"; action_rationale := None;
     action_arguments := [("orderId", JInt 404)] |}.

Definition look_at_missing_args : GetOrderDetailsArgs := {| god_orderId := 404 |}.

Definition new_order : PlannedAction :=
  {| action_name := "create_order"; action_rationale := Some "more work";
     action_arguments := [("orderNumber", JString "PO-10"); ("priority", JInt 7)] |}.

Definition complete_preparation7 : PlannedAction :=
  {| action_name := "complete_stage"; action_rationale := None;
     action_arguments := [("orderId", JInt 7); ("stage", JString "PREPARATION")] |}.

Definition complete_preparation7_args : CompleteStageArgs :=
  {| cs_orderId := 7; cs_stage := PREPARATION; cs_serviceTimeMinutes := None; cs_notes := None |}.

Definition complete_assembly7 : PlannedAction :=
  {| action_name := "complete_stage"; action_rationale := None;
     action_arguments := [("orderId", JInt 7); ("stage", JString "ASSEMBLY")] |}.

Definition complete_assembly7_args : CompleteStageArgs :=
  {| cs_orderId := 7; cs_stage := ASSEMBLY; cs_serviceTimeMinutes := None; cs_notes := None |}.

Definition complete_missing : PlannedAction :=
  {| action_name := "complete_stage"; action_rationale := None;
     action_arguments := [("orderId", JInt 404); ("stage", JString "ASSEMBLY");
                          ("serviceTimeMinutes", JInt 45)] |}.

Definition complete_missing_args : CompleteStageArgs :=
  {| cs_orderId := 404; cs_stage := ASSEMBLY; cs_serviceTimeMinutes := Some 45;
     cs_notes := None |}.

Definition assembly_orders : ListOrdersArgs :=
  {| lo_limit := Some 5; lo_stage := Some ASSEMBLY; lo_states := Some [IN_PROGRESS; REWORK] |}.

Definition blank_request : JSON :=
  JObject [("question", JString "   "); ("token", JString "dG9rZW4=")].

Definition finish_request : JSON :=
  JObject [("question", JString "Finish the assembly of PO-9."); ("token", JString "dG9rZW4=")].

(** Three orders of one priority: the first created a day before the
    third, the second with a creation date that is no date; and a service
    that holds them. *)
Definition order_of (id : Z) (createdAt : string) : OrderResponse :=
  {| order_id := id; order_orderNumber := "PO-" +:+ JsString.of_Z id; order_priority := Some 5;
     order_currentStage := "PREPARATION"; order_overallState := "PENDING";
     order_createdAt := createdAt; order_updatedAt := createdAt; order_notes := None;
     order_stages := [] |}.

Definition older : OrderResponse := order_of 21 "2024-01-01".
Definition undated : OrderResponse := order_of 22 "soon".
Definition newer : OrderResponse := order_of 23 "2024-01-02".

Definition backlog : Sim.World :=
  {| Sim.orders := [older; undated; newer]; Sim.user := ana;
     Sim.locked_tasks := []; Sim.replies := [] |}.

(** The text of a plan with one action, and the value [JSON.parse] reads
    from it. *)
Definition plan_text : string :=
  "{" +:+ quoted "intent" +:+ ": " +:+ quoted "finish the assembly of PO-9" +:+ ", "
  +:+ quoted "actions" +:+ ": [{" +:+ quoted "name" +:+ ": " +:+ quoted "complete_stage"
  +:+ ", " +:+ quoted "arguments" +:+ ": {" +:+ quoted "orderId" +:+ ": 9, "
  +:+ quoted "stage" +:+ ": " +:+ quoted "ASSEMBLY" +:+ "}}]}".

Definition plan_json : JSON :=
  JObject [("intent", JString "finish the assembly of PO-9");
           ("actions",
            JArray [JObject [("name", JString "complete_stage");
                             ("arguments",
                              JObject [("orderId", JInt 9); ("stage", JString "ASSEMBLY")])]])].

Definition finish_plan : AgentPlan :=
  {| plan_intent := "finish the assembly of PO-9"; plan_reasoning := None; plan_notes := None;
     plan_actions :=
       [{| action_name := "complete_stage"; action_rationale := None;
           action_arguments := [("orderId", JInt 9); ("stage", JString "ASSEMBLY")] |}] |}.

(** The run time of [Sim], whose [JSON.parse] reads [plan_text] too. *)
Definition runtime : Runtime := {|
  toUpperCase := Sim.map_chars JsString.canonicalize;
  toLowerCase := Sim.map_chars Sim.lower_char;
  JSON_parse := λ s, if decide (s = plan_text) then inr plan_json else Sim.parse_known s;
  JSON_stringify_plan := plan_intent;
  Date_getTime := Sim.date_only_time;
  Number_toString := JsString.of_Z;
  ToString := Sim.to_string;
  Array_sort := @sort;
  Array_sort_consistent := λ _ _ _ _, eq_refl;
  ZodError_message := Sim.issue_codes;
  OLLAMA_BASE_URL := "https://ollama.com";
  OLLAMA_MODEL := "gpt-oss:20b-cloud";
|}.

(** The world of [Sample.world] with the replies of the model. *)
Definition desk (replies : list string) : Sim.World :=
  {| Sim.orders := [order3; order9; order7]; Sim.user := ana;
     Sim.locked_tasks := []; Sim.replies := replies |}.

(** The service of [Sim] with the order list down. *)
Definition serve_without_orders (token : string) (e : Endpoint) (w : Sim.World)
    : (string + Response e) * Sim.World :=
  match e with
  | GET_orders => (inl "Service unavailable", w)
  | e' => Sim.serve token e' w
  end.

Definition orders_down : Remote Sim.World := {|
  fetchJson := serve_without_orders;
  invoke := Sim.answer_model;
|}.

(** The service of [Sim] with the identity endpoint down. *)
Definition serve_without_profile (token : string) (e : Endpoint) (w : Sim.World)
    : (string + Response e) * Sim.World :=
  match e with
  | GET_auth_me => (inl "Unauthorized", w)
  | e' => Sim.serve token e' w
  end.

Definition profile_down : Remote Sim.World := {|
  fetchJson := serve_without_profile;
  invoke := Sim.answer_model;
|}.

(** The run of the executor on the plan of [finish_plan] for the operator:
    the log, the world it leaves and its events. *)
Definition finish_log : list AgentActionResult :=
  Eval vm_compute in
    match @executePlan runtime Sim.World Sim.remote (plan_actions finish_plan) operator
            (desk ["Done."]) with
    | (Return log, _, _) => log
    | (Throw _, _, _) => []
    end.

Definition finish_world : Sim.World :=
  Eval vm_compute in
    (@executePlan runtime Sim.World Sim.remote (plan_actions finish_plan) operator
       (desk ["Done."])).1.2.

Definition finish_events : list Event :=
  Eval vm_compute in
    (@executePlan runtime Sim.World Sim.remote (plan_actions finish_plan) operator
       (desk ["Done."])).2.

End Cases.

(** * Properties *)

(** ** Strings *)

Section Strings.
Local Arguments String.append !_ _ / : simpl nomatch.

Lemma string_append_assoc (a b c : string) : (a +:+ b) +:+ c = a +:+ b +:+ c.
Proof. induction a as [|x a IH]; [done|]. cbn. by rewrite IH. Qed.

Lemma string_append_nil_r (a : string) : a +:+ "" = a.
Proof. induction a as [|x a IH]; [done|]. cbn. by rewrite IH. Qed.

Lemma string_length_append (a b : string) :
  String.length (a +:+ b) = (String.length a + String.length b)%nat.
Proof. induction a as [|x a IH]; [done|]. cbn. by rewrite IH. Qed.

Lemma string_take_drop n s : JsString.take n s +:+ JsString.drop n s = s.
Proof.
  revert s. induction n as [|n IH]; intros [|c s]; try done. cbn. by rewrite IH.
Qed.

Lemma string_take_append a b : JsString.take (String.length a) (a +:+ b) = a.
Proof. induction a as [|x a IH]; [done|]. cbn. by rewrite IH. Qed.

Lemma string_drop_append a b : JsString.drop (String.length a) (a +:+ b) = b.
Proof. by induction a. Qed.

Lemma startsWith_true p s : JsString.startsWith p s = true ↔ ∃ r, s = p +:+ r.
Proof.
  revert s. induction p as [|a p IH]; intros s; simpl.
  - split; [by exists s|done].
  - destruct s as [|b s]; [split; [done|by intros [? ?]]|].
    case_decide as Hab.
    + subst. rewrite IH. split; intros [r Hr]; exists r; [by rewrite Hr|].
      by injection Hr.
    + split; [done|]. intros [r Hr]. injection Hr as ??. done.
Qed.

Lemma startsWith_ci_append p l x :
  JsString.startsWith_ci p l = true → JsString.startsWith_ci p (l +:+ x) = true.
Proof.
  revert l. induction p as [|a p IH]; intros l; [done|].
  destruct l as [|b l]; [done|]. cbn. case_decide; [apply IH|done].
Qed.

Lemma startsWith_ci_take p s :
  JsString.startsWith_ci p s = true →
  JsString.startsWith_ci p (JsString.take (String.length p) s) = true ∧
  String.length (JsString.take (String.length p) s) = String.length p.
Proof.
  revert s. induction p as [|a p IH]; intros s; [done|].
  destruct s as [|b s]; [done|]. cbn. case_decide; [|done].
  intros [??]%IH. by split; [|f_equal].
Qed.

Lemma find_first_Some P s i j :
  JsString.find_first P s i = Some j →
  ∃ pre suf, s = pre +:+ suf ∧ j = (i + String.length pre)%nat ∧ P suf = true.
Proof.
  revert i. induction s as [|c s IH]; intros i; simpl.
  - destruct (P "") eqn:HP; [|done]. intros [= <-]. exists "", "". split_and!; [done|cbn; lia|done].
  - destruct (P (String c s)) eqn:HP.
    + intros [= <-]. exists "", (String c s). split_and!; [done|cbn; lia|done].
    + intros (pre & suf & -> & -> & Hsuf)%IH. exists (String c pre), suf.
      split_and!; [done|cbn; lia|done].
Qed.

Lemma find_first_None P s i :
  JsString.find_first P s i = None → ∀ pre suf, s = pre +:+ suf → P suf = false.
Proof.
  revert i. induction s as [|c s IH]; intros i; simpl.
  - destruct (P "") eqn:HP; [done|]. intros _ [|??] suf Heq; cbn in Heq; [by subst|done].
  - destruct (P (String c s)) eqn:HP; [done|]. intros Hnone [|a pre] suf Heq; cbn in Heq.
    + by subst.
    + injection Heq as -> ->. by eapply IH.
Qed.

Lemma starts_char_cons c b s :
  JsString.startsWith (String c "") (String b s) = bool_decide (c = b).
Proof.
  cbn [JsString.startsWith].
  destruct (decide (c = b)); [by rewrite bool_decide_eq_true_2|by rewrite bool_decide_eq_false_2].
Qed.

Lemma starts_char_nil c : JsString.startsWith (String c "") "" = false.
Proof. done. Qed.

Ltac unfold_search :=
  cbn [JsString.find_first JsString.find_last contains String.append String.length];
  rewrite ?starts_char_cons, ?starts_char_nil.

Lemma indexOf_char_first c pre suf i :
  contains c pre = false →
  JsString.find_first (JsString.startsWith (String c "")) (pre +:+ String c suf) i
  = Some (i + String.length pre)%nat.
Proof.
  revert i. induction pre as [|a pre IH]; intros i Hpre; unfold_search.
  - rewrite bool_decide_eq_true_2 by done. f_equal. lia.
  - cbn [contains] in Hpre. apply orb_false_iff in Hpre as [Ha Hpre].
    apply bool_decide_eq_false in Ha. rewrite bool_decide_eq_false_2 by done.
    rewrite IH by done. f_equal. lia.
Qed.

Lemma indexOf_char_Some c s i j :
  JsString.find_first (JsString.startsWith (String c "")) s i = Some j →
  ∃ pre suf, s = pre +:+ String c suf ∧ j = (i + String.length pre)%nat ∧
             contains c pre = false.
Proof.
  revert i. induction s as [|a s IH]; intros i; unfold_search; [done|].
  case_bool_decide as Hac.
  - subst. intros [= <-]. exists "", s. split_and!; [done|cbn; lia|done].
  - intros (pre & suf & -> & -> & Hpre)%IH. exists (String a pre), suf.
    split_and!; [done|cbn; lia|]. cbn [contains]. by rewrite bool_decide_eq_false_2, Hpre.
Qed.

Lemma find_last_char_None c s i :
  JsString.find_last (JsString.startsWith (String c "")) s i = None ↔ contains c s = false.
Proof.
  revert i. induction s as [|a s IH]; intros i; unfold_search; [done|].
  destruct (JsString.find_last _ s (S i)) as [j|] eqn:Hlast.
  - split; [done|]. intros [_ Hs]%orb_false_iff.
    pose proof (proj2 (IH (S i)) Hs). congruence.
  - apply IH in Hlast. rewrite Hlast, orb_false_r.
    case_bool_decide as Hca; subst.
    + by rewrite bool_decide_eq_true_2.
    + rewrite bool_decide_eq_false_2; [done|]. by intros ->.
Qed.

Lemma lastIndexOf_char_last c pre suf i :
  contains c suf = false →
  JsString.find_last (JsString.startsWith (String c "")) (pre +:+ String c suf) i
  = Some (i + String.length pre)%nat.
Proof.
  intros Hsuf. revert i. induction pre as [|a pre IH]; intros i; unfold_search.
  - apply (find_last_char_None c suf (S i)) in Hsuf. rewrite Hsuf.
    rewrite bool_decide_eq_true_2 by done. f_equal. lia.
  - rewrite IH. f_equal. lia.
Qed.

Lemma lastIndexOf_char_Some c s i j :
  JsString.find_last (JsString.startsWith (String c "")) s i = Some j →
  ∃ pre suf, s = pre +:+ String c suf ∧ j = (i + String.length pre)%nat ∧
             contains c suf = false.
Proof.
  revert i. induction s as [|a s IH]; intros i; unfold_search; [done|].
  destruct (JsString.find_last _ s (S i)) as [j'|] eqn:Hlast.
  - intros [= <-]. apply IH in Hlast as (pre & suf & -> & -> & Hsuf).
    exists (String a pre), suf. split_and!; [done|cbn; lia|done].
  - apply find_last_char_None in Hlast. case_bool_decide; [|done]. subst.
    intros [= <-]. exists "", s. split_and!; [done|cbn; lia|done].
Qed.

Lemma string_append_split (a x b y : string) :
  a +:+ x = b +:+ y → (String.length a ≤ String.length b)%nat →
  ∃ m, b = a +:+ m ∧ x = m +:+ y.
Proof.
  revert b. induction a as [|c a IH]; intros b Heq Hlen.
  - exists b. by split.
  - destruct b as [|c' b]; [cbn in Hlen; lia|].
    cbn in *. injection Heq as -> Heq.
    destruct (IH b Heq) as (m & -> & ->); [lia|]. by exists m.
Qed.

Lemma string_append_same_length (a x b y : string) :
  a +:+ x = b +:+ y → String.length a = String.length b → a = b ∧ x = y.
Proof.
  intros Heq Hlen.
  destruct (string_append_split a x b y Heq) as (m & -> & ->); [lia|].
  rewrite string_length_append in Hlen.
  destruct m as [|c m]; [|cbn in Hlen; lia].
  by rewrite string_append_nil_r.
Qed.

(** The position [find_first] gives is the first one. *)
Lemma find_first_min P s i j :
  JsString.find_first P s i = Some j →
  ∀ pre suf, s = pre +:+ suf → P suf = true → (j ≤ i + String.length pre)%nat.
Proof.
  revert i. induction s as [|c s IH]; intros i; simpl.
  - destruct (P "") eqn:HP; [|done]. intros [= <-] pre suf _ _. lia.
  - destruct (P (String c s)) eqn:HP.
    + intros [= <-] pre suf _ _. lia.
    + intros Hfind [|a pre] suf Heq Hsuf; cbn in Heq.
      * subst. congruence.
      * injection Heq as -> ->. specialize (IH _ Hfind pre suf eq_refl Hsuf). cbn. lia.
Qed.

Lemma block_at_head s content :
  block_at s "" content ↔
  JsString.startsWith_ci "```json" s = true ∧
  ∃ after, JsString.drop 7 s = content +:+ "```" +:+ after.
Proof.
  split.
  - intros (label & after & -> & Hlen & Hlabel). change ("" +:+ ?x) with x. split.
    + by apply startsWith_ci_append.
    + exists after. by rewrite <- Hlen, string_drop_append.
  - intros [Hopen [after Hrest]].
    apply startsWith_ci_take in Hopen as [Hci Hlen].
    exists (JsString.take 7 s), after. split_and!; [|done|done].
    change ("" +:+ ?x) with x. rewrite <- Hrest. by rewrite string_take_drop.
Qed.

Lemma block_at_cons c s before content :
  block_at (String c s) (String c before) content ↔ block_at s before content.
Proof.
  split; intros (label & after & Heq & Hlen & Hlabel); exists label, after;
    (split_and!; [|done|done]).
  - cbn in Heq. by injection Heq.
  - cbn. by rewrite Heq.
Qed.

Lemma block_at_prefix s before content :
  block_at s before content → ∃ rest, s = before +:+ rest ∧ block_at rest "" content.
Proof.
  intros (label & after & -> & Hlen & Hlabel). eexists. split; [done|].
  by exists label, after.
Qed.

(** The match at the head of [s], when there is one, is a block that opens
    at the head and ends at the first closing fence. *)
Lemma code_fence_at_Some s group :
  code_fence_at s = Some group →
  block_at s "" group ∧
  ∀ content, block_at s "" content → (String.length group ≤ String.length content)%nat.
Proof.
  unfold code_fence_at.
  destruct (JsString.startsWith_ci "```json" s) eqn:Hopen; [|done].
  remember (JsString.drop 7 s) as rest eqn:Hdrop.
  destruct (JsString.indexOf _ rest) as [j|] eqn:Hclose; [|done].
  intros [= <-]. unfold JsString.indexOf in Hclose.
  pose proof (find_first_min _ _ _ _ Hclose) as Hmin.
  apply find_first_Some in Hclose as (pre & suf & -> & -> & Hsuf).
  apply startsWith_true in Hsuf as [after ->].
  change (0 + ?n)%nat with n. rewrite string_take_append. split.
  - apply block_at_head. split; [done|]. by exists after.
  - intros content [_ [after' Hcontent]]%block_at_head.
    rewrite <- Hdrop in Hcontent.
    specialize (Hmin content ("```" +:+ after') Hcontent).
    rewrite (proj2 (startsWith_true "```" _)) in Hmin by eauto.
    specialize (Hmin eq_refl). cbn in Hmin. lia.
Qed.

Lemma code_fence_at_None s content : code_fence_at s = None → ¬ block_at s "" content.
Proof.
  unfold code_fence_at. intros Hnone [Hopen [after Hrest]]%block_at_head.
  rewrite Hopen in Hnone.
  destruct (JsString.indexOf _ _) as [j|] eqn:Hclose; [done|].
  pose proof (find_first_None _ _ _ Hclose content ("```" +:+ after) Hrest) as Hno.
  by rewrite (proj2 (startsWith_true "```" _)) in Hno by eauto.
Qed.

Lemma code_fence_match_None s :
  code_fence_match s = None → ∀ before content, ¬ block_at s before content.
Proof.
  induction s as [|c s IH]; cbn [code_fence_match].
  - destruct (code_fence_at "") eqn:Hat; [done|]. intros _ before content Hblock.
    destruct (block_at_prefix _ _ _ Hblock) as (rest & Heq & Hrest).
    destruct before; [|done]. cbn in Heq. subst rest.
    by apply (code_fence_at_None _ _ Hat) in Hrest.
  - destruct (code_fence_at (String c s)) eqn:Hat; [done|].
    intros Hnone [|c' before] content Hblock.
    + by apply (code_fence_at_None _ _ Hat) in Hblock.
    + assert (c' = c) as ->.
      { destruct Hblock as (? & ? & Heq & _). cbn in Heq. by injection Heq. }
      apply block_at_cons in Hblock. by eapply IH.
Qed.

(** The leftmost match is the first block, with the shortest content. *)
Lemma code_fence_match_Some s group :
  code_fence_match s = Some group → fenced_block s group.
Proof.
  induction s as [|c s IH]; cbn [code_fence_match].
  - destruct (code_fence_at "") eqn:Hat; [|done]. intros [= <-].
    apply code_fence_at_Some in Hat as [Hblock Hshort].
    exists "". split_and!; [done| |done]. intros; cbn; lia.
  - destruct (code_fence_at (String c s)) eqn:Hat.
    + intros [= <-]. apply code_fence_at_Some in Hat as [Hblock Hshort].
      exists "". split_and!; [done| |done]. intros; cbn; lia.
    + intros (before & Hblock & Hfirst & Hshort)%IH.
      exists (String c before). split_and!.
      * by apply block_at_cons.
      * intros [|c' before'] content' Hblock'.
        { by apply (code_fence_at_None _ _ Hat) in Hblock'. }
        assert (c' = c) as ->.
        { destruct Hblock' as (? & ? & Heq & _). cbn in Heq. by injection Heq. }
        apply block_at_cons in Hblock'. specialize (Hfirst _ _ Hblock'). cbn. lia.
      * intros content' Hblock'%block_at_cons. by apply Hshort.
Qed.

(** A text has at most one first block. *)
Lemma fenced_block_unique s content content' :
  fenced_block s content → fenced_block s content' → content = content'.
Proof.
  intros (before & Hblock & Hfirst & Hshort) (before' & Hblock' & Hfirst' & Hshort').
  assert (Hlen : String.length before = String.length before').
  { pose proof (Hfirst _ _ Hblock'). pose proof (Hfirst' _ _ Hblock). lia. }
  assert (before = before') as <-.
  { destruct Hblock as (? & ? & Heq & _), Hblock' as (? & ? & Heq' & _).
    rewrite Heq in Heq'. by apply string_append_same_length in Heq' as [? _]. }
  assert (Hlen' : String.length content = String.length content').
  { pose proof (Hshort _ Hblock'). pose proof (Hshort' _ Hblock). lia. }
  destruct Hblock as (label & after & Heq & Hl & _), Hblock' as (label' & after' & Heq' & Hl' & _).
  rewrite Heq in Heq'.
  apply string_append_same_length in Heq' as [_ Heq']; [|done].
  apply string_append_same_length in Heq' as [_ Heq']; [|congruence].
  by apply string_append_same_length in Heq' as [? _].
Qed.

Lemma code_fence_match_spec s content :
  code_fence_match s = Some content ↔ fenced_block s content.
Proof.
  split; [apply code_fence_match_Some|].
  intros Hfenced. destruct (code_fence_match s) as [group|] eqn:Hmatch.
  - apply code_fence_match_Some in Hmatch. f_equal. by eapply fenced_block_unique.
  - destruct Hfenced as (before & Hblock & _).
    by apply (code_fence_match_None _ Hmatch) in Hblock.
Qed.

Lemma braces_span_spec t r :
  match JsString.indexOf "{" t, JsString.lastIndexOf "}" t with
  | Some start, Some end_ =>
      if (end_ <=? start)%nat then None
      else Some (JsString.slice t start (end_ + 1))
  | _, _ => None
  end = Some r ↔ braces_span t r.
Proof.
  unfold JsString.indexOf, JsString.lastIndexOf. split.
  - destruct (JsString.find_first _ t 0) as [i|] eqn:Hfirst; [|done].
    destruct (JsString.find_last _ t 0) as [j|] eqn:Hlast; [|done].
    destruct (Nat.leb_spec j i) as [|Hlt]; [done|]. intros [= <-].
    apply indexOf_char_Some in Hfirst as (pre1 & suf1 & Ht1 & -> & Hpre1).
    apply lastIndexOf_char_Some in Hlast as (pre2 & suf2 & Ht2 & -> & Hsuf2).
    cbn [Nat.add] in *.
    destruct (string_append_split pre1 (String "{" suf1) pre2 (String "}" suf2)) as (m & -> & Hm);
      [congruence|lia|].
    rewrite string_length_append in Hlt.
    destruct m as [|c inner]; [cbn in Hlt; lia|].
    cbn [String.append] in Hm. injection Hm as <- ->.
    exists pre1, inner, suf2. split_and!; [done|done|done|].
    unfold JsString.slice. rewrite Ht1, string_drop_append.
    replace (String.length (pre1 +:+ String "{" inner) + 1 - String.length pre1)%nat
      with (String.length ("{" +:+ inner +:+ "}")).
    2:{ rewrite !string_length_append. cbn. lia. }
    rewrite <- (string_take_append ("{" +:+ inner +:+ "}") suf2) at 2.
    f_equal. cbn [String.append]. f_equal. by rewrite string_append_assoc.
  - intros (before & inner & after & -> & Hbefore & Hafter & ->).
    change ("{" +:+ inner +:+ "}" +:+ after) with (String "{" (inner +:+ "}" +:+ after)).
    rewrite indexOf_char_first by done.
    replace (before +:+ String "{" (inner +:+ "}" +:+ after))
      with ((before +:+ "{" +:+ inner) +:+ String "}" after).
    2:{ rewrite !string_append_assoc. done. }
    rewrite lastIndexOf_char_last by done. cbn [Nat.add].
    rewrite !string_length_append. cbn [String.length].
    destruct (Nat.leb_spec (String.length before + (1 + String.length inner)) (String.length before));
      [lia|].
    f_equal. unfold JsString.slice. rewrite !string_append_assoc, string_drop_append.
    replace (String.length before + (1 + String.length inner) + 1 - String.length before)%nat
      with (String.length ("{" +:+ inner +:+ "}")).
    2:{ rewrite !string_length_append. cbn. lia. }
    rewrite <- (string_take_append ("{" +:+ inner +:+ "}") after) at 2.
    f_equal. cbn [String.append]. f_equal. by rewrite string_append_assoc.
Qed.

End Strings.

(** ** The plan generator *)

Section PlanGenerator.
Context {rt : Runtime} {World : Type} {rm : Remote World}.

(** C6. The JSON text of a plan is looked for in the trimmed response.
    When the response has a code block fenced by three backquotes and
    labelled json, in any letter case, [extractJson] gives the trimmed
    content of the first such block, up to its first closing fence; when it
    has none, [extractJson] gives the part from the first opening brace to
    the last closing brace, when there is one, and nothing otherwise.
    [generatePlan] asks the model once and reads the text so found: when
    the text is absent or empty it throws the message of the route, when
    [JSON.parse] refuses it, the message of the syntax error, and when the
    value read fails the plan schema, the message of the route for that: in
    the three cases no plan is returned. When the text is JSON that passes
    the plan schema, the plan read from it is returned. *)
Theorem plan_text_extraction :
  (∀ text,
     ((∃ before content, block_at (JsString.trim text) before content) →
      ∃ content, fenced_block (JsString.trim text) content) ∧
     (∀ content,
        fenced_block (JsString.trim text) content →
        extractJson text = Some (JsString.trim content)) ∧
     ((∀ before content, ¬ block_at (JsString.trim text) before content) →
      ∀ r, extractJson text = Some r ↔ braces_span (JsString.trim text) r)) ∧
  (∀ question contextSummary allowedActions profile (w : World) response w',
     invoke (plan_messages question contextSummary allowedActions profile) w
       = (inr response, w') →
     let found := extractJson (normalizeContent (response_content response)) in
     ∃ out,
       generatePlan question contextSummary allowedActions profile w =
         (out, w', [ModelCall (plan_messages question contextSummary allowedActions profile)]) ∧
       (found = None ∨ found = Some "" → out = Throw "Agent plan was not valid JSON.") ∧
       (∀ planJson, found = Some planJson → planJson ≠ "" →
          (∀ syntax_error, JSON_parse planJson = inl syntax_error → out = Throw syntax_error) ∧
          (∀ value, JSON_parse planJson = inr value →
             (∀ plan, safeParse PlanSchema value = Success plan → out = Return plan) ∧
             (∀ issues, safeParse PlanSchema value = Failure issues →
                out = Throw "Agent plan schema validation failed.")))).
Proof.
  split.
  - intros text. unfold extractJson. split_and!.
    + intros (before & content & Hblock).
      destruct (code_fence_match (JsString.trim text)) as [group|] eqn:Hgroup.
      * exists group. by apply code_fence_match_Some.
      * by apply (code_fence_match_None _ Hgroup) in Hblock.
    + intros content Hfenced%code_fence_match_spec. by rewrite Hfenced.
    + intros Hnone r.
      destruct (code_fence_match (JsString.trim text)) as [group|] eqn:Hgroup.
      { apply code_fence_match_Some in Hgroup as (before & Hblock & _).
        by apply Hnone in Hblock. }
      apply braces_span_spec.
  - intros question contextSummary allowedActions profile w response w' Hinvoke found.
    subst found.
    unfold generatePlan, mbind, M_bind, bind, model_invoke. rewrite Hinvoke.
    destruct (extractJson _) as [planJson|] eqn:Hextract.
    + destruct (decide (planJson = "")) as [->|Hne].
      { eexists. split; [done|]. split; [done|]. by intros ? [= <-] ?. }
      destruct (JSON_parse planJson) as [syntax_error|value] eqn:Hparse.
      { eexists. split; [done|]. split; [by intros [|[= ->]]|].
        intros ? [= <-] _. rewrite Hparse. split; [|done]. by intros ? [= ->]. }
      destruct (safeParse PlanSchema value) as [plan|issues] eqn:Hschema.
      * eexists. split; [done|]. split; [by intros [|[= ->]]|].
        intros ? [= <-] _. rewrite Hparse. split; [done|]. intros ? [= <-]. rewrite Hschema.
        split; [by intros ? [= ->]|done].
      * eexists. split; [done|]. split; [by intros [|[= ->]]|].
        intros ? [= <-] _. rewrite Hparse. split; [done|]. intros ? [= <-]. rewrite Hschema.
        split; [done|]. by intros.
    + eexists. split; [done|]. split; [done|]. by intros.
Qed.

End PlanGenerator.

(** ** The plan executor *)

Section Executor.
Context {rt : Runtime} {World : Type} {rm : Remote World}.
Abbreviation M := (M World).

Lemma new_Map_lookup {V} (entries : list (string * V)) k v :
  new_Map entries !! k = Some v → (k, v) ∈ entries.
Proof.
  unfold new_Map.
  assert (G : ∀ m : gmap string V,
             foldl (λ m kv, <[kv.1 := kv.2]> m) m entries !! k = Some v →
             (k, v) ∈ entries ∨ m !! k = Some v).
  { induction entries as [|[k' v'] entries IH]; intros m Hm; simpl in *.
    - by right.
    - destruct (IH _ Hm) as [Hin|Hm'].
      + left. by right.
      + destruct (decide (k' = k)) as [->|Hne].
        * rewrite lookup_insert_eq in Hm'. injection Hm' as ->. left. by left.
        * rewrite lookup_insert_ne in Hm' by done. by right. }
  intros Hk. destruct (G ∅ Hk) as [?|Hempty]; [done|]. by rewrite lookup_empty in Hempty.
Qed.

Lemma ACTION_MAP_elem s d :
  ACTION_MAP !! s = Some d → d ∈ ACTION_LIST ∧ ActionName_string (name d) = s.
Proof.
  intros Hs. apply new_Map_lookup in Hs.
  apply list_elem_of_fmap in Hs as (d' & Heq & Hin). by simplify_eq.
Qed.

(** A property of the ten definitions holds of every member of the list. *)
Lemma ACTION_LIST_cases (P : ActionDefinition → Prop) :
  P list_orders_action → P get_order_details_action → P list_stage_checklist_action →
  P create_order_action → P update_order_priority_action → P claim_stage_action →
  P update_stage_checklist_action → P complete_stage_action →
  P flag_stage_exception_action → P approve_stage_skip_action →
  ∀ d, d ∈ ACTION_LIST → P d.
Proof.
  intros ?????????? d Hin. unfold ACTION_LIST, ACTION_DEFINITIONS in Hin.
  repeat (apply elem_of_cons in Hin as [Heq|Hin]; [by rewrite Heq|]).
  by apply elem_of_nil in Hin.
Qed.

Lemma ACTION_MAP_complete_stage :
  ACTION_MAP !! "complete_stage" = Some complete_stage_action.
Proof. vm_compute. reflexivity. Qed.

Lemma ACTION_MAP_update_stage_checklist :
  ACTION_MAP !! "update_stage_checklist" = Some update_stage_checklist_action.
Proof. by vm_compute. Qed.

Lemma get_action_update :
  get_action update_stage_checklist = Some (call_handler update_stage_checklist_action).
Proof.
  unfold get_action. cbn [ActionName_string]. rewrite ACTION_MAP_update_stage_checklist.
  reflexivity.
Qed.

Lemma bind_Return {A B} (m : M A) (k : A → M B) w a w' evs :
  m w = (Return a, w', evs) →
  (m ≫= k) w = match k a w' with (r, w'', evs') => (r, w'', evs ++ evs') end.
Proof. intros Hm. unfold mbind, M_bind, bind. rewrite Hm. by destruct (k a w') as [[??]?]. Qed.

Lemma bind_Throw {A B} (m : M A) (k : A → M B) w e w' evs :
  m w = (Throw e, w', evs) → (m ≫= k) w = (Throw e, w', evs).
Proof. intros Hm. unfold mbind, M_bind, bind. by rewrite Hm. Qed.

Lemma try_catch_Return {A} (m : M A) h w a w' evs :
  m w = (Return a, w', evs) → try_catch m h w = (Return a, w', evs).
Proof. intros Hm. unfold try_catch. by rewrite Hm. Qed.

Lemma try_catch_Throw {A} (m : M A) h w e w' evs :
  m w = (Throw e, w', evs) →
  try_catch m h w = match h e w' with (r, w'', evs') => (r, w'', evs ++ evs') end.
Proof. intros Hm. unfold try_catch. rewrite Hm. by destruct (h e w') as [[??]?]. Qed.

Lemma fetch_ok token e w body w' :
  fetchJson token e w = (inr body, w') →
  fetchWithAuthJson token e w = (Return body, w', [Request token e]).
Proof. intros Hf. unfold fetchWithAuthJson. by rewrite Hf. Qed.

Lemma fetch_failed token e w message w' :
  fetchJson token e w = (inl message, w') →
  fetchWithAuthJson token e w = (Throw message, w', [Request token e]).
Proof. intros Hf. unfold fetchWithAuthJson. by rewrite Hf. Qed.

(** The loop of the checklist handler sends the requests of a prefix of its
    tasks, all of them when it returns. *)
Lemma update_tasks_requests orderId stage token tasks :
  ∀ last w out w' evs,
    update_tasks orderId stage token last tasks w = (out, w', evs) →
    ∃ sent, evs = checklist_requests token orderId stage sent ∧ sent `prefix_of` tasks ∧
            match out with Return _ => sent = tasks | Throw _ => sent ≠ [] end.
Proof.
  induction tasks as [|task rest IH]; intros last w out w' evs Hrun; simpl in Hrun.
  - inversion Hrun; subst. exists []. split_and!; [done|apply prefix_nil|done].
  - unfold mbind, M_bind, bind, fetchWithAuthJson in Hrun.
    destruct (fetchJson token _ w) as [[message|status] w1] eqn:Hf.
    + inversion Hrun; subst. exists [task]. split; [reflexivity|]. split; [|done].
      by apply prefix_cons, prefix_nil.
    + simpl in status.
      destruct (update_tasks orderId stage token (Some status) rest w1) as [[out1 w2] evs1] eqn:Hrest.
      destruct (IH _ _ _ _ _ Hrest) as (sent & -> & Hpre & Hout).
      inversion Hrun; subst. exists (task :: sent). split; [reflexivity|]. split.
      * by apply prefix_cons.
      * destruct out; [by f_equal|done].
Qed.

Lemma call_handler_run (d : ActionDefinition) (args : ArgsOf (name d)) ctx (w : World) :
  call_handler d args ctx w =
  match handler d args ctx w with
  | (r, w', evs) => (r, w', HandlerCall (name d) args :: evs)
  end.
Proof.
  unfold call_handler, mbind, M_bind, bind, emit.
  by destruct (handler d args ctx w) as [[??]?].
Qed.

Lemma invoke_handler_run results a (d : ActionDefinition) (data : ArgsOf (name d)) ctx (w : World) :
  invoke_handler results a d data ctx w =
  match handler d data ctx w with
  | (Return r, w', evs) => (Return (results ++ [r]), w', HandlerCall (name d) data :: evs)
  | (Throw e, w', evs) =>
      (Return (results ++ [failed_result a e]), w', HandlerCall (name d) data :: evs)
  end.
Proof.
  unfold invoke_handler, try_catch, mbind, M_bind, bind. rewrite call_handler_run.
  destruct (handler d data ctx w) as [[[r|e] w'] evs]; cbn.
  - by rewrite !app_nil_r.
  - by rewrite !app_nil_r.
Qed.

Lemma ensureChecklist_returns d ctx w :
  ∃ gate w' evs, ensureChecklistBeforeCompletion d ctx w = (Return gate, w', evs).
Proof.
  unfold ensureChecklistBeforeCompletion, try_catch.
  match goal with |- context [match ?m w with _ => _ end] => destruct (m w) as [[[g|e] w'] evs] end;
    cbn; eauto.
Qed.

(** One turn of the loop returns, and what it adds to the log, the world it
    leaves and the events it emits do not depend on the log so far. *)
Lemma executeAction_frame a ctx w :
  ∃ new w' evs, ∀ results, executeAction results a ctx w = (Return (results ++ new), w', evs).
Proof.
  unfold executeAction.
  destruct (ACTION_MAP !! action_name a) as [d|]; [|by eexists [_], _, _].
  destruct (safeParse (schema d) _) as [data|issues]; [|by eexists [_], _, _].
  assert (Hinv : ∃ new w' evs, ∀ results,
             invoke_handler results a d data ctx w = (Return (results ++ new), w', evs)).
  { destruct (handler d data ctx w) as [[[r|e] w'] evs] eqn:Hh.
    - eexists [_], _, _. intros results. rewrite invoke_handler_run, Hh. done.
    - eexists [_], _, _. intros results. rewrite invoke_handler_run, Hh. done. }
  destruct d as [n desc summ rs sch h]. simpl in *.
  destruct n; try exact Hinv.
  destruct (ensureChecklist_returns data ctx w) as (gate & w1 & evs1 & Hgate).
  destruct (ready gate) eqn:Hready.
  - destruct (h data ctx w1) as [[[r|e] w'] evs] eqn:Hh.
    + exists (entries gate ++ [r]), w', (evs1 ++ HandlerCall complete_stage data :: evs).
      intros results. rewrite (bind_Return _ _ _ _ _ _ Hgate). rewrite Hready. cbn [negb].
      rewrite invoke_handler_run. simpl. rewrite Hh. by rewrite app_assoc.
    + exists (entries gate ++ [failed_result a e]), w', (evs1 ++ HandlerCall complete_stage data :: evs).
      intros results. rewrite (bind_Return _ _ _ _ _ _ Hgate). rewrite Hready. cbn [negb].
      rewrite invoke_handler_run. simpl. rewrite Hh. by rewrite app_assoc.
  - exists (entries gate), w1, evs1. intros results.
    rewrite (bind_Return _ _ _ _ _ _ Hgate). rewrite Hready. cbn. by rewrite app_nil_r.
Qed.

Lemma executeLoop_frame actions ctx :
  ∀ w, ∃ log w' evs, ∀ results,
    executeLoop results actions ctx w = (Return (results ++ log), w', evs).
Proof.
  induction actions as [|a rest IH]; intros w; simpl.
  - exists [], w, []. intros results. by rewrite app_nil_r.
  - destruct (executeAction_frame a ctx w) as (new & w1 & evs1 & Ha).
    destruct (IH w1) as (log & w2 & evs2 & Hrest).
    exists (new ++ log), w2, (evs1 ++ evs2). intros results.
    rewrite (bind_Return _ _ _ _ _ _ (Ha results)), Hrest. by rewrite app_assoc.
Qed.

(** The executor never throws. *)
Lemma executePlan_returns actions ctx w :
  ∃ log w' evs, executePlan actions ctx w = (Return log, w', evs).
Proof.
  destruct (executeLoop_frame actions ctx w) as (log & w' & evs & Hrun).
  exists log, w', evs. unfold executePlan. by rewrite Hrun.
Qed.

Lemma executePlan_cons a rest ctx w new w1 evs1 log w2 evs2 :
  executeAction [] a ctx w = (Return new, w1, evs1) →
  executePlan rest ctx w1 = (Return log, w2, evs2) →
  executePlan (a :: rest) ctx w = (Return (new ++ log), w2, evs1 ++ evs2).
Proof.
  intros Ha Hrest. unfold executePlan in *. simpl.
  rewrite (bind_Return _ _ _ _ _ _ Ha).
  destruct (executeLoop_frame rest ctx w1) as (log' & w' & evs' & Hframe).
  rewrite Hframe in Hrest. rewrite Hframe. simplify_eq/=. done.
Qed.

Lemma executePlan_app pre post ctx :
  ∀ w log1 w1 evs1 log2 w2 evs2,
    executePlan pre ctx w = (Return log1, w1, evs1) →
    executePlan post ctx w1 = (Return log2, w2, evs2) →
    executePlan (pre ++ post) ctx w = (Return (log1 ++ log2), w2, evs1 ++ evs2).
Proof.
  induction pre as [|a pre IH]; intros w log1 w1 evs1 log2 w2 evs2 Hpre Hpost.
  - unfold executePlan in Hpre. simpl in Hpre. inversion Hpre; subst. exact Hpost.
  - destruct (executeAction_frame a ctx w) as (new & wa & evsa & Ha).
    destruct (executePlan_returns pre ctx wa) as (logp & wp & evsp & Hp).
    pose proof (executePlan_cons _ _ _ _ _ _ _ _ _ _ (Ha []) Hp) as Hcons.
    rewrite Hpre in Hcons. simplify_eq/=.
    rewrite <- !app_assoc.
    eapply executePlan_cons; [exact (Ha [])|]. by eapply IH.
Qed.


Lemma executeAction_complete_stage results a ctx (w : World) d :
  action_name a = "complete_stage" →
  safeParse CompleteStageSchema (JObject (action_arguments a)) = Success d →
  executeAction results a ctx w =
  match ensureChecklistBeforeCompletion d ctx w with
  | (Return gate, w1, evs1) =>
      if ready gate then
        match complete_stage_handler d ctx w1 with
        | (Return r, w2, evs2) =>
            (Return (results ++ entries gate ++ [r]), w2,
             evs1 ++ HandlerCall complete_stage d :: evs2)
        | (Throw e, w2, evs2) =>
            (Return (results ++ entries gate ++ [failed_result a e]), w2,
             evs1 ++ HandlerCall complete_stage d :: evs2)
        end
      else (Return (results ++ entries gate), w1, evs1)
  | (Throw e, w1, evs1) => (Throw e, w1, evs1)
  end.
Proof.
  intros Hname Hparse. unfold executeAction.
  rewrite Hname, ACTION_MAP_complete_stage.
  change (safeParse (schema complete_stage_action) (JObject (action_arguments a)))
    with (safeParse CompleteStageSchema (JObject (action_arguments a))).
  rewrite Hparse. cbn [name complete_stage_action].
  unfold mbind, M_bind, bind.
  destruct (ensureChecklistBeforeCompletion d ctx w) as [[[gate|e] w1] evs1]; [|done].
  destruct (ready gate); cbn [negb].
  - rewrite invoke_handler_run. cbn [handler name complete_stage_action].
    destruct (complete_stage_handler d ctx w1) as [[[r|e] w2] evs2]; by rewrite app_assoc.
  - unfold mret, M_ret, ret. by rewrite app_nil_r.
Qed.

(** The checklist rule on a stage with pending tasks. *)
Lemma ensureChecklist_pending d ctx (w : World) o w1 s :
  fetchJson (ctx_token ctx) (GET_order (cs_orderId d)) w = (inr o, w1) →
  find_stage (cs_stage d) o = Some s →
  pending_tasks s ≠ [] →
  ensureChecklistBeforeCompletion d ctx w =
  if decide (OPERATOR ∉ ctx_roles ctx) then
    (Return {| entries := [not_operator_entry]; ready := false |}, w1,
     [Request (ctx_token ctx) (GET_order (cs_orderId d))])
  else
    match update_tasks (cs_orderId d) (cs_stage d) (ctx_token ctx) None
            (mark_complete (pending_tasks s)) w1 with
    | (Return last, w2, evs) =>
        (Return {| entries := [checklist_updated_result (implicit_update d (pending_tasks s)) last];
                   ready := true |}, w2,
         Request (ctx_token ctx) (GET_order (cs_orderId d))
         :: HandlerCall update_stage_checklist (implicit_update d (pending_tasks s)) :: evs)
    | (Throw message, w2, evs) =>
        (Return {| entries := [checklist_failed_entry message]; ready := false |}, w2,
         Request (ctx_token ctx) (GET_order (cs_orderId d))
         :: HandlerCall update_stage_checklist (implicit_update d (pending_tasks s)) :: evs)
    end.
Proof.
  intros Hfetch Hstage Hpending.
  unfold ensureChecklistBeforeCompletion, try_catch, mbind, M_bind, bind.
  rewrite (fetch_ok _ _ _ _ _ Hfetch). cbn [Response] in *. rewrite Hstage.
  destruct (decide (length (pending_tasks s) = 0%nat)) as [Hlen|_].
  { by apply length_zero_iff_nil in Hlen. }
  destruct (decide (OPERATOR ∉ ctx_roles ctx)) as [Hrole|Hrole]; [done|].
  rewrite get_action_update. rewrite call_handler_run.
  cbn [handler name update_stage_checklist_action]. unfold update_stage_checklist_handler.
  destruct (decide (OPERATOR ∉ ctx_roles ctx)); [done|].
  unfold mbind, M_bind, bind. cbn [uc_orderId uc_stage uc_tasks].
  fold (implicit_update d (pending_tasks s)).
  destruct (update_tasks _ _ _ None _ w1) as [[[last|message] w2] evs]; cbn.
  - destruct (decide (success ≠ success)) as [Hne|_]; [by destruct Hne|].
    cbn. by rewrite !app_nil_r.
  - by rewrite !app_nil_r.
Qed.


Lemma handler_calls_app n evs1 evs2 :
  handler_calls n (evs1 ++ evs2) = handler_calls n evs1 ++ handler_calls n evs2.
Proof. apply omap_app. Qed.

Lemma handler_calls_requests n token orderId stage tasks :
  handler_calls n (checklist_requests token orderId stage tasks) = [].
Proof. by induction tasks. Qed.

Lemma update_tasks_app orderId stage token done_ rest :
  ∀ last (w : World),
    update_tasks orderId stage token last (done_ ++ rest) w =
    match update_tasks orderId stage token last done_ w with
    | (Return last1, w1, evs1) =>
        match update_tasks orderId stage token last1 rest w1 with
        | (out, w2, evs2) => (out, w2, evs1 ++ evs2)
        end
    | (Throw e, w1, evs1) => (Throw e, w1, evs1)
    end.
Proof.
  induction done_ as [|task done_ IH]; intros last w; simpl.
  - by destruct (update_tasks orderId stage token last rest w) as [[??]?].
  - unfold mbind, M_bind, bind.
    destruct (fetchWithAuthJson token _ w) as [[[status|e] w1] evs1]; [|done].
    rewrite IH. cbn [Response] in *.
    destruct (update_tasks orderId stage token (Some status) done_ w1) as [[[last1|e] w2] evs2];
      [|done].
    destruct (update_tasks orderId stage token last1 rest w2) as [[out w3] evs3].
    by rewrite app_assoc.
Qed.

(** C4. A planned action whose name is not a key of the catalogue adds
    exactly one error result, named after it, to the log and sends nothing;
    the actions after it are executed from the world the actions before it
    left. And the executor returns a log for every plan: it never throws. *)
Theorem unknown_action_isolated pre a post ctx (w : World) :
  ACTION_MAP !! action_name a = None →
  (∃ log0 w1 evs0 log1 w2 evs1,
      executePlan pre ctx w = (Return log0, w1, evs0) ∧
      executePlan post ctx w1 = (Return log1, w2, evs1) ∧
      executePlan (pre ++ a :: post) ctx w =
        (Return (log0 ++ unsupported_result a :: log1), w2, evs0 ++ evs1) ∧
      result_name (unsupported_result a) = action_name a ∧
      result_status (unsupported_result a) = error) ∧
  (∀ actions ctx' (w' : World), ∃ log w'' evs,
      executePlan actions ctx' w' = (Return log, w'', evs)).
Proof.
  intros Hunknown. split; [|intros; apply executePlan_returns].
  destruct (executePlan_returns pre ctx w) as (log0 & w1 & evs0 & Hpre).
  destruct (executePlan_returns post ctx w1) as (log1 & w2 & evs1 & Hpost).
  exists log0, w1, evs0, log1, w2, evs1. split_and!; try done.
  eapply executePlan_app; [exact Hpre|].
  change (unsupported_result a :: log1) with ([unsupported_result a] ++ log1).
  change evs1 with ([] ++ evs1).
  eapply executePlan_cons; [|exact Hpost].
  unfold executeAction. by rewrite Hunknown.
Qed.

(** C2. A planned complete_stage whose stage has pending required tasks,
    run for a caller without the OPERATOR role, adds one entry to the log,
    an error; the only event of the action is the request for the order, so
    that the complete-stage handler is not called; the plan goes on. *)
Theorem pending_tasks_block_non_operator pre a post ctx (w0 : World) d log0 w evs0 o w1 s :
  action_name a = "complete_stage" →
  safeParse CompleteStageSchema (JObject (action_arguments a)) = Success d →
  executePlan pre ctx w0 = (Return log0, w, evs0) →
  fetchJson (ctx_token ctx) (GET_order (cs_orderId d)) w = (inr o, w1) →
  find_stage (cs_stage d) o = Some s →
  pending_tasks s ≠ [] →
  OPERATOR ∉ ctx_roles ctx →
  ∃ entry evs_a log1 w2 evs1,
    executePlan post ctx w1 = (Return log1, w2, evs1) ∧
    executePlan (pre ++ a :: post) ctx w0 =
      (Return (log0 ++ entry :: log1), w2, evs0 ++ evs_a ++ evs1) ∧
    result_status entry = error ∧
    handler_calls complete_stage evs_a = [] ∧
    evs_a = [Request (ctx_token ctx) (GET_order (cs_orderId d))].
Proof.
  intros Hname Hparse Hpre Hfetch Hstage Hpending Hrole.
  destruct (executePlan_returns post ctx w1) as (log1 & w2 & evs1 & Hpost).
  exists not_operator_entry, [Request (ctx_token ctx) (GET_order (cs_orderId d))], log1, w2, evs1.
  split_and!; try done.
  eapply executePlan_app; [exact Hpre|].
  change (not_operator_entry :: log1) with ([not_operator_entry] ++ log1).
  eapply executePlan_cons; [|exact Hpost].
  rewrite (executeAction_complete_stage _ _ _ _ _ Hname Hparse).
  rewrite (ensureChecklist_pending _ _ _ _ _ _ Hfetch Hstage Hpending).
  by destruct (decide (OPERATOR ∉ ctx_roles ctx)).
Qed.

Lemma pending_tasks_required_incomplete s : pending_tasks s = required_incomplete s.
Proof.
  unfold pending_tasks, required_incomplete. apply list_filter_iff. intros task.
  destruct (item_required task), (item_completed task); cbn; naive_solver.
Qed.

(** C1, amended. A planned complete_stage whose stage has N > 0 tasks that
    are required and not completed, run for a caller with the OPERATOR role.
    Whatever the service answers, the checklist handler is called once,
    before anything else is sent for the stage, with exactly those N tasks
    in the order of the checklist, each marked completed, and with no other
    task. When each of its N requests succeeds, its success result is added
    to the log immediately before the result of the completion, and the
    complete-stage handler is called after the N requests. When one of the
    requests fails, the log gets one error entry with the message, the
    tasks after the failing one are not sent and the completion is not
    attempted. In both cases the plan goes on. *)
Theorem injected_update_precedes_completion
    pre a post ctx (w0 : World) d log0 w evs0 o w1 s :
  action_name a = "complete_stage" →
  safeParse CompleteStageSchema (JObject (action_arguments a)) = Success d →
  executePlan pre ctx w0 = (Return log0, w, evs0) →
  fetchJson (ctx_token ctx) (GET_order (cs_orderId d)) w = (inr o, w1) →
  find_stage (cs_stage d) o = Some s →
  required_incomplete s ≠ [] →
  OPERATOR ∈ ctx_roles ctx →
  ∃ tasks sent out w2 new evs_c w3 log1 w4 evs1,
    taskId <$> tasks = item_id <$> required_incomplete s ∧
    Forall (λ task, completed task = true) tasks ∧
    let update :=
      {| uc_orderId := cs_orderId d; uc_stage := cs_stage d; uc_tasks := tasks |} in
    update_tasks (cs_orderId d) (cs_stage d) (ctx_token ctx) None tasks w1 =
      (out, w2, checklist_requests (ctx_token ctx) (cs_orderId d) (cs_stage d) sent) ∧
    executePlan post ctx w3 = (Return log1, w4, evs1) ∧
    executePlan (pre ++ a :: post) ctx w0 =
      (Return (log0 ++ new ++ log1), w4,
       evs0
       ++ [Request (ctx_token ctx) (GET_order (cs_orderId d));
           HandlerCall update_stage_checklist update]
       ++ checklist_requests (ctx_token ctx) (cs_orderId d) (cs_stage d) sent
       ++ evs_c ++ evs1) ∧
    match out with
    | Return last =>
        sent = tasks ∧
        ∃ completion,
          new = [checklist_updated_result update last; completion] ∧
          result_name completion = "complete_stage" ∧
          evs_c = [HandlerCall complete_stage d; completion_request d ctx]
    | Throw message =>
        sent `prefix_of` tasks ∧ sent ≠ [] ∧
        new = [checklist_failed_entry message] ∧ evs_c = [] ∧ w3 = w2
    end.
Proof.
  intros Hname Hparse Hpre Hfetch Hstage Hpending Hrole.
  rewrite <- pending_tasks_required_incomplete in *.
  set (tasks := mark_complete (pending_tasks s)).
  destruct (update_tasks (cs_orderId d) (cs_stage d) (ctx_token ctx) None tasks w1)
    as [[out w2] evs] eqn:Hupdate.
  destruct (update_tasks_requests _ _ _ _ _ _ _ _ _ Hupdate) as (sent & -> & Hprefix & Hsent).
  assert (Hrun : ∃ new evs_c w3,
    executeAction [] a ctx w =
      (Return new, w3,
       [Request (ctx_token ctx) (GET_order (cs_orderId d));
        HandlerCall update_stage_checklist (implicit_update d (pending_tasks s))]
       ++ checklist_requests (ctx_token ctx) (cs_orderId d) (cs_stage d) sent ++ evs_c) ∧
    match out with
    | Return last =>
        ∃ completion,
          new = [checklist_updated_result (implicit_update d (pending_tasks s)) last; completion] ∧
          result_name completion = "complete_stage" ∧
          evs_c = [HandlerCall complete_stage d; completion_request d ctx]
    | Throw message => new = [checklist_failed_entry message] ∧ evs_c = [] ∧ w3 = w2
    end).
  { rewrite (executeAction_complete_stage _ _ _ _ _ Hname Hparse).
    rewrite (ensureChecklist_pending _ _ _ _ _ _ Hfetch Hstage Hpending).
    destruct (decide (OPERATOR ∉ ctx_roles ctx)); [done|].
    fold tasks. rewrite Hupdate. destruct out as [last|message]; cbn [ready entries].
    - unfold complete_stage_handler, mbind, M_bind, bind, fetchWithAuthJson.
      destruct (fetchJson _ _ w2) as [[e|data] w3] eqn:Hc.
      + eexists _, _, w3. split; [done|]. exists (failed_result a e).
        split_and!; [done| |done]. cbn. by rewrite Hname.
      + eexists _, _, w3. split; [done|]. eexists. split_and!; done.
    - eexists _, [], w2. split; [|done]. by rewrite app_nil_r. }
  destruct Hrun as (new & evs_c & w3 & Hrun & Hout).
  destruct (executePlan_returns post ctx w3) as (log1 & w4 & evs1 & Hpost).
  exists tasks, sent, out, w2, new, evs_c, w3, log1, w4, evs1.
  split; [unfold tasks, mark_complete; by rewrite <- list_fmap_compose|].
  split; [unfold tasks, mark_complete; by apply Forall_fmap, Forall_true|].
  cbv zeta. split_and!.
  - done.
  - done.
  - pose proof (executePlan_cons _ _ _ _ _ _ _ _ _ _ Hrun Hpost) as Hcons.
    rewrite (executePlan_app _ _ _ _ _ _ _ _ _ _ Hpre Hcons).
    f_equal. f_equal. simpl. by rewrite <- !app_assoc.
  - destruct out as [last|message].
    + split; [done|]. exact Hout.
    + destruct Hout as (-> & -> & ->). by split_and!.
Qed.

(** C3, amended. When the implicit checklist update of a planned
    complete_stage is executed and does not return a success, it has thrown:
    the executor adds one error result to the log, named
    update_stage_checklist and carrying the message, no result named for the
    complete-stage action follows, and the complete-stage handler is not
    called; the plan goes on. *)
Theorem failed_implicit_update_blocks_completion
    pre a post ctx (w0 : World) d log0 w evs0 o w1 s out w2 evs :
  action_name a = "complete_stage" →
  safeParse CompleteStageSchema (JObject (action_arguments a)) = Success d →
  executePlan pre ctx w0 = (Return log0, w, evs0) →
  fetchJson (ctx_token ctx) (GET_order (cs_orderId d)) w = (inr o, w1) →
  find_stage (cs_stage d) o = Some s →
  pending_tasks s ≠ [] →
  OPERATOR ∈ ctx_roles ctx →
  call_handler update_stage_checklist_action (implicit_update d (pending_tasks s)) ctx w1
    = (out, w2, evs) →
  (∀ r, out = Return r → result_status r ≠ success) →
  ∃ message entry log1 w3 evs1,
    out = Throw message ∧
    executePlan post ctx w2 = (Return log1, w3, evs1) ∧
    executePlan (pre ++ a :: post) ctx w0 =
      (Return (log0 ++ entry :: log1), w3,
       evs0 ++ Request (ctx_token ctx) (GET_order (cs_orderId d)) :: evs ++ evs1) ∧
    entry = checklist_failed_entry message ∧
    result_name entry = "update_stage_checklist" ∧
    result_status entry = error ∧
    result_error entry = Some message ∧
    handler_calls complete_stage
      (Request (ctx_token ctx) (GET_order (cs_orderId d)) :: evs) = [].
Proof.
  intros Hname Hparse Hpre Hfetch Hstage Hpending Hrole Hcall Hfail.
  rewrite call_handler_run in Hcall.
  cbn [handler name update_stage_checklist_action] in Hcall.
  unfold update_stage_checklist_handler in Hcall.
  destruct (decide (OPERATOR ∉ ctx_roles ctx)) as [|_]; [done|].
  unfold mbind, M_bind, bind in Hcall. cbn [uc_orderId uc_stage uc_tasks implicit_update] in Hcall.
  destruct (update_tasks _ _ _ None _ w1) as [[[last|message] w2'] evs'] eqn:Hupdate.
  { cbn in Hcall. inversion Hcall; subst. by destruct (Hfail _ eq_refl). }
  inversion Hcall; subst. clear Hcall.
  destruct (update_tasks_requests _ _ _ _ _ _ _ _ _ Hupdate) as (sent & -> & _ & _).
  destruct (executePlan_returns post ctx w2) as (log1 & w3 & evs1 & Hpost).
  exists message, (checklist_failed_entry message), log1, w3, evs1.
  split_and!; try done.
  - eapply executePlan_app; [exact Hpre|].
    change (checklist_failed_entry message :: log1) with ([checklist_failed_entry message] ++ log1).
    rewrite app_comm_cons.
    eapply executePlan_cons; [|exact Hpost].
    rewrite (executeAction_complete_stage _ _ _ _ _ Hname Hparse).
    rewrite (ensureChecklist_pending _ _ _ _ _ _ Hfetch Hstage Hpending).
    destruct (decide (OPERATOR ∉ ctx_roles ctx)); [done|].
    unfold implicit_update in *. by rewrite Hupdate.
  - change (handler_calls complete_stage
              ([Request (ctx_token ctx) (GET_order (cs_orderId d));
                HandlerCall update_stage_checklist (implicit_update d (pending_tasks s))]
               ++ checklist_requests (ctx_token ctx) (cs_orderId d) (cs_stage d) sent) = []).
    by rewrite handler_calls_app, handler_calls_requests.
Qed.

Lemma executeAction_update_stage_checklist results a ctx (w : World) args :
  action_name a = "update_stage_checklist" →
  safeParse UpdateChecklistSchema (JObject (action_arguments a)) = Success args →
  executeAction results a ctx w =
  invoke_handler results a update_stage_checklist_action args ctx w.
Proof.
  intros Hname Hparse. unfold executeAction.
  rewrite Hname, ACTION_MAP_update_stage_checklist.
  change (safeParse (schema update_stage_checklist_action) (JObject (action_arguments a)))
    with (safeParse UpdateChecklistSchema (JObject (action_arguments a))).
  by rewrite Hparse.
Qed.

(** C10. The checklist handler sends one request per task, in the order of
    the list. When the requests for the tasks [done_] succeed and the one for
    the next task fails, the handler throws the message of the failure, the
    requests sent are those for [done_] and for the failing task, none for
    the tasks after it, the world is the one the requests left, with no
    request undoing the changes, and the planned action is logged as one
    error result. *)
Theorem checklist_update_not_atomic
    a ctx (w : World) args done_ task rest last w1 evs1 message w2 :
  action_name a = "update_stage_checklist" →
  safeParse UpdateChecklistSchema (JObject (action_arguments a)) = Success args →
  OPERATOR ∈ ctx_roles ctx →
  uc_tasks args = done_ ++ task :: rest →
  update_tasks (uc_orderId args) (uc_stage args) (ctx_token ctx) None done_ w
    = (Return last, w1, evs1) →
  fetchJson (ctx_token ctx)
    (PATCH_checklist (uc_orderId args) (uc_stage args) (taskId task) (completed task)) w1
    = (inl message, w2) →
  evs1 = checklist_requests (ctx_token ctx) (uc_orderId args) (uc_stage args) done_ ∧
  update_stage_checklist_handler args ctx w =
    (Throw message, w2,
     checklist_requests (ctx_token ctx) (uc_orderId args) (uc_stage args) (done_ ++ [task])) ∧
  ∀ results,
    executeAction results a ctx w =
      (Return (results ++ [failed_result a message]), w2,
       HandlerCall update_stage_checklist args
       :: checklist_requests (ctx_token ctx) (uc_orderId args) (uc_stage args) (done_ ++ [task])) ∧
    result_status (failed_result a message) = error.
Proof.
  intros Hname Hparse Hrole Htasks Hdone Hfail.
  destruct (update_tasks_requests _ _ _ _ _ _ _ _ _ Hdone) as (sent & -> & _ & ->).
  assert (Hh : update_stage_checklist_handler args ctx w =
    (Throw message, w2,
     checklist_requests (ctx_token ctx) (uc_orderId args) (uc_stage args) (done_ ++ [task]))).
  { unfold update_stage_checklist_handler.
    destruct (decide (OPERATOR ∉ ctx_roles ctx)); [done|].
    unfold mbind, M_bind, bind. rewrite Htasks, update_tasks_app, Hdone.
    simpl. unfold mbind, M_bind, bind. rewrite (fetch_failed _ _ _ _ _ Hfail).
    unfold checklist_requests. by rewrite fmap_app. }
  split_and!; [done|done|]. intros results. split; [|done].
  rewrite (executeAction_update_stage_checklist _ _ _ _ _ Hname Hparse).
  rewrite invoke_handler_run. cbn [handler name update_stage_checklist_action].
  by rewrite Hh.
Qed.

End Executor.

(** ** Argument validation *)

(** ** Schemas: what a successful parse says about the value read *)

Lemma ap_parse_Success {A B} (f : SafeParse (A → B)) x r :
  f <**> x = Success r → ∃ g a, f = Success g ∧ x = Success a ∧ r = g a.
Proof. destruct f, x; intros; simplify_eq/=; eauto. Qed.

Lemma map_parse_Success {A B} (f : A → B) x r :
  f <$$> x = Success r → ∃ a, x = Success a ∧ r = f a.
Proof. destruct x; intros; simplify_eq/=; eauto. Qed.

Lemma z_int_Success cs path v z :
  z_int cs path v = Success z → v = Some (JInt z).
Proof.
  unfold z_int. destruct v as [[| |[z'|]| | |]|]; try done.
  destruct (omap _ cs); intros; by simplify_eq.
Qed.

Lemma z_string_Success cs path v s :
  z_string cs path v = Success s → v = Some (JString s).
Proof.
  unfold z_string. destruct v as [[| | |s'| |]|]; try done.
  destruct (omap _ cs); intros; by simplify_eq.
Qed.

Lemma z_boolean_Success path v b :
  z_boolean path v = Success b → v = Some (JBool b).
Proof. unfold z_boolean. destruct v as [[| b'| | | |]|]; intros; by simplify_eq. Qed.

Lemma z_enum_Success {A} (show : A → string) values path v a :
  z_enum show values path v = Success a → v = Some (JString (show a)).
Proof.
  unfold z_enum. destruct v as [[| | |s| |]|]; try done.
  destruct (List.find _ values) as [a'|] eqn:Hfind; [|done].
  intros; simplify_eq. apply List.find_some in Hfind as [_ Hshow].
  apply bool_decide_eq_true in Hshow. by rewrite Hshow.
Qed.

Lemma optional_Success {A} (t : ZodType A) path v o :
  optional t path v = Success o →
  (v = None ∧ o = None) ∨ (∃ a, o = Some a ∧ is_Some v ∧ t path v = Success a).
Proof.
  unfold optional. destruct v as [x|]; [|intros; simplify_eq; by left].
  intros (a & Ha & ->)%map_parse_Success. right. eauto.
Qed.

Lemma parse_items_Success {A} (t : ZodType A) (view : A → JSON) path :
  (∀ p x a, t p (Some x) = Success a → agrees (view a) x = true) →
  ∀ items i l, parse_items t path i items = Success l →
    agrees (JArray (view <$> l)) (JArray items) = true.
Proof.
  intros Hview. induction items as [|x items IH]; intros i l Hl; simpl in Hl.
  - by simplify_eq.
  - apply ap_parse_Success in Hl as (g & l' & Hg & Hl' & ->).
    apply map_parse_Success in Hg as (a & Ha & ->).
    specialize (IH _ _ Hl'). cbn. apply andb_true_iff. split; [by eapply Hview|exact IH].
Qed.

Lemma z_array_min_Success {A} (t : ZodType A) (view : A → JSON) n path v l :
  (∀ p x a, t p (Some x) = Success a → agrees (view a) x = true) →
  z_array_min t n path v = Success l →
  ∃ items, v = Some (JArray items) ∧ agrees (JArray (view <$> l)) (JArray items) = true.
Proof.
  intros Hview. unfold z_array_min. destruct v as [[| | | |items|]|]; try done.
  intros (g & l' & Hg & Hl' & ->)%ap_parse_Success.
  apply map_parse_Success in Hg as (u & _ & ->).
  exists items. split; [done|]. by eapply parse_items_Success.
Qed.

Lemma agrees_refl_scalar_int z : agrees (JInt z) (JInt z) = true.
Proof. simpl. by apply bool_decide_eq_true_2. Qed.

Lemma agrees_refl_string s : agrees (JString s) (JString s) = true.
Proof. simpl. by apply bool_decide_eq_true_2. Qed.

Lemma agrees_refl_bool b : agrees (JBool b) (JBool b) = true.
Proof. simpl. by apply bool_decide_eq_true_2. Qed.

Lemma TaskUpdateSchema_Success p x a :
  TaskUpdateSchema p (Some x) = Success a → agrees (JTask a) x = true.
Proof.
  unfold TaskUpdateSchema, z_object, prop. destruct x as [| | | | |o]; try done.
  intros (g & b & Hg & Hb & ->)%ap_parse_Success.
  apply map_parse_Success in Hg as (s & Hs & ->).
  apply z_string_Success in Hs. apply z_boolean_Success in Hb.
  simpl. rewrite Hs, Hb. simpl. by rewrite !bool_decide_eq_true_2.
Qed.

Lemma z_stage_agrees p x a : z_stage p (Some x) = Success a → agrees (JStage a) x = true.
Proof. intros ->%z_enum_Success%(inj Some). apply agrees_refl_string. Qed.

Lemma z_state_agrees p x a : z_state p (Some x) = Success a → agrees (JState a) x = true.
Proof. intros ->%z_enum_Success%(inj Some). apply agrees_refl_string. Qed.

Ltac invert_parse :=
  repeat match goal with
  | H : _ <**> _ = Success _ |- _ =>
      apply ap_parse_Success in H as (? & ? & ? & ? & ?)
  | H : _ <$$> _ = Success _ |- _ =>
      apply map_parse_Success in H as (? & ? & ?)
  | H : prop _ _ _ _ = Success _ |- _ => unfold prop in H
  | H : z_orderId _ _ = Success _ |- _ => apply z_int_Success in H
  | H : z_int _ _ _ = Success _ |- _ => apply z_int_Success in H
  | H : z_string _ _ _ = Success _ |- _ => apply z_string_Success in H
  | H : z_stage _ _ = Success _ |- _ => apply z_enum_Success in H
  | H : z_boolean _ _ = Success _ |- _ => apply z_boolean_Success in H
  | H : optional _ _ _ = Success _ |- _ =>
      apply optional_Success in H as [[? ?]|(? & ? & _ & ?)]
  | H : z_array z_state _ _ = Success _ |- _ =>
      apply (z_array_min_Success _ JState) in H as (? & ? & ?); [|exact z_state_agrees]
  | H : z_array_min TaskUpdateSchema _ _ _ = Success _ |- _ =>
      apply (z_array_min_Success _ JTask) in H as (? & ? & ?); [|exact TaskUpdateSchema_Success]
  end; subst.

Lemma agrees_object_nil qs : agrees (JObject []) (JObject qs) = true.
Proof. done. Qed.

Lemma agrees_object_cons k x ps qs y :
  get_prop k qs = Some y → agrees x y = true →
  agrees (JObject ps) (JObject qs) = true →
  agrees (JObject ((k, x) :: ps)) (JObject qs) = true.
Proof. intros Hk Hx Hps. cbn in *. by rewrite Hk, Hx, Hps. Qed.

Ltac solve_agrees :=
  cbn [to_json opt_prop app lo_limit lo_stage lo_states god_orderId co_orderNumber co_priority
       co_notes up_orderId up_priority cl_orderId cl_stage cl_assignee lc_orderId lc_stage
       cs_orderId cs_stage cs_serviceTimeMinutes cs_notes uc_orderId uc_stage uc_tasks
       fe_orderId fe_stage fe_exceptionReason fe_notes as_orderId as_stage as_notes];
  repeat first
    [ apply agrees_object_nil
    | eapply agrees_object_cons;
      [ eassumption
      | first [ apply agrees_refl_scalar_int | apply agrees_refl_string | assumption ]
      | ] ].

Ltac solve_keys :=
  let k := fresh "k" in
  let Hk := fresh "Hk" in
  intros k Hk;
  rewrite !elem_of_cons, elem_of_nil in Hk;
  destruct_or!; try done; subst k;
  match goal with
  | H : get_prop ?k ?o = _ |- context [get_prop ?k ?o] => rewrite H
  end;
  vm_compute; naive_solver.

(** What a schema accepts it hands over property by property. *)
Lemma schema_field_for_field {rt : Runtime} {World : Type} {rm : Remote World}
    (d : ActionDefinition) bag (data : ArgsOf (name d)) :
  d ∈ ACTION_LIST →
  safeParse (schema d) (JObject bag) = Success data →
  agrees (JObject (to_json (name d) data)) (JObject bag) = true ∧
  ∀ k, k ∈ shape_keys (name d) →
       is_Some (get_prop k bag) ↔ is_Some (get_prop k (to_json (name d) data)).
Proof.
  intros Hin. revert data. pattern d. revert d Hin.
  apply ACTION_LIST_cases;
    cbn [name schema list_orders_action get_order_details_action list_stage_checklist_action
         create_order_action update_order_priority_action claim_stage_action
         update_stage_checklist_action complete_stage_action flag_stage_exception_action
         approve_stage_skip_action ArgsOf shape_keys];
    unfold safeParse, ListOrdersSchema, GetOrderDetailsSchema, ListChecklistSchema,
      CreateOrderSchema, UpdatePrioritySchema, ClaimStageSchema, UpdateChecklistSchema,
      CompleteStageSchema, FlagExceptionSchema, ApproveSkipSchema, z_object;
    intros data Hp; invert_parse; (split; [solve_agrees|solve_keys]).
Qed.

Section Arguments.
Context {rt : Runtime} {World : Type} {rm : Remote World}.

Lemma handler_args_same n (args : ArgsOf n) : handler_args n (HandlerCall n args) = Some args.
Proof.
  unfold handler_args. destruct (decide (n = n)) as [e|]; [|done].
  by rewrite (proof_irrel e eq_refl).
Qed.

Lemma handler_calls_cons_same n (args : ArgsOf n) evs :
  handler_calls n (HandlerCall n args :: evs) = args :: handler_calls n evs.
Proof.
  unfold handler_calls. change (omap ?f (?x :: ?l)) with (from_option (λ y, y :: omap f l) (omap f l) (f x)).
  by rewrite handler_args_same.
Qed.

Lemma handler_calls_of_requests n evs : Forall is_request evs → handler_calls n evs = [].
Proof.
  induction 1 as [|ev evs Hev _ IH]; [done|].
  by destruct ev.
Qed.

Lemma checklist_requests_are_requests token orderId stage tasks :
  Forall is_request (checklist_requests token orderId stage tasks).
Proof. induction tasks; by constructor. Qed.

Lemma handler_sends_requests (d : ActionDefinition) args ctx (w : World) out w' evs :
  d ∈ ACTION_LIST →
  handler d args ctx w = (out, w', evs) →
  Forall is_request evs.
Proof.
  intros Hin. revert args. pattern d. revert d Hin.
  apply ACTION_LIST_cases;
    cbn [name handler list_orders_action get_order_details_action list_stage_checklist_action
         create_order_action update_order_priority_action claim_stage_action
         update_stage_checklist_action complete_stage_action flag_stage_exception_action
         approve_stage_skip_action ArgsOf]; intros args.
  7:{ unfold update_stage_checklist_handler.
      destruct (decide (OPERATOR ∉ ctx_roles ctx)).
      - intros [= <- <- <-]. constructor.
      - unfold mbind, M_bind, bind.
        destruct (update_tasks _ _ _ None _ w) as [[[last|e] w1] evs1] eqn:Hu;
          destruct (update_tasks_requests _ _ _ _ _ _ _ _ _ Hu) as (sent & -> & _ & _);
          intros [= <- <- <-]; rewrite ?app_nil_r; apply checklist_requests_are_requests. }
  all: unfold list_orders_handler, get_order_details_handler, list_stage_checklist_handler,
         create_order_handler, update_order_priority_handler, claim_stage_handler,
         complete_stage_handler, flag_stage_exception_handler, approve_stage_skip_handler,
         fetchOrders, mbind, M_bind, bind, fetchWithAuthJson;
       destruct (fetchJson _ _ w) as [[e|body] w1];
       try destruct (find_stage _ _);
       intros [= <- <- <-]; by repeat constructor.
Qed.

Lemma ensureChecklist_calls d ctx (w : World) out w' evs :
  ensureChecklistBeforeCompletion d ctx w = (out, w', evs) →
  handler_calls complete_stage evs = [].
Proof.
  unfold ensureChecklistBeforeCompletion, try_catch, mbind, M_bind, bind, fetchWithAuthJson.
  destruct (fetchJson _ _ w) as [[e|order] w1]; [by intros [= <- <- <-]|].
  cbn [Response] in *.
  destruct (find_stage _ order) as [s|]; [|by intros [= <- <- <-]].
  destruct (decide (length (pending_tasks s) = 0%nat)); [by intros [= <- <- <-]|].
  destruct (decide (OPERATOR ∉ ctx_roles ctx)); [by intros [= <- <- <-]|].
  rewrite get_action_update, call_handler_run.
  destruct (handler update_stage_checklist_action _ ctx w1) as [[[r|e] w2] evs2] eqn:Hh.
  - assert (Hreq : Forall is_request evs2).
    { eapply handler_sends_requests; [|exact Hh]. unfold ACTION_LIST, ACTION_DEFINITIONS.
      set_solver. }
    destruct (decide (result_status r ≠ success)); intros [= <- <- <-]; cbn;
      rewrite !app_nil_r;
      (destruct (decide (update_stage_checklist = complete_stage)); [done|]);
      by apply (handler_calls_of_requests complete_stage).
  - assert (Hreq : Forall is_request evs2).
    { eapply handler_sends_requests; [|exact Hh]. unfold ACTION_LIST, ACTION_DEFINITIONS.
      set_solver. }
    intros [= <- <- <-]; cbn; rewrite !app_nil_r.
    destruct (decide (update_stage_checklist = complete_stage)); [done|].
    by apply (handler_calls_of_requests complete_stage).
Qed.

Lemma ACTION_MAP_name s d : ACTION_MAP !! s = Some d → ActionName_string (name d) = s.
Proof. intros Hs. by apply ACTION_MAP_elem in Hs as [_ ?]. Qed.

(** C5. For a planned action whose name is in the catalogue: if its
    argument bag fails the schema, the log gets one error result that
    carries the text of the Zod issues, and nothing is sent or called; if
    the bag passes, the validated data agree with the bag property by
    property, a property of the schema being present in the one exactly
    when it is in the other, and the handler of the action is called with
    these data and with no other: exactly once for every action but
    complete_stage; for complete_stage, after the checklist rule has run on
    these data, exactly once when the rule lets the completion go on and
    not at all when it stops it. *)
Theorem arguments_validated_before_handler results a ctx (w : World) (d : ActionDefinition) :
  ACTION_MAP !! action_name a = Some d →
  (∀ issues,
      safeParse (schema d) (JObject (action_arguments a)) = Failure issues →
      executeAction results a ctx w =
        (Return (results ++ [invalid_arguments_result a issues]), w, []) ∧
      result_status (invalid_arguments_result a issues) = error ∧
      result_error (invalid_arguments_result a issues) = Some (ZodError_message issues)) ∧
  (∀ data,
      safeParse (schema d) (JObject (action_arguments a)) = Success data →
      agrees (JObject (to_json (name d) data)) (JObject (action_arguments a)) = true ∧
      (∀ k, k ∈ shape_keys (name d) →
            is_Some (get_prop k (action_arguments a))
            ↔ is_Some (get_prop k (to_json (name d) data))) ∧
      ∃ log w' evs,
        executeAction results a ctx w = (Return log, w', evs) ∧
        match completion_args (name d) data with
        | None => handler_calls (name d) evs = [data]
        | Some args =>
            ∃ gate w1 evs1,
              ensureChecklistBeforeCompletion args ctx w = (Return gate, w1, evs1) ∧
              handler_calls (name d) evs = if ready gate then [data] else []
        end).
Proof.
  intros Hd. pose proof (ACTION_MAP_elem _ _ Hd) as [Hin _]. split.
  - intros issues Hp. unfold executeAction. by rewrite Hd, Hp.
  - intros data Hp.
    destruct (schema_field_for_field d _ data Hin Hp) as [Hag Hkeys].
    split_and!; [done|done|].
    assert (Hinv : ∀ results0 w0, ∃ log w' evs,
               invoke_handler results0 a d data ctx w0 = (Return log, w', evs) ∧
               handler_calls (name d) evs = [data]).
    { intros results0 w0. rewrite invoke_handler_run.
      destruct (handler d data ctx w0) as [[[r|e] w'] evs] eqn:Hh;
        eexists _, _, _; (split; [done|]);
        rewrite handler_calls_cons_same;
        by rewrite (handler_calls_of_requests _ _ (handler_sends_requests _ _ _ _ _ _ _ Hin Hh)). }
    unfold executeAction. rewrite Hd, Hp.
    destruct d as [n desc summ rs sch h]. cbn [name] in *.
    destruct n;
      try (destruct (Hinv results w) as (log & w' & evs & Hrun & Hcalls);
           exists log, w', evs; split; [exact Hrun|exact Hcalls]).
    cbn [completion_args].
    destruct (ensureChecklistBeforeCompletion data ctx w) as [[[gate|e] w1] evs1] eqn:Hgate.
    2:{ destruct (ensureChecklist_returns data ctx w) as (? & ? & ? & Hret). congruence. }
    pose proof (ensureChecklist_calls _ _ _ _ _ _ Hgate) as Hnone.
    rewrite (bind_Return _ _ _ _ _ _ Hgate).
    destruct (ready gate) eqn:Hready; cbn [negb].
    + destruct (Hinv (results ++ entries gate) w1) as (log & w' & evs & Hrun & Hcalls).
      rewrite Hrun. exists log, w', (evs1 ++ evs). split; [done|].
      exists gate, w1, evs1. split; [done|]. rewrite Hready.
      by rewrite handler_calls_app, Hnone, Hcalls.
    + eexists _, _, _. split; [done|].
      exists gate, w1, evs1. split; [done|]. rewrite Hready.
      by rewrite app_nil_r.
Qed.

End Arguments.

(** ** Roles and the entry point *)

Section Roles.
Context {rt : Runtime} {World : Type} {rm : Remote World}.

Lemma as_role_Some s r : as_role s = Some r ↔ s = Role_string r.
Proof.
  unfold as_role. destruct r; repeat case_decide; subst; naive_solver.
Qed.

(** C9. A role is in the normalized set exactly when some role string of
    the list, with one leading ROLE_ removed and then put in upper case, is
    its name; a string that gives neither OPERATOR nor SUPERVISOR adds
    nothing. [normalizeRoles] is a total function: no string makes it fail. *)
Theorem normalizeRoles_spec (roles : list string) :
  (∀ r, r ∈ normalizeRoles roles ↔
        ∃ s, s ∈ roles ∧ toUpperCase (strip_role_prefix s) = Role_string r) ∧
  (∀ s, strip_role_prefix ("ROLE_" +:+ s) = s) ∧
  (∀ s, JsString.startsWith "ROLE_" s = false → strip_role_prefix s = s) ∧
  (∀ s, toUpperCase (strip_role_prefix s) ≠ "OPERATOR" →
        toUpperCase (strip_role_prefix s) ≠ "SUPERVISOR" →
        normalizeRoles (s :: roles) = normalizeRoles roles).
Proof.
  split_and!.
  - intros r. unfold normalizeRoles. rewrite elem_of_list_to_set, list_elem_of_omap.
    split; intros (s & Hs & Hr); exists s; (split; [done|]); by apply as_role_Some.
  - intros s. unfold strip_role_prefix.
    rewrite (proj2 (startsWith_true "ROLE_" _)) by eauto.
    exact (string_drop_append "ROLE_" s).
  - intros s Hs. unfold strip_role_prefix. by rewrite Hs.
  - intros s Ho Hs. unfold normalizeRoles. cbn [omap list_omap].
    unfold as_role at 1. by rewrite !decide_False.
Qed.

Lemma allowed_actions_empty (rs : gset Role) : allowed_actions rs = [] ↔ rs = ∅.
Proof.
  split.
  - intros Hnone. apply set_eq. intros r. split; [|set_solver].
    intros Hr. exfalso.
    assert (Hin : list_orders_action ∈ allowed_actions rs).
    { unfold allowed_actions. apply list_elem_of_filter. split.
      - apply Exists_exists. exists r. split; [|done]. destruct r; cbn; set_solver.
      - unfold ACTION_LIST, ACTION_DEFINITIONS. set_solver. }
    rewrite Hnone in Hin. by apply elem_of_nil in Hin.
  - intros ->. unfold allowed_actions, ACTION_LIST, ACTION_DEFINITIONS.
    repeat (rewrite filter_cons_False; [|intros (? & ? & ?)%Exists_exists; set_solver]).
    done.
Qed.

Lemma buildWorkflowContext_returns tok (w : World) :
  ∃ context w1,
    buildWorkflowContext tok w = (Return context, w1, [Request tok GET_orders]).
Proof.
  unfold buildWorkflowContext, try_catch, mbind, M_bind, bind, fetchOrders, fetchWithAuthJson.
  destruct (fetchJson tok GET_orders w) as [[e|orders] w1]; cbn.
  - by eexists _, _.
  - destruct (decide (length orders = 0%nat)); by eexists _, _.
Qed.

(** A question that is a string with something besides white space, and a
    token that is a string and not empty. *)
Lemma trimmed_question_truthy payload q :
  truthy (JsString.trim <$> question payload) = Some q →
  trimmed_question payload = trimmed q ∧ q ≠ "".
Proof.
  unfold question, trimmed_question, truthy.
  destruct payload as [| | | | |props]; try done.
  destruct (get_prop "question" props) as [[| | |s| |]|]; try done. cbn.
  case_decide; [done|]. by intros [= <-].
Qed.

Lemma token_truthy payload tok : truthy (token payload) = Some tok → token payload = Some tok.
Proof.
  unfold truthy. destruct (token payload) as [t|]; [|done].
  case_decide; [done|]. by intros [= <-].
Qed.

Lemma POST_answer_request payload q tok (w : World) :
  OLLAMA_BASE_URL ≠ "" →
  truthy (JsString.trim <$> question payload) = Some q →
  truthy (token payload) = Some tok →
  POST (Some payload) w = answer_request q tok w.
Proof.
  intros Hurl [Hq Hne]%trimmed_question_truthy Htok%token_truthy.
  unfold POST. rewrite decide_False by done. rewrite Hq.
  rewrite decide_False by done. by rewrite Htok.
Qed.

(** C7. When the roles of the caller allow no action of the catalogue,
    which is when the normalized set is empty, the entry point sends the
    order request and the profile request and calls the model once, with the
    messages of the answer built from the digest and the question, no plan
    and an empty log: the plan generator is not called and no handler runs.
    The response is the answer of the model, or a 502 when the model fails. *)
Theorem information_only_when_no_action_allowed
    payload q tok (w : World) context w1 evs1 profile w2 :
  OLLAMA_BASE_URL ≠ "" →
  truthy (JsString.trim <$> question payload) = Some q →
  truthy (token payload) = Some tok →
  buildWorkflowContext tok w = (Return context, w1, evs1) →
  fetchJson tok GET_auth_me w1 = (inr profile, w2) →
  allowed_actions (normalizeRoles (profile_roles profile)) = [] →
  let messages :=
    answer_messages (JsString.slice q 0 4000) (summary context) None [] in
  ∃ response w3,
    POST (Some payload) w =
      (Return response, w3, evs1 ++ [Request tok GET_auth_me; ModelCall messages]) ∧
    match invoke messages w2 with
    | (inr r, w') =>
        response = json (AnswerBody (normalizeContent (response_content r))
                                    (default OLLAMA_MODEL (response_metadata_model r))
                                    (context_error context)) 200 ∧ w3 = w'
    | (inl e, w') => response = json (MessageBody e) 502 ∧ w3 = w'
    end ∧
    evs1 = [Request tok GET_orders] ∧
    normalizeRoles (profile_roles profile) = ∅ ∧
    messages =
      [ ("system", "You are ProduSoft's workflow assistant. You MUST reflect the real execution results that were already performed. If something failed, explain why and recommend next steps. Never invent actions outside the execution log.");
        ("system", "Operational context:" +:+ NL +:+ summary context);
        ("system", "Agent plan:" +:+ NL +:+ "No plan generated (information-only response).");
        ("system", "Execution log:" +:+ NL +:+ "No autonomous actions were executed.");
        ("human", JsString.slice q 0 4000) ].
Proof.
  intros Hurl Hq Htok Hcontext Hprofile Hnone messages.
  subst messages. remember (JsString.slice q 0 4000) as q' eqn:Hq'.
  set (messages := answer_messages q' (summary context) None []).
  assert (Hevs : evs1 = [Request tok GET_orders]).
  { destruct (buildWorkflowContext_returns tok w) as (? & ? & Hc). congruence. }
  assert (Hrun : ∃ response w3,
    POST (Some payload) w =
      (Return response, w3, evs1 ++ [Request tok GET_auth_me; ModelCall messages]) ∧
    match invoke messages w2 with
    | (inr r, w') =>
        response = json (AnswerBody (normalizeContent (response_content r))
                                    (default OLLAMA_MODEL (response_metadata_model r))
                                    (context_error context)) 200 ∧ w3 = w'
    | (inl e, w') => response = json (MessageBody e) 502 ∧ w3 = w'
    end).
  { rewrite (POST_answer_request _ _ _ _ Hurl Hq Htok). unfold answer_request.
    rewrite <- Hq'.
    unfold try_catch, mbind, M_bind, bind. rewrite Hcontext.
    unfold fetchUserProfile. rewrite (fetch_ok _ _ _ _ _ Hprofile).
    cbn [Response] in *. rewrite Hnone. cbn [length]. rewrite decide_False by lia.
    cbn. unfold buildFinalAnswer, mbind, M_bind, bind, model_invoke. fold messages.
    destruct (invoke messages w2) as [[e|r] w3]; cbn.
    - eexists _, _. split; [|done]. by rewrite ?app_nil_r, <- ?app_assoc.
    - eexists _, _. split; [|done]. by rewrite ?app_nil_r, <- ?app_assoc. }
  destruct Hrun as (response & w3 & Hpost & Hresp).
  exists response, w3. split_and!; try done.
  by apply allowed_actions_empty.
Qed.

End Roles.

(** ** The context builder *)

Section Sorting.
Context {A : Type} (compare : A → A → option Z).

Lemma sort_insert_perm x l : sort_insert compare x l ≡ₚ x :: l.
Proof.
  induction l as [|y l IH]; [done|]. simpl.
  destruct (is_positive (compare x y)); [|done].
  rewrite IH. apply Permutation_swap.
Qed.

Lemma sort_perm l : sort compare l ≡ₚ l.
Proof.
  induction l as [|x l IH]; [done|]. unfold sort in *. simpl.
  by rewrite sort_insert_perm, IH.
Qed.

Context (R : A → A → Prop) (P : A → Prop).
Hypothesis R_trans : ∀ x y z, P x → P y → P z → R x y → R y z → R x z.
Hypothesis moves_behind : ∀ x y, P x → P y → is_positive (compare x y) = true → R y x.
Hypothesis stays_ahead : ∀ x y, P x → P y → is_positive (compare x y) = false → R x y.

Lemma sort_insert_sorted x l :
  P x → Forall P l → StronglySorted R l → StronglySorted R (sort_insert compare x l).
Proof.
  intros Hx Hl Hsorted. induction Hsorted as [|y l Hsorted IH Hy]; simpl.
  - by repeat constructor.
  - apply Forall_cons in Hl as [HPy HPl].
    destruct (is_positive (compare x y)) eqn:Hcmp.
    + constructor; [by apply IH|].
      rewrite sort_insert_perm. constructor; [by apply moves_behind|done].
    + constructor; [by constructor|].
      constructor; [by apply stays_ahead|].
      apply Forall_forall. intros z Hz.
      apply (R_trans x y z); try done.
      * by eapply Forall_forall in HPl.
      * by apply stays_ahead.
      * by eapply Forall_forall in Hy.
Qed.

Lemma sort_sorted l : Forall P l → StronglySorted R (sort compare l).
Proof.
  induction 1 as [|x l Hx Hl IH]; [constructor|].
  unfold sort in *. simpl. apply sort_insert_sorted; [done| |done].
  fold (sort compare l). by rewrite sort_perm.
Qed.

End Sorting.

Section ContextBuilder.
Context {rt : Runtime} {World : Type} {rm : Remote World}.

Lemma created_time_created_at o t : created_time o = Some t ↔ created_at o t.
Proof.
  unfold created_time, created_at. case_decide; naive_solver.
Qed.

Lemma dated_created_time o : dated o ↔ is_Some (created_time o).
Proof.
  unfold dated, created_time. case_decide; [|naive_solver].
  split; [by eexists|by left].
Qed.

Lemma compareOrders_value a b ta tb :
  created_time a = Some ta → created_time b = Some tb →
  compareOrders a b =
    Some (if decide (priority_of b - priority_of a ≠ 0) then priority_of b - priority_of a
          else tb - ta).
Proof.
  intros Ha Hb. unfold compareOrders, priority_of. rewrite Ha, Hb. by case_decide.
Qed.

(** On orders whose dates can be read, [compareOrders] is consistent. *)
Lemma compareOrders_consistent orders : Forall dated orders → consistent compareOrders orders.
Proof.
  intros Hdated a b c Ha Hb Hc.
  rewrite Forall_forall in Hdated.
  destruct (proj1 (dated_created_time a) (Hdated _ Ha)) as [ta Hta].
  destruct (proj1 (dated_created_time b) (Hdated _ Hb)) as [tb Htb].
  destruct (proj1 (dated_created_time c) (Hdated _ Hc)) as [tc Htc].
  split.
  - rewrite (compareOrders_value _ _ _ _ Hta Hta). case_decide; f_equal; lia.
  - eexists _, _, _, _.
    rewrite (compareOrders_value _ _ _ _ Hta Htb), (compareOrders_value _ _ _ _ Htb Hta),
      (compareOrders_value _ _ _ _ Htb Htc), (compareOrders_value _ _ _ _ Hta Htc).
    split_and!; try done; repeat case_decide; lia.
Qed.

Lemma compareStages_consistent stages : consistent compareStages stages.
Proof.
  intros a b c _ _ _. unfold compareStages. split; [f_equal; lia|].
  eexists _, _, _, _. split_and!; try done; lia.
Qed.

Lemma compareOrders_positive a b :
  dated a → dated b →
  is_positive (compareOrders a b) = true ↔
  priority_of a < priority_of b ∨
  priority_of a = priority_of b ∧ ∃ ta tb, created_at a ta ∧ created_at b tb ∧ ta < tb.
Proof.
  intros [ta Hta]%dated_created_time [tb Htb]%dated_created_time.
  rewrite (compareOrders_value _ _ _ _ Hta Htb). cbn [is_positive]. rewrite Z.ltb_lt.
  split.
  - case_decide; [left; lia|]. intros ?. right. split; [lia|].
    exists ta, tb. rewrite <- !created_time_created_at. split_and!; [done|done|lia].
  - intros [?|(? & ta' & tb' & Ha%created_time_created_at & Hb%created_time_created_at & ?)];
      case_decide; simplify_eq; lia.
Qed.

Lemma sort_orders_sorted orders :
  Forall dated orders → StronglySorted comes_before (sort compareOrders orders).
Proof.
  apply (sort_sorted compareOrders comes_before dated).
  - unfold comes_before. intros x y z _ _ _ [Hxy|(Hxy & ta & tb & Ha & Hb & Hab)]
      [Hyz|(Hyz & tb' & tc & Hb' & Hc & Hbc)]; try (left; lia).
    right. split; [lia|]. exists ta, tc.
    apply created_time_created_at in Hb, Hb'. simplify_eq. split_and!; try done; lia.
  - intros x y Hx Hy Hpos. apply compareOrders_positive in Hpos; [|done..].
    destruct Hpos as [Hlt|(Heq & ta & tb & Ha & Hb & Hlt)]; unfold comes_before; [by left|].
    right. split; [done|]. exists tb, ta. split_and!; try done; lia.
  - intros x y Hx Hy Hneg. unfold comes_before.
    destruct (decide (priority_of y < priority_of x)) as [|Hge]; [by left|]. right.
    destruct (decide (priority_of x < priority_of y)) as [Hlt|Hle].
    { assert (is_positive (compareOrders x y) = true)
        by (apply compareOrders_positive; [done..|by left]).
      congruence. }
    split; [lia|].
    destruct (proj1 (dated_created_time x) Hx) as [tx Htx].
    destruct (proj1 (dated_created_time y) Hy) as [ty Hty].
    exists tx, ty. rewrite <- !created_time_created_at. split_and!; try done.
    destruct (decide (ty ≤ tx)) as [|Hgt]; [done|].
    assert (is_positive (compareOrders x y) = true); [|congruence].
    apply compareOrders_positive; [done..|]. right. split; [lia|]. exists tx, ty.
    rewrite <- !created_time_created_at. split_and!; try done; lia.
Qed.

(** The ranks of the three stages are 0, 1 and 2, in the order of
    PREPARATION, ASSEMBLY, DELIVERY; any other name has the last rank. *)
Lemma rankStage_position stage :
  rankStage stage =
    match stage_position stage with
    | 0%nat => 0 | 1%nat => 1 | 2%nat => 2
    | _ => MAX_SAFE_INTEGER
    end.
Proof.
  unfold rankStage, stage_position, STAGE_RANK, new_Map. cbn.
  repeat case_decide; subst; try done.
  by rewrite !lookup_insert_ne, lookup_empty by done.
Qed.

Lemma rankStage_le a b :
  rankStage a ≤ rankStage b ↔ (stage_position a ≤ stage_position b)%nat.
Proof.
  rewrite !rankStage_position. unfold stage_position, MAX_SAFE_INTEGER.
  repeat case_decide; lia.
Qed.

Lemma sorted_stages_sorted o :
  sorted_stages o ≡ₚ order_stages o ∧ StronglySorted stage_before (sorted_stages o).
Proof.
  unfold sorted_stages. rewrite Array_sort_consistent by apply compareStages_consistent.
  split; [apply sort_perm|].
  apply (sort_sorted _ stage_before (λ _, True)); [..|by apply Forall_true]; unfold stage_before.
  - intros; lia.
  - intros x y _ _ Hpos. simpl in Hpos. apply Z.ltb_lt in Hpos.
    apply rankStage_le. lia.
  - intros x y _ _ Hneg. simpl in Hneg. apply Z.ltb_ge in Hneg.
    apply rankStage_le. lia.
Qed.

(** C8, amended. Two runs of the context builder that get the same answer
    to the order request give the same result, whatever the rest of the
    world is. When that answer is a non-empty list of orders whose creation
    dates can all be read, the digest is the header, with the number of
    orders and the number shown, followed by one line for each of the first
    ten orders of the list sorted by priority, highest first, and, among
    orders of one priority, by the time of the creation date, latest first.
    In the line of an order the stage details are those of its stages put
    in the sequence PREPARATION, ASSEMBLY, DELIVERY (a stage with any other
    name after them), whatever their order in the answer. *)
Theorem context_digest_deterministic_and_ordered tok (w w' : World) answer w1 w1' :
  fetchJson tok GET_orders w = (answer, w1) →
  fetchJson tok GET_orders w' = (answer, w1') →
  (buildWorkflowContext tok w).1.1 = (buildWorkflowContext tok w').1.1 ∧
  (∀ orders,
     answer = inr orders →
     orders ≠ [] →
     Forall dated orders →
     ∃ sorted,
       sorted ≡ₚ orders ∧
       StronglySorted comes_before sorted ∧
       (buildWorkflowContext tok w).1.1 =
         Return {| summary :=
                     "Total orders available: " +:+ JsString.of_nat (length orders)
                     +:+ ". Showing top " +:+ JsString.of_nat (length orders `min` 10)
                     +:+ " by priority and creation." +:+ NL
                     +:+ JsString.join NL (formatOrder <$> take 10 sorted);
                   context_error := None |}) ∧
  (∀ o, ∃ stages header,
     stages ≡ₚ order_stages o ∧
     StronglySorted stage_before stages ∧
     formatOrder o =
       header +:+ ". Stage details: "
       +:+ or_else (JsString.join "; " (formatStage <$> stages)) "no recorded stages.").
Proof.
  intros Hw Hw'. split_and!.
  - unfold buildWorkflowContext, try_catch, mbind, M_bind, bind, fetchOrders, fetchWithAuthJson.
    rewrite Hw, Hw'. destruct answer as [message|orders]; [done|].
    cbn [Response] in *. by destruct (decide (length orders = 0%nat)).
  - intros orders -> Hne Hdated. exists (sort compareOrders orders). split_and!.
    + apply sort_perm.
    + by apply sort_orders_sorted.
    + unfold buildWorkflowContext, try_catch, mbind, M_bind, bind, fetchOrders.
      rewrite (fetch_ok _ _ _ _ _ Hw). cbn [Response] in *.
      destruct (decide (length orders = 0%nat)) as [Hlen|_].
      { by apply length_zero_iff_nil in Hlen. }
      cbn. do 2 f_equal. unfold context_summary, limited_orders, MAX_CONTEXT_ORDERS.
      rewrite (Array_sort_consistent _ _ (compareOrders_consistent _ Hdated)).
      rewrite length_take, (Permutation_length (sort_perm compareOrders orders)).
      by rewrite Nat.min_comm.
  - intros o. destruct (sorted_stages_sorted o) as [Hperm Hsorted].
    by eexists (sorted_stages o), _.
Qed.

End ContextBuilder.

(** ** The properties on the sample data *)

Section Examples.
Local Existing Instances Sim.runtime Sim.remote.
Import Sample.

(** The operator completes the assembly of PO-9: the two tasks that are
    required and open are ticked, then the stage is completed, then the
    next action runs. *)
Lemma injected_update_on_sample :
  ∃ tasks sent out w2 new evs_c w3 log1 w4 evs1,
    taskId <$> tasks = item_id <$> required_incomplete assembly9 ∧
    Forall (λ task, completed task = true) tasks ∧
    let update := {| uc_orderId := 9; uc_stage := ASSEMBLY; uc_tasks := tasks |} in
    update_tasks 9 ASSEMBLY "dG9rZW4=" None tasks (world []) =
      (out, w2, checklist_requests "dG9rZW4=" 9 ASSEMBLY sent) ∧
    executePlan [look_at_nine] operator w3 = (Return log1, w4, evs1) ∧
    executePlan ([] ++ complete_assembly :: [look_at_nine]) operator (world []) =
      (Return ([] ++ new ++ log1), w4,
       []
       ++ [Request "dG9rZW4=" (GET_order 9); HandlerCall update_stage_checklist update]
       ++ checklist_requests "dG9rZW4=" 9 ASSEMBLY sent
       ++ evs_c ++ evs1) ∧
    match out with
    | Return last =>
        sent = tasks ∧
        ∃ completion,
          new = [checklist_updated_result update last; completion] ∧
          result_name completion = "complete_stage" ∧
          evs_c = [HandlerCall complete_stage complete_assembly_args;
                   completion_request complete_assembly_args operator]
    | Throw message =>
        sent `prefix_of` tasks ∧ sent ≠ [] ∧
        new = [checklist_failed_entry message] ∧ evs_c = [] ∧ w3 = w2
    end.
Proof.
  refine (injected_update_precedes_completion [] complete_assembly [look_at_nine] operator
            (world []) complete_assembly_args [] (world []) [] order9 (world []) assembly9
            _ _ _ _ _ _ _).
  - reflexivity.
  - vm_compute. reflexivity.
  - reflexivity.
  - reflexivity.
  - vm_compute. reflexivity.
  - vm_compute. discriminate.
  - vm_compute. reflexivity.
Defined.

(** On the sample every request of the update succeeds: the log of the
    completion is the result of the update, then that of the completion. *)
Example injected_update_log :
  match executePlan [complete_assembly] operator (world []) with
  | (Return log, _, _) => (λ r, (result_name r, result_status r, result_summary r)) <$> log
  | (Throw _, _, _) => []
  end =
  [("update_stage_checklist", success, "Updated 2 checklist tasks for stage ASSEMBLY.");
   ("complete_stage", success, "Stage ASSEMBLY completed (state COMPLETED).")].
Proof. vm_compute. reflexivity. Qed.

(** Against C1 as stated: with task [a] locked, the same plan for the same
    operator logs one error entry, sends the request for [a] only, leaves
    both tasks open and makes no completion attempt. *)
Lemma injected_update_can_fail :
  find_stage ASSEMBLY order9 = Some assembly9 ∧
  pending_tasks assembly9 = [task "a" true false; task "c" true false] ∧
  OPERATOR ∈ ctx_roles operator ∧
  ∃ log w' evs,
    executePlan [complete_assembly] operator (world ["a"]) = (Return log, w', evs) ∧
    log = [checklist_failed_entry "Task is locked"] ∧
    evs = [Request "dG9rZW4=" (GET_order 9);
           HandlerCall update_stage_checklist
             (implicit_update complete_assembly_args (pending_tasks assembly9));
           Request "dG9rZW4=" (PATCH_checklist 9 ASSEMBLY "a" true)] ∧
    handler_calls complete_stage evs = [] ∧
    Sim.find_order w' 9 = Some order9 ∧
    ¬ ∃ before update completion after,
        log = before ++ update :: completion :: after ∧
        result_name update = "update_stage_checklist" ∧
        result_name completion = "complete_stage".
Proof.
  split_and!; [reflexivity|reflexivity|vm_compute; reflexivity|].
  eexists _, _, _. split_and!; [vm_compute; reflexivity|reflexivity..|].
  intros (before & update & completion & after & Hlog & _).
  apply (f_equal length) in Hlog. rewrite length_app in Hlog. simpl in Hlog. lia.
Qed.

(** The same plan for a supervisor stops at the checklist rule. *)
Lemma pending_tasks_block_supervisor_on_sample :
  ∃ entry evs_a log1 w2 evs1,
    executePlan [look_at_nine] supervisor (world []) = (Return log1, w2, evs1) ∧
    executePlan ([] ++ complete_assembly :: [look_at_nine]) supervisor (world []) =
      (Return ([] ++ entry :: log1), w2, [] ++ evs_a ++ evs1) ∧
    result_status entry = error ∧
    handler_calls complete_stage evs_a = [] ∧
    evs_a = [Request (ctx_token supervisor) (GET_order (cs_orderId complete_assembly_args))].
Proof.
  refine (pending_tasks_block_non_operator [] complete_assembly [look_at_nine] supervisor
            (world []) complete_assembly_args [] (world []) [] order9 (world []) assembly9
            _ _ _ _ _ _ _).
  - reflexivity.
  - vm_compute. reflexivity.
  - reflexivity.
  - reflexivity.
  - vm_compute. reflexivity.
  - vm_compute. discriminate.
  - vm_compute. discriminate.
Defined.

(** With task [a] locked the implicit update throws and the completion is
    given up. *)
Lemma failed_implicit_update_on_sample :
  ∃ message entry log1 w3 evs1,
    Throw message = @Throw AgentActionResult "Task is locked" ∧
    executePlan [look_at_nine] operator (world ["a"]) = (Return log1, w3, evs1) ∧
    executePlan ([] ++ complete_assembly :: [look_at_nine]) operator (world ["a"]) =
      (Return ([] ++ entry :: log1), w3,
       [] ++ Request (ctx_token operator) (GET_order (cs_orderId complete_assembly_args))
          :: [HandlerCall update_stage_checklist
                (implicit_update complete_assembly_args (pending_tasks assembly9));
              Request "dG9rZW4=" (PATCH_checklist 9 ASSEMBLY "a" true)] ++ evs1) ∧
    entry = checklist_failed_entry message ∧
    result_name entry = "update_stage_checklist" ∧
    result_status entry = error ∧
    result_error entry = Some message ∧
    handler_calls complete_stage
      (Request (ctx_token operator) (GET_order (cs_orderId complete_assembly_args))
       :: [HandlerCall update_stage_checklist
             (implicit_update complete_assembly_args (pending_tasks assembly9));
           Request "dG9rZW4=" (PATCH_checklist 9 ASSEMBLY "a" true)]) = [].
Proof.
  destruct (failed_implicit_update_blocks_completion [] complete_assembly [look_at_nine]
              operator (world ["a"]) complete_assembly_args [] (world ["a"]) [] order9
              (world ["a"]) assembly9 (Throw "Task is locked") (world ["a"])
              [HandlerCall update_stage_checklist
                 (implicit_update complete_assembly_args (pending_tasks assembly9));
               Request "dG9rZW4=" (PATCH_checklist 9 ASSEMBLY "a" true)])
    as (message & entry & log1 & w3 & evs1 & Hout & Hrest).
  - reflexivity.
  - vm_compute. reflexivity.
  - reflexivity.
  - reflexivity.
  - vm_compute. reflexivity.
  - vm_compute. discriminate.
  - vm_compute. reflexivity.
  - vm_compute. reflexivity.
  - intros r. discriminate.
  - exists message, entry, log1, w3, evs1. split; [symmetry; exact Hout|exact Hrest].
Defined.

(** Against C3 as stated: the implicit update ran and threw, and the only
    entry of the log is named update_stage_checklist; none is named for the
    planned complete_stage. *)
Lemma failed_update_is_not_named_for_completion :
  ∃ log w' evs,
    executePlan [complete_assembly] operator (world ["a"]) = (Return log, w', evs) ∧
    (∃ args, HandlerCall update_stage_checklist args ∈ evs) ∧
    call_handler update_stage_checklist_action
      (implicit_update complete_assembly_args (pending_tasks assembly9)) operator (world ["a"])
    = (Throw "Task is locked", world ["a"],
       [HandlerCall update_stage_checklist
          (implicit_update complete_assembly_args (pending_tasks assembly9));
        Request "dG9rZW4=" (PATCH_checklist 9 ASSEMBLY "a" true)]) ∧
    handler_calls complete_stage evs = [] ∧
    result_name <$> last log = Some "update_stage_checklist" ∧
    ¬ ∃ entry, entry ∈ log ∧ result_name entry = action_name complete_assembly.
Proof.
  eexists _, _, _. split_and!; [vm_compute; reflexivity|..].
  - eexists. apply list_elem_of_here || (right; left).
  - vm_compute. reflexivity.
  - reflexivity.
  - reflexivity.
  - intros (entry & Hin & Hname). apply list_elem_of_singleton in Hin. subst. discriminate.
Qed.

(** An unknown action between two known ones. *)
Lemma unknown_action_on_sample :
  (∃ log0 w1 evs0 log1 w2 evs1,
      executePlan [look_at_text] supervisor (world []) = (Return log0, w1, evs0) ∧
      executePlan [look_at_nine] supervisor w1 = (Return log1, w2, evs1) ∧
      executePlan ([look_at_text] ++ delete_order :: [look_at_nine]) supervisor (world []) =
        (Return (log0 ++ unsupported_result delete_order :: log1), w2, evs0 ++ evs1) ∧
      result_name (unsupported_result delete_order) = action_name delete_order ∧
      result_status (unsupported_result delete_order) = error) ∧
  (∀ actions ctx' (w' : Sim.World), ∃ log w'' evs,
      executePlan actions ctx' w' = (Return log, w'', evs)).
Proof.
  apply (unknown_action_isolated [look_at_text] delete_order [look_at_nine] supervisor (world [])).
  vm_compute. reflexivity.
Defined.

(** The argument bag of the sample completion, which has a property the
    schema does not name. *)
Lemma arguments_validated_on_sample :
  (∀ issues,
      safeParse (schema complete_stage_action) (JObject (action_arguments complete_assembly))
        = Failure issues →
      executeAction [] complete_assembly operator (world []) =
        (Return ([] ++ [invalid_arguments_result complete_assembly issues]), world [], []) ∧
      result_status (invalid_arguments_result complete_assembly issues) = error ∧
      result_error (invalid_arguments_result complete_assembly issues)
        = Some (ZodError_message issues)) ∧
  (∀ data,
      safeParse (schema complete_stage_action) (JObject (action_arguments complete_assembly))
        = Success data →
      agrees (JObject (to_json complete_stage data))
             (JObject (action_arguments complete_assembly)) = true ∧
      (∀ k, k ∈ shape_keys complete_stage →
            is_Some (get_prop k (action_arguments complete_assembly))
            ↔ is_Some (get_prop k (to_json complete_stage data))) ∧
      ∃ log w' evs,
        executeAction [] complete_assembly operator (world []) = (Return log, w', evs) ∧
        ∃ gate w1 evs1,
          ensureChecklistBeforeCompletion data operator (world []) = (Return gate, w1, evs1) ∧
          handler_calls complete_stage evs = if ready gate then [data] else []).
Proof.
  apply (arguments_validated_before_handler [] complete_assembly operator (world [])
           complete_stage_action).
  vm_compute. reflexivity.
Defined.

(** A bag that fails the schema: the identifier is a text. The log gets
    the error with the issue, and nothing is sent. *)
Example invalid_arguments_on_sample :
  executeAction [] look_at_text operator (world []) =
    (Return [invalid_arguments_result look_at_text
               [issue (invalid_type "number" "string") [Key "orderId"]]],
     world [], []).
Proof. vm_compute. reflexivity. Qed.

(** The issues of a limit of one half: it is no integer, and it is below
    the least limit. *)
Example fractional_limit_issues :
  safeParse ListOrdersSchema (JObject [("limit", JNumber (NonInteger 1 1))]) =
    Failure [issue (invalid_type "integer" "float") [Key "limit"];
             issue (too_small "number" 1 true) [Key "limit"]].
Proof. vm_compute. reflexivity. Qed.

(** For the operator the checklist rule lets the sample completion go on,
    and the handler is called once with the validated data; for a
    supervisor the rule stops it, and the handler is not called. *)
Example completion_gate_on_sample :
  handler_calls complete_stage (executeAction [] complete_assembly operator (world [])).2
    = [complete_assembly_args] ∧
  handler_calls complete_stage (executeAction [] complete_assembly supervisor (world [])).2
    = [] ∧
  (executeAction [] complete_assembly supervisor (world [])).1.1 = Return [not_operator_entry].
Proof. split_and!; vm_compute; reflexivity. Qed.

(** Two fenced blocks, the first with an upper-case label; a text with
    braces and no fence; and a model that answers in prose. *)
Lemma plan_text_extraction_on_sample :
  extractJson "Plan: ```JSON { } ``` or ```json {} ``` done" = Some (JsString.trim " { } ") ∧
  (∀ r, extractJson " so {a} or {b}, then" = Some r
        ↔ braces_span (JsString.trim " so {a} or {b}, then") r) ∧
  let found := extractJson (normalizeContent (ContentString "I cannot plan that.")) in
  ∃ out,
    generatePlan "tidy up" "" ACTION_LIST guest (guest_world ["I cannot plan that."]) =
      (out, guest_world [], [ModelCall (plan_messages "tidy up" "" ACTION_LIST guest)]) ∧
    (found = None ∨ found = Some "" → out = Throw "Agent plan was not valid JSON.") ∧
    (∀ planJson, found = Some planJson → planJson ≠ "" →
       (∀ syntax_error, JSON_parse planJson = inl syntax_error → out = Throw syntax_error) ∧
       (∀ value, JSON_parse planJson = inr value →
          (∀ plan, safeParse PlanSchema value = Success plan → out = Return plan) ∧
          (∀ issues, safeParse PlanSchema value = Failure issues →
             out = Throw "Agent plan schema validation failed."))).
Proof.
  split_and!.
  - apply (proj1 (proj2 (proj1 plan_text_extraction
                           "Plan: ```JSON { } ``` or ```json {} ``` done")) " { } ").
    apply code_fence_match_spec. vm_compute. reflexivity.
  - apply (proj2 (proj2 (proj1 plan_text_extraction " so {a} or {b}, then"))).
    apply code_fence_match_None. vm_compute. reflexivity.
  - apply (proj2 plan_text_extraction "tidy up" "" ACTION_LIST guest
             (guest_world ["I cannot plan that."])
             {| response_content := ContentString "I cannot plan that.";
                response_metadata_model := None |}
             (guest_world [])).
    reflexivity.
Defined.

Example extracted_texts :
  extractJson "Plan: ```JSON { } ``` or ```json {} ``` done" = Some "{ }" ∧
  extractJson " so {a} or {b}, then" = Some "{a} or {b}" ∧
  extractJson "I cannot plan that." = None.
Proof. split_and!; vm_compute; reflexivity. Qed.

(** A caller whose roles are unknown to the route gets an answer from the
    digest alone. *)
Lemma information_only_on_sample :
  let messages :=
    answer_messages (JsString.slice "What is the state of order PO-9?" 0 4000)
      (summary sample_context) None [] in
  ∃ response w3,
    POST (Some request) (guest_world ["All quiet."]) =
      (Return response, w3,
       [Request "dG9rZW4=" GET_orders]
       ++ [Request "dG9rZW4=" GET_auth_me; ModelCall messages]) ∧
    match invoke messages (guest_world ["All quiet."]) with
    | (inr r, w') =>
        response = json (AnswerBody (normalizeContent (response_content r))
                                    (default OLLAMA_MODEL (response_metadata_model r))
                                    (context_error sample_context)) 200 ∧ w3 = w'
    | (inl e, w') => response = json (MessageBody e) 502 ∧ w3 = w'
    end ∧
    [Request "dG9rZW4=" GET_orders] = [Request "dG9rZW4=" GET_orders] ∧
    normalizeRoles (profile_roles guest) = ∅ ∧
    messages =
      [ ("system", "You are ProduSoft's workflow assistant. You MUST reflect the real execution results that were already performed. If something failed, explain why and recommend next steps. Never invent actions outside the execution log.");
        ("system", "Operational context:" +:+ NL +:+ summary sample_context);
        ("system", "Agent plan:" +:+ NL +:+ "No plan generated (information-only response).");
        ("system", "Execution log:" +:+ NL +:+ "No autonomous actions were executed.");
        ("human", JsString.slice "What is the state of order PO-9?" 0 4000) ].
Proof.
  refine (information_only_when_no_action_allowed request "What is the state of order PO-9?"
            "dG9rZW4=" (guest_world ["All quiet."]) sample_context
            (guest_world ["All quiet."]) [Request "dG9rZW4=" GET_orders] guest
            (guest_world ["All quiet."]) _ _ _ _ _ _).
  - vm_compute. discriminate.
  - vm_compute. reflexivity.
  - reflexivity.
  - vm_compute. reflexivity.
  - reflexivity.
  - vm_compute. reflexivity.
Defined.

Example sample_dates_are_read : Forall dated [order3; order9; order7].
Proof.
  repeat (apply Forall_cons; split); [by left|right; eexists; vm_compute; reflexivity..|].
  constructor.
Qed.

(** The digest of the three sample orders, read in two different worlds. *)
Lemma context_digest_on_sample :
  (buildWorkflowContext "dG9rZW4=" (world [])).1.1
    = (buildWorkflowContext "dG9rZW4=" (world ["a"])).1.1 ∧
  (∃ sorted,
     sorted ≡ₚ [order3; order9; order7] ∧
     StronglySorted comes_before sorted ∧
     (buildWorkflowContext "dG9rZW4=" (world [])).1.1 =
       Return {| summary :=
                   "Total orders available: " +:+ JsString.of_nat 3
                   +:+ ". Showing top " +:+ JsString.of_nat 3
                   +:+ " by priority and creation." +:+ NL
                   +:+ JsString.join NL (formatOrder <$> take 10 sorted);
                 context_error := None |}) ∧
  (∀ o, ∃ stages header,
     stages ≡ₚ order_stages o ∧
     StronglySorted stage_before stages ∧
     formatOrder o =
       header +:+ ". Stage details: "
       +:+ or_else (JsString.join "; " (formatStage <$> stages)) "no recorded stages.").
Proof.
  destruct (context_digest_deterministic_and_ordered "dG9rZW4=" (world []) (world ["a"])
              (inr [order3; order9; order7]) (world []) (world ["a"]))
    as (Hsame & Horders & Hstages); [reflexivity|reflexivity|].
  split_and!; [exact Hsame| |exact Hstages].
  apply (Horders [order3; order9; order7] eq_refl); [discriminate|].
  repeat (apply Forall_cons; split); [by left|right; eexists; vm_compute; reflexivity..|].
  constructor.
Defined.

(** The two orders of priority 5 come first, the later one before the
    earlier; the order without a priority comes last. The stages of PO-3,
    which the service lists from the last to the first, are put back in
    sequence. *)
Example sorted_sample_orders :
  limited_orders [order3; order9; order7] = [order7; order9; order3] ∧
  stage_stage <$> order_stages order3 = ["DELIVERY"; "ASSEMBLY"; "PREPARATION"] ∧
  stage_stage <$> sorted_stages order3 = ["PREPARATION"; "ASSEMBLY"; "DELIVERY"].
Proof. split_and!; vm_compute; reflexivity. Qed.

(** Against C8 as stated: three orders of one priority, the second with a
    creation date that is no date. The comparator gives [NaN] on every pair
    with the second order, so that each order compares as equal to its
    neighbour: the sort leaves the list as it is (V8 takes it for one run
    already in order), and the digest shows the order of the first of
    January before that of the second. *)
Lemma unreadable_date_breaks_recency :
  priority_of Cases.older = priority_of Cases.newer ∧
  priority_of Cases.older = priority_of Cases.undated ∧
  Date_getTime (order_createdAt Cases.undated) = None ∧
  compareOrders Cases.older Cases.undated = None ∧
  compareOrders Cases.newer Cases.undated = None ∧
  (∃ t t', Date_getTime (order_createdAt Cases.older) = Some t ∧
           Date_getTime (order_createdAt Cases.newer) = Some t' ∧ t < t') ∧
  limited_orders [Cases.older; Cases.undated; Cases.newer] = [Cases.older; Cases.undated; Cases.newer] ∧
  (buildWorkflowContext "dG9rZW4=" Cases.backlog).1.1 =
    Return {| summary :=
                "Total orders available: 3. Showing top 3 by priority and creation." +:+ NL
                +:+ JsString.join NL (formatOrder <$> [Cases.older; Cases.undated; Cases.newer]);
              context_error := None |} ∧
  ¬ comes_before Cases.older Cases.newer.
Proof.
  split_and!; try (vm_compute; reflexivity).
  - eexists _, _. split_and!; [vm_compute; reflexivity..|reflexivity].
  - intros [Hlt|(_ & ta & tb & [[Ha _]|[_ Ha]] & [[Hb _]|[_ Hb]] & Hle)]; try discriminate.
    vm_compute in Ha, Hb. simplify_eq. lia.
Qed.

Example normalized_sample_roles :
  normalizeRoles ["ROLE_operator"; "ROLE_ADMIN"; "supervisor"; "role_operator"; "ROLE_ROLE_OPERATOR"]
  = {[OPERATOR; SUPERVISOR]}.
Proof. vm_compute. reflexivity. Qed.

(** A planned update of tasks [a] and [c] with [c] locked. *)
Lemma checklist_update_on_sample :
  [Request "dG9rZW4=" (PATCH_checklist 9 ASSEMBLY "a" true)] =
    checklist_requests (ctx_token operator) (uc_orderId tick_a_c_args) (uc_stage tick_a_c_args)
      [{| taskId := "a"; completed := true |}] ∧
  update_stage_checklist_handler tick_a_c_args operator (world ["c"]) =
    (Throw "Task is locked", half_ticked_world,
     checklist_requests (ctx_token operator) (uc_orderId tick_a_c_args) (uc_stage tick_a_c_args)
       ([{| taskId := "a"; completed := true |}] ++ [{| taskId := "c"; completed := true |}])) ∧
  ∀ results,
    executeAction results tick_a_c operator (world ["c"]) =
      (Return (results ++ [failed_result tick_a_c "Task is locked"]), half_ticked_world,
       HandlerCall update_stage_checklist tick_a_c_args
       :: checklist_requests (ctx_token operator) (uc_orderId tick_a_c_args)
            (uc_stage tick_a_c_args)
            ([{| taskId := "a"; completed := true |}] ++ [{| taskId := "c"; completed := true |}])) ∧
    result_status (failed_result tick_a_c "Task is locked") = error.
Proof.
  refine (checklist_update_not_atomic tick_a_c operator (world ["c"]) tick_a_c_args
            [{| taskId := "a"; completed := true |}] {| taskId := "c"; completed := true |} []
            half_ticked_stage half_ticked_world
            [Request "dG9rZW4=" (PATCH_checklist 9 ASSEMBLY "a" true)]
            "Task is locked" half_ticked_world _ _ _ _ _ _).
  - reflexivity.
  - vm_compute. reflexivity.
  - vm_compute. reflexivity.
  - reflexivity.
  - vm_compute. reflexivity.
  - vm_compute. reflexivity.
Defined.

(** After the failed update the first task stays ticked, the second is open. *)
Example half_ticked_checklist :
  (stage_checklist <$> (Sim.find_order half_ticked_world 9 ≫= find_stage ASSEMBLY)) =
  Some [task "a" true true; task "b" false false; task "c" true false] ∧
  (stage_checklist <$> (Sim.find_order (world ["c"]) 9 ≫= find_stage ASSEMBLY)) =
  Some [task "a" true false; task "b" false false; task "c" true false].
Proof. split; vm_compute; reflexivity. Qed.

End Examples.

(** * Further properties of the route *)

(** ** The handlers *)

Section Handlers.
Context {rt : Runtime} {World : Type} {rm : Remote World}.

Lemma checklist_requests_fmap token orderId stage tasks :
  checklist_requests token orderId stage tasks =
  Request token <$> ((λ task, PATCH_checklist orderId stage (taskId task) (completed task)) <$> tasks).
Proof. unfold checklist_requests. by rewrite <- list_fmap_compose. Qed.

Lemma prefix_of_fmap {A B} (f : A → B) (l1 l2 : list A) :
  l1 `prefix_of` l2 → (f <$> l1) `prefix_of` (f <$> l2).
Proof. intros [k ->]. rewrite fmap_app. by eexists. Qed.

(** What a handler sends: requests with the token of the caller, a prefix
    of [handler_requests], all of it when the handler returns. *)
Lemma handler_events (d : ActionDefinition) args ctx (w : World) out w' evs :
  d ∈ ACTION_LIST →
  handler d args ctx w = (out, w', evs) →
  ∃ sent, evs = Request (ctx_token ctx) <$> sent ∧
          sent `prefix_of` handler_requests (name d) args ctx ∧
          match out with
          | Return _ => sent = handler_requests (name d) args ctx
          | Throw _ => sent ≠ []
          end.
Proof.
  intros Hin. revert args. pattern d. revert d Hin.
  apply ACTION_LIST_cases;
    cbn [name handler list_orders_action get_order_details_action list_stage_checklist_action
         create_order_action update_order_priority_action claim_stage_action
         update_stage_checklist_action complete_stage_action flag_stage_exception_action
         approve_stage_skip_action ArgsOf handler_requests]; intros args.
  7:{ unfold update_stage_checklist_handler.
      destruct (decide (OPERATOR ∉ ctx_roles ctx)) as [Hno|Hyes].
      - intros [= <- <- <-]. exists []. destruct (decide (OPERATOR ∈ ctx_roles ctx)); [done|].
        split_and!; done.
      - destruct (decide (OPERATOR ∈ ctx_roles ctx)) as [_|Hno]; [|by destruct Hyes].
        unfold mbind, M_bind, bind.
        destruct (update_tasks _ _ _ None _ w) as [[[last|e] w1] evs1] eqn:Hu;
          destruct (update_tasks_requests _ _ _ _ _ _ _ _ _ Hu) as (sent & -> & Hpre & Hout);
          intros [= <- <- <-]; rewrite ?app_nil_r, checklist_requests_fmap;
          eexists; (split; [reflexivity|]); (split; [by apply prefix_of_fmap|]).
        + by rewrite Hout.
        + by destruct sent. }
  all: unfold list_orders_handler, get_order_details_handler, list_stage_checklist_handler,
         create_order_handler, update_order_priority_handler, claim_stage_handler,
         complete_stage_handler, flag_stage_exception_handler, approve_stage_skip_handler,
         fetchOrders, mbind, M_bind, bind, fetchWithAuthJson;
       destruct (fetchJson _ _ w) as [[e|body] w1];
       try destruct (find_stage _ _);
       intros [= <- <- <-]; eexists [_]; split_and!; done.
Qed.

Lemma Forall_sent (P : Event → Prop) tok (sent reqs : list Endpoint) :
  sent `prefix_of` reqs →
  Forall (λ e, P (Request tok e)) reqs →
  Forall P (Request tok <$> sent).
Proof. intros [k ->] [H _]%Forall_app. by apply Forall_fmap. Qed.

Lemma update_action_in_list : update_stage_checklist_action ∈ ACTION_LIST.
Proof. unfold ACTION_LIST, ACTION_DEFINITIONS. set_solver. Qed.

(** The checklist rule returns; its gate is open with at most one entry or
    closed with exactly one; it sends the order request and, for an
    operator, may call the handler of the checklist update. *)
Lemma ensureChecklist_cases d ctx (w : World) :
  ∃ gate w' evs,
    ensureChecklistBeforeCompletion d ctx w = (Return gate, w', evs) ∧
    (if ready gate then (length (entries gate) ≤ 1)%nat else length (entries gate) = 1%nat) ∧
    (evs = [Request (ctx_token ctx) (GET_order (cs_orderId d))] ∨
     ∃ args sent,
       evs = Request (ctx_token ctx) (GET_order (cs_orderId d))
             :: HandlerCall update_stage_checklist args :: (Request (ctx_token ctx) <$> sent) ∧
       sent `prefix_of` handler_requests update_stage_checklist args ctx).
Proof.
  unfold ensureChecklistBeforeCompletion, try_catch, mbind, M_bind, bind, fetchWithAuthJson.
  destruct (fetchJson _ _ w) as [[e|order] w1].
  { eexists _, _, _. split; [reflexivity|]. split; [done|by left]. }
  cbn [Response] in *.
  destruct (find_stage _ order) as [s|];
    [|eexists _, _, _; split; [reflexivity|]; split; [done|by left]].
  destruct (decide (length (pending_tasks s) = 0%nat)).
  { eexists _, _, _. split; [reflexivity|]. split; [cbn; lia|by left]. }
  destruct (decide (OPERATOR ∉ ctx_roles ctx)).
  { eexists _, _, _. split; [reflexivity|]. split; [done|by left]. }
  rewrite get_action_update, call_handler_run.
  destruct (handler update_stage_checklist_action _ ctx w1) as [[[r|e] w2] evs2] eqn:Hh;
    destruct (handler_events _ _ _ _ _ _ _ update_action_in_list Hh) as (sent & -> & Hpre & _).
  - destruct (decide (result_status r ≠ success)); eexists _, _, _;
      (split; [reflexivity|]); (split; [cbn; lia|]); right; eexists _, sent;
      (split; [cbn; by rewrite ?app_nil_r|exact Hpre]).
  - eexists _, _, _. split; [reflexivity|]. split; [done|]. right. eexists _, sent.
    split; [cbn; by rewrite ?app_nil_r|exact Hpre].
Qed.


(** A property of the events of one turn of the executor: it holds of the
    handler calls, of the requests of the handlers of the actions the turn
    may run, and of the order request of the checklist rule. *)
Lemma executeAction_events (P : Event → Prop) (Q : ActionName → Prop)
    results a ctx (w : World) out w' evs :
  (∀ n args, P (HandlerCall n args)) →
  (∀ n args, Q n → Forall (λ e, P (Request (ctx_token ctx) e)) (handler_requests n args ctx)) →
  (Q complete_stage →
   Q update_stage_checklist ∧ ∀ id, P (Request (ctx_token ctx) (GET_order id))) →
  (∀ d, ACTION_MAP !! action_name a = Some d → Q (name d)) →
  executeAction results a ctx w = (out, w', evs) →
  Forall P evs.
Proof.
  intros Hcall Hreq Hgate HQ. unfold executeAction.
  destruct (ACTION_MAP !! action_name a) as [d|] eqn:Hd; [|by intros [= <- <- <-]].
  specialize (HQ d eq_refl). apply ACTION_MAP_elem in Hd as [Hin _].
  destruct (safeParse (schema d) _) as [data|issues]; [|by intros [= <- <- <-]].
  assert (Hinv : ∀ results w out w' evs,
             invoke_handler results a d data ctx w = (out, w', evs) → Forall P evs).
  { intros results0 w0 out0 w0' evs0. rewrite invoke_handler_run.
    destruct (handler d data ctx w0) as [[[r|e] w1] evs1] eqn:Hh;
      destruct (handler_events _ _ _ _ _ _ _ Hin Hh) as (sent & -> & Hpre & _);
      intros [= <- <- <-]; (constructor; [apply Hcall|]);
      eapply Forall_sent; eauto. }
  clear Hin. destruct d as [n desc summ rs sch h]. cbn [name] in *.
  destruct n; try (by apply Hinv).
  destruct (Hgate HQ) as [HQu Hget].
  destruct (ensureChecklist_cases data ctx w) as (gate & w1 & evs1 & Hrun & _ & Hevs).
  rewrite (bind_Return _ _ _ _ _ _ Hrun).
  assert (H1 : Forall P evs1).
  { destruct Hevs as [->|(args & sent & -> & Hpre)].
    - by repeat constructor.
    - constructor; [apply Hget|]. constructor; [apply Hcall|].
      eapply Forall_sent; eauto. }
  destruct (ready gate); cbn [negb].
  - match goal with |- context [invoke_handler ?r a ?d data ctx w1] =>
      destruct (invoke_handler r a d data ctx w1) as [[out2 w2] evs2] eqn:Hh end.
    intros [= <- <- <-]. apply Forall_app. split; [done|]. by eapply Hinv.
  - intros [= <- <- <-]. by rewrite app_nil_r.
Qed.

Lemma executePlan_events (P : Event → Prop) (Q : ActionName → Prop) actions ctx :
  (∀ n args, P (HandlerCall n args)) →
  (∀ n args, Q n → Forall (λ e, P (Request (ctx_token ctx) e)) (handler_requests n args ctx)) →
  (Q complete_stage →
   Q update_stage_checklist ∧ ∀ id, P (Request (ctx_token ctx) (GET_order id))) →
  Forall (λ a, ∀ d, ACTION_MAP !! action_name a = Some d → Q (name d)) actions →
  ∀ (w : World) out w' evs, executePlan actions ctx w = (out, w', evs) → Forall P evs.
Proof.
  intros Hcall Hreq Hgate. induction 1 as [|a rest Ha _ IH]; intros w out w' evs.
  - by intros [= <- <- <-].
  - destruct (executeAction_frame a ctx w) as (new & w1 & evs1 & Hone).
    destruct (executePlan_returns rest ctx w1) as (log & w2 & evs2 & Hrest).
    rewrite (executePlan_cons _ _ _ _ _ _ _ _ _ _ (Hone []) Hrest).
    intros [= <- <- <-]. apply Forall_app. split.
    + by eapply (executeAction_events P Q [] a ctx w _ _ _ Hcall Hreq Hgate Ha), (Hone []).
    + by eapply IH.
Qed.

End Handlers.

(** ** The plan executor *)

Section Executor.
Context {rt : Runtime} {World : Type} {rm : Remote World}.


(** X2. Executing a plan made of two parts is executing the first part and
    then the second from the world the first one left: the logs and the
    events follow each other. *)
Theorem executePlan_concatenation pre post ctx (w : World) :
  executePlan (pre ++ post) ctx w =
  match executePlan pre ctx w with
  | (Return log1, w1, evs1) =>
      match executePlan post ctx w1 with
      | (Return log2, w2, evs2) => (Return (log1 ++ log2), w2, evs1 ++ evs2)
      | (Throw e, w2, evs2) => (Throw e, w2, evs1 ++ evs2)
      end
  | (Throw e, w1, evs1) => (Throw e, w1, evs1)
  end.
Proof.
  destruct (executePlan_returns pre ctx w) as (log1 & w1 & evs1 & Hpre).
  destruct (executePlan_returns post ctx w1) as (log2 & w2 & evs2 & Hpost).
  rewrite Hpre, Hpost. by apply (executePlan_app pre post ctx w log1 w1 evs1 log2 w2 evs2).
Qed.

(** X3. Whatever the plan, the executor calls no model and sends every
    request with the token of the caller. *)
Theorem executor_sends_with_caller_token actions ctx (w : World) :
  Forall (sent_with (ctx_token ctx)) (executePlan actions ctx w).2.
Proof.
  destruct (executePlan actions ctx w) as [[out w'] evs] eqn:Hrun. cbn.
  eapply (executePlan_events (sent_with (ctx_token ctx)) (λ _, True)); [done| |done| |exact Hrun].
  - intros n args _. apply Forall_forall. done.
  - apply Forall_forall. done.
Qed.

(** X4. The requests that complete a stage, flag an exception on it or
    approve its skip always name the caller as the one who acts, whatever
    the arguments of the plan. *)
Theorem writes_name_the_caller actions ctx (w : World) :
  Forall (acts_for (ctx_username ctx)) (executePlan actions ctx w).2.
Proof.
  destruct (executePlan actions ctx w) as [[out w'] evs] eqn:Hrun. cbn.
  eapply (executePlan_events (acts_for (ctx_username ctx)) (λ _, True));
    [done| |done| |exact Hrun].
  - intros n args _. destruct n; cbn; try (by repeat constructor).
    destruct (decide (OPERATOR ∈ ctx_roles ctx)); [|done].
    apply Forall_fmap, Forall_forall. done.
  - apply Forall_forall. done.
Qed.

(** X5. For a caller without the operator role no plan makes the executor
    send a request that changes a checklist. *)
Theorem non_operator_never_updates_checklist actions ctx (w : World) :
  OPERATOR ∉ ctx_roles ctx →
  Forall (λ ev, ¬ is_checklist_patch ev) (executePlan actions ctx w).2.
Proof.
  intros Hrole.
  destruct (executePlan actions ctx w) as [[out w'] evs] eqn:Hrun. cbn.
  eapply (executePlan_events (λ ev, ¬ is_checklist_patch ev) (λ _, True));
    [by intros ?? []| | | |exact Hrun].
  - intros n args _. destruct n; cbn; try (by repeat constructor; intros []).
    destruct (decide (OPERATOR ∈ ctx_roles ctx)); [done|constructor].
  - intros _. split; [done|]. by intros id [].
  - apply Forall_forall. done.
Qed.

(** X6. A plan made of the three reading actions sends only [GET]
    requests. *)
Theorem read_only_plan_only_reads actions ctx (w : World) :
  Forall (λ a, action_name a ∈ READ_ACTIONS) actions →
  Forall reads_only (executePlan actions ctx w).2.
Proof.
  intros Hread.
  destruct (executePlan actions ctx w) as [[out w'] evs] eqn:Hrun. cbn.
  eapply (executePlan_events reads_only
            (λ n, n ∈ [list_orders; get_order_details; list_stage_checklist]));
    [done| | | |exact Hrun].
  - intros n args Hn. destruct n; cbn; try (by repeat constructor); set_solver.
  - set_solver.
  - eapply Forall_impl; [exact Hread|]. intros a Ha d Hd. cbn beta in Ha.
    apply ACTION_MAP_elem in Hd as [_ Hname]. rewrite <- Hname in Ha.
    unfold READ_ACTIONS in Ha. destruct (name d); cbn in Ha; set_solver.
Qed.

Lemma executePlan_single a ctx (w : World) new w' evs :
  executeAction [] a ctx w = (Return new, w', evs) →
  executePlan [a] ctx w = (Return new, w', evs).
Proof.
  intros Ha. unfold executePlan. cbn [executeLoop].
  rewrite (bind_Return _ _ _ _ _ _ Ha). cbn. by rewrite app_nil_r.
Qed.

Lemma executeAction_direct results a ctx (w : World) d data :
  ACTION_MAP !! action_name a = Some d →
  safeParse (schema d) (JObject (action_arguments a)) = Success data →
  name d ≠ complete_stage →
  executeAction results a ctx w = invoke_handler results a d data ctx w.
Proof.
  intros Hd Hp Hn. unfold executeAction. rewrite Hd, Hp.
  destruct d as [n ? ? ? ? ?]. cbn [name] in *. by destruct n.
Qed.

Lemma handler_ignores_roles (d : ActionDefinition) args ctx roles (w : World) :
  d ∈ ACTION_LIST → name d ≠ update_stage_checklist →
  handler d args (with_roles ctx roles) w = handler d args ctx w.
Proof.
  intros Hin. revert args. pattern d. revert d Hin.
  apply ACTION_LIST_cases; cbn [name]; intros args Hn; done.
Qed.

Lemma executeAction_ignores_roles results a ctx roles (w : World) :
  action_name a ∉ ROLE_CHECKED_ACTIONS →
  executeAction results a (with_roles ctx roles) w = executeAction results a ctx w.
Proof.
  intros Hname.
  destruct (ACTION_MAP !! action_name a) as [d|] eqn:Hd;
    [|by unfold executeAction; rewrite Hd].
  destruct (safeParse (schema d) (JObject (action_arguments a))) as [data|issues] eqn:Hp;
    [|by unfold executeAction; rewrite Hd, Hp].
  pose proof (ACTION_MAP_elem _ _ Hd) as [Hin Hstr].
  assert (Hc : name d ≠ complete_stage).
  { intros Hn. rewrite Hn in Hstr. apply Hname. rewrite <- Hstr.
    unfold ROLE_CHECKED_ACTIONS. set_solver. }
  assert (Hu : name d ≠ update_stage_checklist).
  { intros Hn. rewrite Hn in Hstr. apply Hname. rewrite <- Hstr.
    unfold ROLE_CHECKED_ACTIONS. set_solver. }
  rewrite !(executeAction_direct _ _ _ _ _ _ Hd Hp Hc), !invoke_handler_run.
  by rewrite handler_ignores_roles.
Qed.

(** X7. The executor does not look at the roles of the caller, except in the
    checklist update and in the checklist rule of a completion: a plan
    without these two actions runs the same way for any roles, the actions
    meant for supervisors included. *)
Theorem executor_does_not_recheck_roles actions ctx roles (w : World) :
  Forall (λ a, action_name a ∉ ROLE_CHECKED_ACTIONS) actions →
  executePlan actions (with_roles ctx roles) w = executePlan actions ctx w.
Proof.
  intros Hplan. unfold executePlan. generalize (@nil AgentActionResult). revert w.
  induction Hplan as [|a rest Ha _ IH]; intros w results; [done|].
  cbn [executeLoop]. unfold mbind, M_bind, bind.
  rewrite (executeAction_ignores_roles _ _ _ _ _ Ha).
  destruct (executeAction results a ctx w) as [[[results'|e] w1] evs1]; [|done].
  by rewrite IH.
Qed.

Lemma handler_refused (d : ActionDefinition) args ctx (w : World) e (message : string) w' :
  d ∈ ACTION_LIST →
  handler_requests (name d) args ctx = [e] →
  fetchJson (ctx_token ctx) e w = (inl message, w') →
  handler d args ctx w = (Throw message, w', [Request (ctx_token ctx) e]).
Proof.
  intros Hin. revert args. pattern d. revert d Hin.
  apply ACTION_LIST_cases;
    cbn [name handler list_orders_action get_order_details_action list_stage_checklist_action
         create_order_action update_order_priority_action claim_stage_action
         update_stage_checklist_action complete_stage_action flag_stage_exception_action
         approve_stage_skip_action ArgsOf handler_requests]; intros args.
  7:{ destruct (decide (OPERATOR ∈ ctx_roles ctx)) as [Hyes|]; [|done].
      destruct args as [orderId stage [|task [|??]]]; [done| |done].
      intros [= <-] Hf. unfold update_stage_checklist_handler.
      destruct (decide (OPERATOR ∉ ctx_roles ctx)); [done|].
      cbn [uc_orderId uc_stage uc_tasks update_tasks].
      unfold mbind, M_bind, bind. by rewrite (fetch_failed _ _ _ _ _ Hf). }
  all: intros [= <-] Hf;
       unfold list_orders_handler, get_order_details_handler, list_stage_checklist_handler,
         create_order_handler, update_order_priority_handler, claim_stage_handler,
         complete_stage_handler, flag_stage_exception_handler, approve_stage_skip_handler,
         fetchOrders, mbind, M_bind, bind;
       by rewrite (fetch_failed _ _ _ _ _ Hf).
Qed.

(** X8. When the service refuses the request of an action (any action but
    a completion, which the checklist rule precedes), the failure is caught:
    the log gets one error entry named after the planned action with the
    message of the service, and the executor returns. *)
Theorem refused_request_is_logged a ctx (w : World) (d : ActionDefinition)
    (data : ArgsOf (name d)) e (message : string) w' :
  ACTION_MAP !! action_name a = Some d →
  name d ≠ complete_stage →
  safeParse (schema d) (JObject (action_arguments a)) = Success data →
  handler_requests (name d) data ctx = [e] →
  fetchJson (ctx_token ctx) e w = (inl message, w') →
  executePlan [a] ctx w =
    (Return [failed_result a message], w',
     [HandlerCall (name d) data; Request (ctx_token ctx) e]).
Proof.
  intros Hd Hn Hp Hreq Hf. apply executePlan_single.
  rewrite (executeAction_direct _ _ _ _ _ _ Hd Hp Hn), invoke_handler_run.
  apply ACTION_MAP_elem in Hd as [Hin _].
  by rewrite (handler_refused _ _ _ _ _ _ _ Hin Hreq Hf).
Qed.

Lemma handler_result_name (d : ActionDefinition) args ctx (w : World) r w' evs :
  d ∈ ACTION_LIST →
  handler d args ctx w = (Return r, w', evs) →
  result_name r = ActionName_string (name d).
Proof.
  intros Hin. revert args. pattern d. revert d Hin.
  apply ACTION_LIST_cases;
    cbn [name handler list_orders_action get_order_details_action list_stage_checklist_action
         create_order_action update_order_priority_action claim_stage_action
         update_stage_checklist_action complete_stage_action flag_stage_exception_action
         approve_stage_skip_action ArgsOf]; intros args.
  7:{ unfold update_stage_checklist_handler.
      destruct (decide (OPERATOR ∉ ctx_roles ctx)); [by intros [= <- <- <-]|].
      unfold mbind, M_bind, bind.
      destruct (update_tasks _ _ _ None _ w) as [[[last|e] w1] evs1]; [|done].
      by intros [= <- <- <-]. }
  all: unfold list_orders_handler, get_order_details_handler, list_stage_checklist_handler,
         create_order_handler, update_order_priority_handler, claim_stage_handler,
         complete_stage_handler, flag_stage_exception_handler, approve_stage_skip_handler,
         fetchOrders, mbind, M_bind, bind, fetchWithAuthJson;
       destruct (fetchJson _ _ w) as [[e|body] w1]; [done|];
       try destruct (find_stage _ _);
       by intros [= <- <- <-].
Qed.

Lemma ensureChecklist_names d ctx (w : World) gate w' evs :
  ensureChecklistBeforeCompletion d ctx w = (Return gate, w', evs) →
  Forall (λ r, result_name r = "complete_stage" ∨ result_name r = "update_stage_checklist")
         (entries gate).
Proof.
  unfold ensureChecklistBeforeCompletion, try_catch, mbind, M_bind, bind, fetchWithAuthJson.
  destruct (fetchJson _ _ w) as [[e|order] w1].
  { intros [= <- <- <-]. cbn. constructor; [by right|constructor]. }
  cbn [Response] in *.
  destruct (find_stage _ order) as [s|];
    [|intros [= <- <- <-]; cbn; (constructor; [by left|constructor])].
  destruct (decide (length (pending_tasks s) = 0%nat)); [by intros [= <- <- <-]; constructor|].
  destruct (decide (OPERATOR ∉ ctx_roles ctx)).
  { intros [= <- <- <-]. cbn. constructor; [by right|constructor]. }
  rewrite get_action_update, call_handler_run.
  destruct (handler update_stage_checklist_action _ ctx w1) as [[[r|e] w2] evs2] eqn:Hh.
  - pose proof (handler_result_name _ _ _ _ _ _ _ update_action_in_list Hh) as Hr.
    destruct (decide (result_status r ≠ success)); intros [= <- <- <-];
      cbn; (constructor; [by right|constructor]).
  - intros [= <- <- <-]. cbn. constructor; [by right|constructor].
Qed.

Lemma executeAction_names a ctx (w : World) new w' evs :
  executeAction [] a ctx w = (Return new, w', evs) →
  Forall (λ r, result_name r = action_name a ∨ result_name r = "update_stage_checklist") new.
Proof.
  unfold executeAction.
  destruct (ACTION_MAP !! action_name a) as [d|] eqn:Hd;
    [|intros [= <- <- <-]; cbn; (constructor; [by left|constructor])].
  apply ACTION_MAP_elem in Hd as [Hin Hstr].
  destruct (safeParse (schema d) _) as [data|issues];
    [|intros [= <- <- <-]; cbn; (constructor; [by left|constructor])].
  assert (Hinv : ∀ results w new w' evs,
             invoke_handler results a d data ctx w = (Return new, w', evs) →
             ∃ r, new = results ++ [r] ∧ result_name r = action_name a).
  { intros results w0 new0 w0' evs0. rewrite invoke_handler_run.
    destruct (handler d data ctx w0) as [[[r|e] w1] evs1] eqn:Hh; intros [= <- <- <-].
    - exists r. split; [done|]. rewrite <- Hstr. by eapply handler_result_name.
    - by eexists. }
  clear Hin. destruct d as [n desc summ rs sch h]. cbn [name] in *.
  destruct n;
    try (intros (r & -> & Hr)%Hinv; cbn; (constructor; [by left|constructor])).
  destruct (ensureChecklistBeforeCompletion data ctx w) as [[[gate|e] w1] evs1] eqn:Hgate.
  2:{ by rewrite (bind_Throw _ _ _ _ _ _ Hgate). }
  rewrite (bind_Return _ _ _ _ _ _ Hgate).
  pose proof (ensureChecklist_names _ _ _ _ _ _ Hgate) as Hnames.
  assert (Hnames' : Forall (λ r, result_name r = action_name a ∨
                                 result_name r = "update_stage_checklist") (entries gate)).
  { eapply Forall_impl; [exact Hnames|]. intros r [Hr|Hr]; [left|by right].
    by rewrite Hr, <- Hstr. }
  destruct (ready gate); cbn [negb].
  - match goal with |- context [invoke_handler ?r a ?d data ctx w1] =>
      destruct (invoke_handler r a d data ctx w1) as [[[new2|e] w2] evs2] eqn:Hh end;
      [|done].
    apply Hinv in Hh as (r & -> & Hr). intros [= <- <- <-].
    cbn [app]. apply Forall_app. split; [done|]. cbn. constructor; [by left|constructor].
  - intros [= <- <- <-]. exact Hnames'.
Qed.

(** X9. Every entry of the log is named after a planned action, or it is
    named update_stage_checklist, as the entries of the checklist rule
    are: the log never reports an action the plan did not ask for other
    than the implicit checklist update. *)
Theorem log_entries_name_planned_actions actions ctx (w : World) :
  match executePlan actions ctx w with
  | (Return log, _, _) =>
      Forall (λ r, result_name r ∈ "update_stage_checklist" :: (action_name <$> actions)) log
  | (Throw _, _, _) => False
  end.
Proof.
  revert w. induction actions as [|a rest IH]; intros w; [by constructor|].
  destruct (executeAction_frame a ctx w) as (new & w1 & evs1 & Hone).
  specialize (IH w1).
  destruct (executePlan_returns rest ctx w1) as (log & w2 & evs2 & Hrest).
  rewrite Hrest in IH. cbv beta iota in IH.
  rewrite (executePlan_cons _ _ _ _ _ _ _ _ _ _ (Hone []) Hrest). cbv beta iota.
  apply Forall_app. split.
  - eapply Forall_impl; [exact (executeAction_names _ _ _ _ _ _ (Hone []))|].
    intros r [->| ->]; set_solver.
  - eapply Forall_impl; [exact IH|]. intros r Hr. cbn beta in Hr. set_solver.
Qed.

End Executor.

(** ** The checklist rule *)

Section ChecklistRule.
Context {rt : Runtime} {World : Type} {rm : Remote World}.

Lemma complete_stage_handler_run d ctx (w : World) :
  ∃ out w',
    complete_stage_handler d ctx w = (out, w', [completion_request d ctx]) ∧
    match out with
    | Return r => result_name r = "complete_stage" ∧ result_status r = success
    | Throw _ => True
    end.
Proof.
  unfold complete_stage_handler, mbind, M_bind, bind, fetchWithAuthJson, completion_request.
  destruct (fetchJson _ _ w) as [[e|body] w1]; eexists _, _; (split; [reflexivity|done]).
Qed.

(** X10. A completion on a stage with no required task left open goes
    straight to the handler: the order is read, no checklist request is
    sent, the roles of the caller are not looked at, and the log gets the
    one entry of the completion. *)
Theorem completion_without_pending_tasks a ctx (w : World) d o w1 s :
  action_name a = "complete_stage" →
  safeParse CompleteStageSchema (JObject (action_arguments a)) = Success d →
  fetchJson (ctx_token ctx) (GET_order (cs_orderId d)) w = (inr o, w1) →
  find_stage (cs_stage d) o = Some s →
  pending_tasks s = [] →
  ∃ entry w2,
    executePlan [a] ctx w =
      (Return [entry], w2,
       [Request (ctx_token ctx) (GET_order (cs_orderId d));
        HandlerCall complete_stage d;
        completion_request d ctx]) ∧
    result_name entry = "complete_stage".
Proof.
  intros Hname Hparse Hfetch Hstage Hpending.
  assert (Hgate : ensureChecklistBeforeCompletion d ctx w =
                  (Return {| entries := []; ready := true |}, w1,
                   [Request (ctx_token ctx) (GET_order (cs_orderId d))])).
  { unfold ensureChecklistBeforeCompletion, try_catch, mbind, M_bind, bind.
    rewrite (fetch_ok _ _ _ _ _ Hfetch). cbn [Response] in *. rewrite Hstage, Hpending.
    done. }
  destruct (complete_stage_handler_run d ctx w1) as (out & w2 & Hh & Hout).
  pose proof (executeAction_complete_stage [] a ctx w d Hname Hparse) as Hrun.
  rewrite Hgate in Hrun. cbn [ready entries] in Hrun. rewrite Hh in Hrun.
  destruct out as [r|e].
  - exists r, w2. split; [by apply executePlan_single|]. by destruct Hout.
  - exists (failed_result a e), w2. split; [by apply executePlan_single|]. done.
Qed.

(** X11. A completion of a stage the order does not have is refused before
    the handler: the order is read, nothing else is sent, and the log gets
    one error entry named complete_stage. *)
Theorem completion_of_missing_stage a ctx (w : World) d o w1 :
  action_name a = "complete_stage" →
  safeParse CompleteStageSchema (JObject (action_arguments a)) = Success d →
  fetchJson (ctx_token ctx) (GET_order (cs_orderId d)) w = (inr o, w1) →
  find_stage (cs_stage d) o = None →
  executePlan [a] ctx w =
    (Return [stage_not_found_entry d o], w1,
     [Request (ctx_token ctx) (GET_order (cs_orderId d))]).
Proof.
  intros Hname Hparse Hfetch Hstage. apply executePlan_single.
  rewrite (executeAction_complete_stage [] a ctx w d Hname Hparse).
  unfold ensureChecklistBeforeCompletion, try_catch, mbind, M_bind, bind.
  rewrite (fetch_ok _ _ _ _ _ Hfetch). cbn [Response] in *. by rewrite Hstage.
Qed.

(** X12. When the order of a completion cannot be read, the handler is not
    called: the log gets one error entry, named update_stage_checklist,
    with the message of the failed request, and nothing else is sent. *)
Theorem completion_of_unreadable_order a ctx (w : World) d (message : string) w1 :
  action_name a = "complete_stage" →
  safeParse CompleteStageSchema (JObject (action_arguments a)) = Success d →
  fetchJson (ctx_token ctx) (GET_order (cs_orderId d)) w = (inl message, w1) →
  executePlan [a] ctx w =
    (Return [checklist_failed_entry message], w1,
     [Request (ctx_token ctx) (GET_order (cs_orderId d))]).
Proof.
  intros Hname Hparse Hfetch. apply executePlan_single.
  rewrite (executeAction_complete_stage [] a ctx w d Hname Hparse).
  unfold ensureChecklistBeforeCompletion, try_catch, mbind, M_bind, bind.
  rewrite (fetch_failed _ _ _ _ _ Hfetch). cbn. done.
Qed.

End ChecklistRule.

(** ** The schemas *)

Section Schemas.
Context {rt : Runtime} {World : Type} {rm : Remote World}.

Lemma omap_nil_Forall {A B} (f : A → option B) l :
  omap f l = [] ↔ Forall (λ x, f x = None) l.
Proof.
  induction l as [|x l IH]; cbn; [by split; [constructor|]|].
  destruct (f x) eqn:Hx; cbn.
  - split; [done|]. intros H. apply Forall_cons in H as [H _]. congruence.
  - rewrite IH. split; [by constructor|]. by intros [_ ?]%Forall_cons.
Qed.

Lemma z_int_iff cs path v z :
  z_int cs path v = Success z ↔
  v = Some (JInt z) ∧ Forall (λ c, check_number (Integer z) c = None) cs.
Proof.
  rewrite <- omap_nil_Forall. unfold z_int, JInt. split.
  - destruct v as [[| |[z'|]| | |]|]; try done.
    destruct (omap _ cs) eqn:Hc; intros; by simplify_eq.
  - intros [-> ->]. done.
Qed.

Lemma z_string_iff cs path v s :
  z_string cs path v = Success s ↔
  v = Some (JString s) ∧ Forall (λ c, check_string s c = None) cs.
Proof.
  rewrite <- omap_nil_Forall. unfold z_string. split.
  - destruct v as [[| | |s'| |]|]; try done.
    destruct (omap _ cs) eqn:Hc; intros; by simplify_eq.
  - intros [-> ->]. done.
Qed.

Lemma z_stage_iff path v a : z_stage path v = Success a ↔ v = Some (JStage a).
Proof.
  split; [apply z_enum_Success|]. intros ->. by destruct a.
Qed.

Lemma z_state_iff path v a : z_state path v = Success a ↔ v = Some (JState a).
Proof.
  split; [apply z_enum_Success|]. intros ->. by destruct a.
Qed.

Lemma positive_iff z : Forall (λ c, check_number (Integer z) c = None) [gt_zero] ↔ 0 < z.
Proof.
  rewrite Forall_singleton. cbn. destruct (Z.ltb_spec 0 z); split; (done || lia).
Qed.

Lemma between_iff lo hi z :
  Forall (λ c, check_number (Integer z) c = None) [at_least lo; at_most hi] ↔ between lo hi z.
Proof.
  rewrite Forall_cons, Forall_singleton. unfold between. cbn.
  destruct (Z.leb_spec lo z), (Z.leb_spec z hi); split; try done; try lia; intros [??]; done.
Qed.

Lemma length_between_iff lo hi s :
  Forall (λ c, check_string s c = None) [min_length lo; max_length hi] ↔ length_between lo hi s.
Proof.
  rewrite Forall_cons, Forall_singleton. unfold length_between. cbn.
  destruct (Nat.leb_spec lo (String.length s)), (Nat.leb_spec (String.length s) hi);
    split; try done; try lia; intros [??]; done.
Qed.

Lemma length_at_most_iff hi s :
  Forall (λ c, check_string s c = None) [max_length hi] ↔ length_between 0 hi s.
Proof.
  rewrite Forall_singleton. unfold length_between. cbn.
  destruct (Nat.leb_spec (String.length s) hi); split; try done; lia.
Qed.

Lemma length_at_least_iff lo s :
  Forall (λ c, check_string s c = None) [min_length lo] ↔ (lo ≤ String.length s)%nat.
Proof.
  rewrite Forall_singleton. cbn.
  destruct (Nat.leb_spec lo (String.length s)); split; try done; lia.
Qed.

Lemma optional_iff {A} (t : ZodType A) path v o :
  optional t path v = Success o ↔
  match o with
  | None => v = None
  | Some a => is_Some v ∧ t path v = Success a
  end.
Proof.
  unfold optional. destruct v as [x|], o as [a|]; cbn.
  - split.
    + intros (a' & Ha & [= ->])%map_parse_Success. split; [by eexists|done].
    + intros [_ ->]. done.
  - split; [|done]. by intros (a' & Ha & ?)%map_parse_Success.
  - split; [done|]. by intros [[??] _].
  - done.
Qed.

Lemma parse_items_sound {A} (t : ZodType A) (P : A → Prop) :
  (∀ p x a, t p (Some x) = Success a → P a) →
  ∀ items path i l, parse_items t path i items = Success l →
                    Forall P l ∧ length l = length items.
Proof.
  intros Ht. induction items as [|x items IH]; intros path i l; cbn.
  - intros [= <-]. by split; [constructor|].
  - intros (g & l' & Hg & Hl' & ->)%ap_parse_Success.
    apply map_parse_Success in Hg as (a & Ha & ->).
    apply Ht in Ha. apply IH in Hl' as [Hl' Hlen].
    split; [by constructor|]. cbn. by rewrite Hlen.
Qed.

Lemma parse_items_complete {A} (t : ZodType A) (view : A → JSON) (P : A → Prop) :
  (∀ p a, P a → t p (Some (view a)) = Success a) →
  ∀ l path i, Forall P l → parse_items t path i (view <$> l) = Success l.
Proof.
  intros Ht. induction l as [|a l IH]; intros path i Hl; cbn; [done|].
  apply Forall_cons in Hl as [Ha Hl]. by rewrite (Ht _ _ Ha), (IH _ _ Hl).
Qed.

Lemma z_array_min_sound {A} (t : ZodType A) (P : A → Prop) n path v l :
  (∀ p x a, t p (Some x) = Success a → P a) →
  z_array_min t n path v = Success l → (n ≤ length l)%nat ∧ Forall P l.
Proof.
  intros Ht. unfold z_array_min. destruct v as [[| | | |items|]|]; try done.
  intros (g & l' & Hg & Hl' & ->)%ap_parse_Success.
  apply map_parse_Success in Hg as (u & Hu & ->).
  apply (parse_items_sound t P Ht) in Hl' as [Hl' Hlen].
  destruct (Nat.leb_spec n (length items)); [|done]. split; [lia|done].
Qed.

Lemma z_array_min_complete {A} (t : ZodType A) (view : A → JSON) (P : A → Prop) n path l :
  (∀ p a, P a → t p (Some (view a)) = Success a) →
  (n ≤ length l)%nat → Forall P l →
  z_array_min t n path (Some (JArray (view <$> l))) = Success l.
Proof.
  intros Ht Hn Hl. unfold z_array_min. rewrite length_fmap.
  rewrite (proj2 (Nat.leb_le _ _) Hn).
  by rewrite (parse_items_complete t view P Ht _ _ _ Hl).
Qed.

Ltac eval_props :=
  unfold prop; cbn [get_prop]; repeat (case_decide; try done).

Lemma TaskUpdateSchema_sound p x a :
  TaskUpdateSchema p (Some x) = Success a → (1 ≤ String.length (taskId a))%nat.
Proof.
  unfold TaskUpdateSchema, z_object, prop. destruct x as [| | | | |o]; try done.
  intros (g & b & Hg & Hb & ->)%ap_parse_Success.
  apply map_parse_Success in Hg as (s & Hs & ->).
  by apply z_string_iff in Hs as [_ Hs%length_at_least_iff].
Qed.

Lemma TaskUpdateSchema_complete p a :
  (1 ≤ String.length (taskId a))%nat → TaskUpdateSchema p (Some (JTask a)) = Success a.
Proof.
  intros Ha. destruct a as [id done_]. unfold TaskUpdateSchema, z_object, JTask. eval_props.
  rewrite (proj2 (z_string_iff _ _ _ _) (conj eq_refl (proj2 (length_at_least_iff _ _) Ha))).
  done.
Qed.

Lemma z_states_complete path l :
  z_array z_state path (Some (JArray (JState <$> l))) = Success l.
Proof.
  apply (z_array_min_complete z_state JState (λ _, True)).
  - intros p a _. by apply z_state_iff.
  - lia.
  - by apply Forall_forall.
Qed.

Lemma z_orderId_ok p z : 0 < z → z_orderId p (Some (JInt z)) = Success z.
Proof. intros Hz. apply z_int_iff. split; [done|by apply positive_iff]. Qed.

Lemma z_int_between_ok lo hi p z :
  between lo hi z → z_int [at_least lo; at_most hi] p (Some (JInt z)) = Success z.
Proof. intros Hz. apply z_int_iff. split; [done|by apply between_iff]. Qed.

Lemma z_string_between_ok lo hi p s :
  length_between lo hi s →
  z_string [min_length lo; max_length hi] p (Some (JString s)) = Success s.
Proof. intros Hs. apply z_string_iff. split; [done|by apply length_between_iff]. Qed.

Lemma z_string_at_most_ok hi p s :
  length_between 0 hi s → z_string [max_length hi] p (Some (JString s)) = Success s.
Proof. intros Hs. apply z_string_iff. split; [done|by apply length_at_most_iff]. Qed.

Lemma z_tasks_ok p tasks :
  (1 ≤ length tasks)%nat →
  Forall (λ task, (1 ≤ String.length (taskId task))%nat) tasks →
  z_array_min TaskUpdateSchema 1 p (Some (JArray (JTask <$> tasks))) = Success tasks.
Proof.
  intros Hn Htasks.
  apply (z_array_min_complete TaskUpdateSchema JTask
           (λ task, (1 ≤ String.length (taskId task))%nat)); [|done|done].
  intros p' a. apply TaskUpdateSchema_complete.
Qed.

Ltac invert_fields :=
  repeat match goal with
  | H : _ <**> _ = Success _ |- _ =>
      apply ap_parse_Success in H as (? & ? & ? & ? & ?)
  | H : _ <$$> _ = Success _ |- _ =>
      apply map_parse_Success in H as (? & ? & ?)
  | H : prop _ _ _ _ = Success _ |- _ => unfold prop in H
  | H : z_orderId _ _ = Success _ |- _ => apply z_int_iff in H as [_ H%positive_iff]
  | H : z_int [at_least _; at_most _] _ _ = Success _ |- _ =>
      apply z_int_iff in H as [_ H%between_iff]
  | H : z_string [min_length _; max_length _] _ _ = Success _ |- _ =>
      apply z_string_iff in H as [_ H%length_between_iff]
  | H : z_string [max_length _] _ _ = Success _ |- _ =>
      apply z_string_iff in H as [_ H%length_at_most_iff]
  | H : optional _ _ _ = Success ?o |- _ =>
      apply optional_iff in H; destruct o; [destruct H as [_ H]|clear H]
  | H : z_array_min TaskUpdateSchema _ _ _ = Success _ |- _ =>
      apply (z_array_min_sound _ (λ task, (1 ≤ String.length (taskId task))%nat)) in H as [? ?];
      [|exact TaskUpdateSchema_sound]
  | H : z_stage _ _ = Success _ |- _ => clear H
  | H : z_array z_state _ _ = Success _ |- _ => clear H
  end; subst.

(** What the schema of an action accepts is within the bounds of the
    schema. *)
Lemma schema_sound (d : ActionDefinition) v (data : ArgsOf (name d)) :
  d ∈ ACTION_LIST →
  safeParse (schema d) v = Success data →
  in_range (name d) data.
Proof.
  intros Hin. revert data. pattern d. revert d Hin.
  apply ACTION_LIST_cases;
    cbn [name schema list_orders_action get_order_details_action list_stage_checklist_action
         create_order_action update_order_priority_action claim_stage_action
         update_stage_checklist_action complete_stage_action flag_stage_exception_action
         approve_stage_skip_action ArgsOf];
    unfold safeParse, ListOrdersSchema, GetOrderDetailsSchema, ListChecklistSchema,
      CreateOrderSchema, UpdatePrioritySchema, ClaimStageSchema, UpdateChecklistSchema,
      CompleteStageSchema, FlagExceptionSchema, ApproveSkipSchema, z_object;
    intros data Hp; destruct v as [| | | | |o]; try done;
    invert_fields; cbn; unfold if_given; cbn; done.
Qed.

(** The data within the bounds of the schema of an action, written as a
    JSON object, are accepted by the schema and read back as they are. *)
Lemma schema_complete (d : ActionDefinition) (data : ArgsOf (name d)) :
  d ∈ ACTION_LIST →
  in_range (name d) data →
  safeParse (schema d) (JObject (to_json (name d) data)) = Success data.
Proof.
  intros Hin. revert data. pattern d. revert d Hin.
  apply ACTION_LIST_cases;
    cbn [name schema list_orders_action get_order_details_action list_stage_checklist_action
         create_order_action update_order_priority_action claim_stage_action
         update_stage_checklist_action complete_stage_action flag_stage_exception_action
         approve_stage_skip_action ArgsOf];
    unfold safeParse, ListOrdersSchema, GetOrderDetailsSchema, ListChecklistSchema,
      CreateOrderSchema, UpdatePrioritySchema, ClaimStageSchema, UpdateChecklistSchema,
      CompleteStageSchema, FlagExceptionSchema, ApproveSkipSchema, z_object;
    intros data Hr; cbn in Hr; unfold if_given in Hr.
  all: cbn [to_json];
    repeat match goal with
    | |- context [opt_prop _ _ ?o] => destruct o eqn:?; cbn [opt_prop]; cbn in Hr
    end;
    cbn [opt_prop app]; eval_props; destruct_and?; unfold optional;
    rewrite ?(proj2 (z_stage_iff _ _ _) eq_refl), ?z_states_complete,
      ?z_orderId_ok, ?z_int_between_ok, ?z_string_between_ok, ?z_string_at_most_ok,
      ?z_tasks_ok by assumption;
    destruct data; cbn in *; by subst.
Qed.

(** X13. Data that pass the schema of an action are within its bounds: a
    positive order id, a priority from 0 to 999, a limit from 1 to 25, a
    service time from 1 to 600 minutes, texts of the lengths allowed, at
    least one task and no task with an empty id. *)
Theorem validated_arguments_in_range (d : ActionDefinition) v (data : ArgsOf (name d)) :
  d ∈ ACTION_LIST →
  safeParse (schema d) v = Success data →
  in_range (name d) data.
Proof. apply schema_sound. Qed.

(** X14. Validation is idempotent on valid data: data within the bounds of
    the schema of an action, written as a JSON object with the optional
    properties that are not given left out, pass the schema and are read
    back unchanged. *)
Theorem schema_round_trip (d : ActionDefinition) (data : ArgsOf (name d)) :
  d ∈ ACTION_LIST →
  in_range (name d) data →
  safeParse (schema d) (JObject (to_json (name d) data)) = Success data.
Proof. apply schema_complete. Qed.

(** X15. The outcome of the validation, success or issues, depends only on
    the properties the schema names: the other properties of the argument
    bag are not read. *)
Theorem schema_reads_named_properties_only (d : ActionDefinition) bag bag' :
  d ∈ ACTION_LIST →
  (∀ k, k ∈ shape_keys (name d) → get_prop k bag = get_prop k bag') →
  safeParse (schema d) (JObject bag) = safeParse (schema d) (JObject bag').
Proof.
  intros Hin. pattern d. revert d Hin.
  apply ACTION_LIST_cases;
    cbn [name schema list_orders_action get_order_details_action list_stage_checklist_action
         create_order_action update_order_priority_action claim_stage_action
         update_stage_checklist_action complete_stage_action flag_stage_exception_action
         approve_stage_skip_action shape_keys];
    unfold safeParse, ListOrdersSchema, GetOrderDetailsSchema, ListChecklistSchema,
      CreateOrderSchema, UpdatePrioritySchema, ClaimStageSchema, UpdateChecklistSchema,
      CompleteStageSchema, FlagExceptionSchema, ApproveSkipSchema, z_object, prop;
    intros Hk; rewrite !Hk by set_solver; reflexivity.
Qed.

(** X16. The arguments of the implicit checklist update are built by the
    checklist rule and not validated; they would pass the schema of the
    checklist update exactly when no pending task has an empty id. *)
Theorem implicit_update_and_schema (d : CompleteStageArgs) (pending : list ChecklistItem) :
  0 < cs_orderId d →
  pending ≠ [] →
  safeParse UpdateChecklistSchema
    (JObject (to_json update_stage_checklist (implicit_update d pending)))
    = Success (implicit_update d pending)
  ↔ Forall (λ task, item_id task ≠ "") pending.
Proof.
  intros Hid Hpending. split.
  - intros Hp.
    pose proof (schema_sound update_stage_checklist_action _ _ update_action_in_list Hp)
      as (_ & _ & Htasks).
    cbn in Htasks. unfold mark_complete in Htasks. rewrite Forall_fmap in Htasks.
    eapply Forall_impl; [exact Htasks|]. intros task Ht Hempty. cbn in Ht.
    rewrite Hempty in Ht. cbn in Ht. lia.
  - intros Hids.
    apply (schema_complete update_stage_checklist_action _ update_action_in_list).
    cbn. split; [done|]. split.
    + unfold mark_complete. rewrite length_fmap. destruct pending; [done|cbn; lia].
    + unfold mark_complete. rewrite Forall_fmap.
      eapply Forall_impl; [exact Hids|]. intros task Ht. cbn in *.
      destruct (item_id task); [by destruct Ht|cbn; lia].
Qed.

End Schemas.

(** ** The catalogue and the plan *)

Section Catalogue.
Context {rt : Runtime} {World : Type} {rm : Remote World}.

Lemma foldl_insert_notin {V} (entries : list (string * V)) k (m : gmap string V) :
  k ∉ entries.*1 → foldl (λ m kv, <[kv.1 := kv.2]> m) m entries !! k = m !! k.
Proof.
  revert m. induction entries as [|[k' v'] entries IH]; intros m Hk; cbn; [done|].
  cbn in Hk. apply not_elem_of_cons in Hk as [Hne Hk].
  rewrite IH by done. by rewrite lookup_insert_ne.
Qed.

(** [new Map(entries)] on entries with distinct keys has each of them. *)
Lemma new_Map_lookup_NoDup {V} (entries : list (string * V)) k v :
  NoDup entries.*1 → (k, v) ∈ entries → new_Map entries !! k = Some v.
Proof.
  unfold new_Map. generalize (∅ : gmap string V).
  induction entries as [|[k' v'] entries IH]; intros m Hnd Hin; cbn.
  - by apply elem_of_nil in Hin.
  - cbn in Hnd. apply NoDup_cons in Hnd as [Hk' Hnd].
    apply elem_of_cons in Hin as [[= -> ->]|Hin].
    + rewrite foldl_insert_notin by done. by rewrite lookup_insert_eq.
    + by apply IH.
Qed.

Lemma ACTION_LIST_keys :
  ((λ action, (ActionName_string (name action), action)) <$> ACTION_LIST).*1
  = ActionName_string <$> ACTION_NAMES.
Proof. reflexivity. Qed.

Lemma ACTION_LIST_lookup (d : ActionDefinition) :
  d ∈ ACTION_LIST → ACTION_MAP !! ActionName_string (name d) = Some d.
Proof.
  intros Hin. apply new_Map_lookup_NoDup.
  - rewrite ACTION_LIST_keys.
    apply (bool_decide_unpack (NoDup (ActionName_string <$> ACTION_NAMES))). by vm_compute.
  - apply list_elem_of_fmap. by exists d.
Qed.

Lemma ACTION_MAP_names n : ∃ d, ACTION_MAP !! ActionName_string n = Some d ∧ name d = n.
Proof.
  assert (H : ∃ d, d ∈ ACTION_LIST ∧ name d = n).
  { unfold ACTION_LIST, ACTION_DEFINITIONS.
    destruct n;
      [ exists list_orders_action | exists get_order_details_action
      | exists list_stage_checklist_action | exists create_order_action
      | exists update_order_priority_action | exists claim_stage_action
      | exists update_stage_checklist_action | exists complete_stage_action
      | exists flag_stage_exception_action | exists approve_stage_skip_action ];
      (split; [set_solver|reflexivity]). }
  destruct H as (d & Hin & <-). exists d. split; [by apply ACTION_LIST_lookup|done].
Qed.

(** X17. The catalogue has exactly one definition under each of the ten
    action names, the one that carries that name: a lookup by a string
    succeeds exactly for the name of a definition of the list and gives
    that definition. *)
Theorem catalogue_lookup s (d : ActionDefinition) :
  ACTION_MAP !! s = Some d ↔ d ∈ ACTION_LIST ∧ ActionName_string (name d) = s.
Proof.
  split; [apply ACTION_MAP_elem|].
  intros [Hin <-]. by apply ACTION_LIST_lookup.
Qed.

Lemma PlanActionSchema_sound p x a :
  PlanActionSchema p (Some x) = Success a → is_Some (ACTION_MAP !! action_name a).
Proof.
  unfold PlanActionSchema, z_object, prop. destruct x as [| | | | |o]; try done.
  intros (g & args & Hg & _ & ->)%ap_parse_Success.
  apply ap_parse_Success in Hg as (g' & rationale & Hg' & _ & ->).
  apply map_parse_Success in Hg' as (s & Hs & ->).
  unfold z_action_name in Hs. apply map_parse_Success in Hs as (n & _ & ->).
  cbn [action_name]. destruct (ACTION_MAP_names n) as (d & Hd & _). rewrite Hd. by eexists.
Qed.

Lemma PlanSchema_sound v plan :
  safeParse PlanSchema v = Success plan →
  Forall (λ a, is_Some (ACTION_MAP !! action_name a)) (plan_actions plan).
Proof.
  unfold safeParse, PlanSchema, z_object, prop. destruct v as [| | | | |o]; try done.
  intros (g & actions & Hg & Hactions & ->)%ap_parse_Success.
  apply ap_parse_Success in Hg as (g2 & notes & Hg2 & _ & ->).
  apply ap_parse_Success in Hg2 as (g3 & reasoning & Hg3 & _ & ->).
  apply map_parse_Success in Hg3 as (intent & _ & ->).
  cbn [plan_actions].
  unfold with_default, z_array in Hactions. destruct (get_prop "actions" o) as [x|].
  - apply (z_array_min_sound PlanActionSchema
             (λ a, is_Some (ACTION_MAP !! action_name a))) in Hactions as [_ Hall];
      [exact Hall|exact PlanActionSchema_sound].
  - injection Hactions as <-. constructor.
Qed.

(** X18. A plan the generator returns has passed the plan schema: every
    action of it carries one of the ten names of the catalogue (whether or
    not the action was among those offered to the model), so that the
    executor finds a definition for each; and the generator has called the
    model once and sent nothing else. *)
Theorem generated_plan_is_catalogued question contextSummary allowedActions profile
    (w : World) plan w' evs :
  generatePlan question contextSummary allowedActions profile w = (Return plan, w', evs) →
  Forall (λ a, is_Some (ACTION_MAP !! action_name a)) (plan_actions plan) ∧
  evs = [ModelCall (plan_messages question contextSummary allowedActions profile)].
Proof.
  unfold generatePlan, mbind, M_bind, bind, model_invoke.
  destruct (invoke _ w) as [[e|response] w1]; [done|].
  destruct (extractJson _) as [planJson|]; [|done].
  destruct (decide (planJson = "")); [done|].
  destruct (JSON_parse planJson) as [e|value]; [done|].
  destruct (safeParse PlanSchema value) as [plan'|issues] eqn:Hp; [|done].
  intros [= <- <- <-]. split; [by eapply PlanSchema_sound|done].
Qed.

End Catalogue.

(** ** The handlers, one by one *)

Section HandlerResults.
Context {rt : Runtime} {World : Type} {rm : Remote World}.

(** X19. The requests of an action are determined by its validated data and
    by the caller: every action sends one request, the checklist update one
    per task for an operator and none otherwise, all with the token of the
    caller. A handler that throws has sent a part of them, the failed
    request last. *)
Theorem action_requests_are_determined (d : ActionDefinition) args ctx (w : World) :
  d ∈ ACTION_LIST →
  match handler d args ctx w with
  | (Return _, _, evs) =>
      evs = Request (ctx_token ctx) <$> handler_requests (name d) args ctx
  | (Throw _, _, evs) =>
      ∃ sent, sent ≠ [] ∧ sent `prefix_of` handler_requests (name d) args ctx ∧
              evs = Request (ctx_token ctx) <$> sent
  end.
Proof.
  intros Hin. destruct (handler d args ctx w) as [[[r|e] w'] evs] eqn:Hh;
    destruct (handler_events _ _ _ _ _ _ _ Hin Hh) as (sent & -> & Hpre & Hout).
  - by rewrite Hout.
  - by exists sent.
Qed.

(** X20. The order list, for validated arguments: the orders returned are
    orders of the service in the order of the service, at most [limit] of
    them, at most ten when no limit is given; with a stage filter they all
    are at that stage, with a non-empty state filter they all are in one of
    the states. *)
Theorem list_orders_filters_and_limits args ctx (w : World) (orders : list OrderResponse) w1 :
  in_range list_orders args →
  fetchJson (ctx_token ctx) GET_orders w = (inr orders, w1) →
  ∃ r shown,
    list_orders_handler args ctx w = (Return r, w1, [Request (ctx_token ctx) GET_orders]) ∧
    result_status r = success ∧
    result_data r = Some (DataOrders shown) ∧
    shown `sublist_of` orders ∧
    (length shown ≤ Z.to_nat (default 10%Z (lo_limit args)))%nat ∧
    (∀ stage, lo_stage args = Some stage →
       Forall (λ o, order_currentStage o = StageType_string stage) shown) ∧
    (∀ states, lo_states args = Some states → states ≠ [] →
       Forall (λ o, order_overallState o ∈ StageState_string <$> states) shown).
Proof.
  intros _ Hfetch. unfold list_orders_handler, fetchOrders, mbind, M_bind, bind.
  rewrite (fetch_ok _ _ _ _ _ Hfetch). cbn [Response] in *.
  set (by_stage := match lo_stage args with
                   | Some stage =>
                       filter (λ order, order_currentStage order = StageType_string stage) orders
                   | None => orders
                   end).
  set (filtered := match lo_states args with
                   | Some states =>
                       if decide (length states = 0%nat) then by_stage
                       else filter (λ order, order_overallState order
                                             ∈ StageState_string <$> states) by_stage
                   | None => by_stage
                   end).
  set (limit := default (Z.min (Z.of_nat (length filtered)) 10) (lo_limit args)).
  assert (H1 : by_stage `sublist_of` orders).
  { subst by_stage. destruct (lo_stage args); [apply sublist_filter|done]. }
  assert (H2 : filtered `sublist_of` by_stage).
  { subst filtered. destruct (lo_states args); [|done].
    destruct (decide _); [done|apply sublist_filter]. }
  eexists _, (take (Z.to_nat limit) filtered). split; [reflexivity|].
  split; [done|]. split; [done|]. split.
  { etrans; [apply sublist_take|]. by etrans. }
  split.
  { rewrite length_take. subst limit. destruct (lo_limit args); cbn; lia. }
  split.
  - intros stage Hstage. apply Forall_take.
    eapply (Forall_impl (λ o, o ∈ by_stage)).
    + apply Forall_forall. intros o Ho. eapply sublist_subseteq; eauto.
    + subst by_stage. rewrite Hstage. by intros o [? _]%list_elem_of_filter.
  - intros states Hstates Hne. apply Forall_take. subst filtered. rewrite Hstates.
    destruct (decide (length states = 0%nat)) as [Hlen|_].
    { by apply length_zero_iff_nil in Hlen. }
    apply Forall_forall. by intros o [? _]%list_elem_of_filter.
Qed.

(** X21. For an operator, when the checklist update returns, it has sent the
    requests of all its tasks, in order; its result is a success and
    carries the answer of the service to the last request. *)
Theorem checklist_update_success args ctx (w : World) r w' evs :
  OPERATOR ∈ ctx_roles ctx →
  update_stage_checklist_handler args ctx w = (Return r, w', evs) →
  result_status r = success ∧
  evs = checklist_requests (ctx_token ctx) (uc_orderId args) (uc_stage args) (uc_tasks args) ∧
  ∀ init task, uc_tasks args = init ++ [task] →
    ∃ w0 status,
      fetchJson (ctx_token ctx)
        (PATCH_checklist (uc_orderId args) (uc_stage args) (taskId task) (completed task)) w0
        = (inr status, w') ∧
      result_data r = Some (DataStage (Some status)).
Proof.
  intros Hrole. unfold update_stage_checklist_handler.
  destruct (decide (OPERATOR ∉ ctx_roles ctx)); [done|].
  unfold mbind, M_bind, bind.
  destruct (update_tasks _ _ _ None _ w) as [[[last|e] w1] evs1] eqn:Hu; [|done].
  intros [= <- <- <-].
  destruct (update_tasks_requests _ _ _ _ _ _ _ _ _ Hu) as (sent & -> & _ & ->).
  split; [done|]. split; [by rewrite app_nil_r|].
  intros init task Htasks. rewrite Htasks, update_tasks_app in Hu.
  destruct (update_tasks _ _ _ None init w) as [[[last0|e] w0] evs0]; [|done].
  cbn [update_tasks] in Hu. unfold mbind, M_bind, bind, fetchWithAuthJson in Hu.
  destruct (fetchJson _ _ w0) as [[e|status] w2] eqn:Hf; [done|].
  cbn [Response] in *. injection Hu as <- <- _.
  by exists w0, status.
Qed.

End HandlerResults.

(** ** The entry point *)

Section EntryPoint.
Context {rt : Runtime} {World : Type} {rm : Remote World}.

Lemma white_space_only_rev_app s1 s2 :
  white_space_only (String.rev_app s1 s2) = white_space_only s1 && white_space_only s2.
Proof.
  revert s2. induction s1 as [|c s1 IH]; intros s2; cbn; [done|].
  rewrite IH. cbn. destruct (JsString.is_white_space c), (white_space_only s1); done.
Qed.

Lemma white_space_only_rev s : white_space_only (String.rev s) = white_space_only s.
Proof. unfold String.rev. rewrite white_space_only_rev_app. cbn. by rewrite andb_true_r. Qed.

Lemma rev_app_empty s1 s2 : String.rev_app s1 s2 = "" → s1 = "" ∧ s2 = "".
Proof.
  revert s2. induction s1 as [|c s1 IH]; intros s2; cbn; [done|].
  intros [_ [=]]%IH.
Qed.

Lemma trimStart_empty s : JsString.trimStart s = "" ↔ white_space_only s = true.
Proof.
  induction s as [|c s IH]; cbn; [done|].
  destruct (JsString.is_white_space c); cbn; [done|]. split; [done|done].
Qed.

(** A text is trimmed to nothing exactly when it is blank. *)
Lemma trim_empty s : JsString.trim s = "" ↔ white_space_only s = true.
Proof.
  unfold JsString.trim, JsString.trimEnd. split.
  - intros H. unfold String.rev in H at 1. apply rev_app_empty in H as [H _].
    apply trimStart_empty in H. rewrite white_space_only_rev in H.
    revert H. clear. induction s as [|c s IH]; cbn; [done|].
    destruct (JsString.is_white_space c) eqn:Hc; cbn; [done|].
    rewrite Hc. done.
  - intros H. apply trimStart_empty in H. rewrite H. done.
Qed.

(** The reading of the question, case by case: a [TypeError] exactly on
    the bodies that do not have the type the route reads them at; nothing,
    or an empty text, exactly when the question is missing or blank. *)
Lemma trimmed_question_cases payload :
  match trimmed_question payload with
  | type_error _ => ill_typed payload ∧ ¬ no_question payload
  | undefined => ¬ ill_typed payload ∧ no_question payload
  | trimmed q =>
      ¬ ill_typed payload ∧ (q = "" ↔ no_question payload) ∧
      truthy (JsString.trim <$> question payload) = truthy (Some q)
  end.
Proof.
  unfold trimmed_question, ill_typed, no_question, question, question_value.
  destruct payload as [| | | | |props];
    try (split; [by intros [?|(? & ? & ?)]|done]).
  { split; [by left|]. by intros [? _]. }
  destruct (get_prop "question" props) as [[| | |s| |]|];
    try (split; [right; eexists; by split_and!|by intros [_ ?]]);
    try (split; [intros [?|(? & ? & ? & ?)]; by simplify_eq|done]).
  split_and!.
  - intros [?|(? & ? & _ & Hs)]; [done|]. simplify_eq. by destruct (Hs s).
  - rewrite trim_empty. naive_solver.
  - done.
Qed.

Lemma token_None payload : token payload = None ↔ no_token payload.
Proof.
  unfold token, no_token. destruct payload as [| | | | |props]; try done.
  destruct (get_prop "token" props) as [v|]; cbn; [|done].
  destruct (is_truthy v); split; done.
Qed.

(** The course of the entry point once the question and the token are
    there, after the digest of the orders was built. *)
Lemma answer_request_run q tok (w : World) context w1 :
  buildWorkflowContext tok w = (Return context, w1, [Request tok GET_orders]) →
  answer_request q tok w =
  match fetchJson tok GET_auth_me w1 with
  | (inl message, w2) =>
      (Return (json (MessageBody message) 502), w2,
       [Request tok GET_orders; Request tok GET_auth_me])
  | (inr profile, w2) =>
      let allowed := allowed_actions (normalizeRoles (profile_roles profile)) in
      let planned :=
        if decide (allowed = []) then (Return (None, []), w2, [])
        else
          match generatePlan (JsString.slice q 0 4000) (summary context) allowed profile w2 with
          | (Return plan, w3, evs3) =>
              match executePlan (plan_actions plan) (caller tok profile) w3 with
              | (Return log, w4, evs4) => (Return (Some plan, log), w4, evs3 ++ evs4)
              | (Throw message, w4, evs4) => (Throw message, w4, evs3 ++ evs4)
              end
          | (Throw message, w3, evs3) => (Throw message, w3, evs3)
          end in
      match planned with
      | (Return (plan, log), w4, evs) =>
          let messages :=
            answer_messages (JsString.slice q 0 4000) (summary context) plan log in
          match invoke messages w4 with
          | (inr r, w5) =>
              (Return (json (AnswerBody (normalizeContent (response_content r))
                                        (default OLLAMA_MODEL (response_metadata_model r))
                                        (context_error context)) 200), w5,
               [Request tok GET_orders; Request tok GET_auth_me] ++ evs ++ [ModelCall messages])
          | (inl message, w5) =>
              (Return (json (MessageBody message) 502), w5,
               [Request tok GET_orders; Request tok GET_auth_me] ++ evs ++ [ModelCall messages])
          end
      | (Throw message, w4, evs) =>
          (Return (json (MessageBody message) 502), w4,
           [Request tok GET_orders; Request tok GET_auth_me] ++ evs)
      end
  end.
Proof.
  intros Hcontext. unfold answer_request.
  remember (JsString.slice q 0 4000) as q' eqn:Hq'.
  unfold try_catch, mbind, M_bind, bind. rewrite Hcontext.
  unfold fetchUserProfile, fetchWithAuthJson.
  destruct (fetchJson tok GET_auth_me w1) as [[message|profile] w2]; [done|].
  cbn [Response] in *. cbv zeta.
  set (allowed := allowed_actions (normalizeRoles (profile_roles profile))).
  assert (Hfinal : ∀ plan log w4,
    buildFinalAnswer q' (summary context) plan log w4 =
    match invoke (answer_messages q' (summary context) plan log) w4 with
    | (inr r, w5) =>
        (Return {| answer := normalizeContent (response_content r);
                   model := default OLLAMA_MODEL (response_metadata_model r) |}, w5,
         [ModelCall (answer_messages q' (summary context) plan log)])
    | (inl message, w5) =>
        (Throw message, w5, [ModelCall (answer_messages q' (summary context) plan log)])
    end).
  { intros plan log w4. unfold buildFinalAnswer, mbind, M_bind, bind, model_invoke.
    destruct (invoke _ w4) as [[message|r] w5]; [done|]. cbn. done. }
  destruct (decide (allowed = [])) as [Hnone|Hsome].
  - rewrite Hnone. cbn [length]. rewrite decide_False by lia.
    cbn [fst snd mret M_ret ret]. rewrite Hfinal.
    destruct (invoke _ w2) as [[message|r] w5]; cbn. all: reflexivity.
  - rewrite decide_True by (destruct allowed; [done|cbn; lia]).
    destruct (generatePlan q' (summary context) allowed profile w2)
      as [[[plan|message] w3] evs3]; [|cbn; by rewrite ?app_nil_r].
    fold (caller tok profile).
    destruct (executePlan_returns (plan_actions plan) (caller tok profile) w3)
      as (log & w4 & evs4 & Hexec).
    rewrite Hexec.
    destruct (decide (0 < length (plan_actions plan))%nat) as [Hlen|Hlen].
    + rewrite Hexec. cbn [fst snd mret M_ret ret]. rewrite Hfinal.
      destruct (invoke _ w4) as [[message|r] w5]; cbn;
        rewrite ?app_nil_r, <- ?app_assoc; reflexivity.
    + assert (Hnil : plan_actions plan = []).
      { destruct (plan_actions plan); [done|cbn in Hlen; lia]. }
      rewrite Hnil in Hexec. injection Hexec as <- <- <-.
      cbn [fst snd mret M_ret ret]. rewrite Hfinal.
      destruct (invoke _ w3) as [[message|r] w5]; cbn;
        rewrite ?app_nil_r, <- ?app_assoc; reflexivity.
Qed.

(** The same for a request with a question and a token. *)
Lemma POST_run payload q tok (w : World) context w1 :
  OLLAMA_BASE_URL ≠ "" →
  truthy (JsString.trim <$> question payload) = Some q →
  truthy (token payload) = Some tok →
  buildWorkflowContext tok w = (Return context, w1, [Request tok GET_orders]) →
  POST (Some payload) w =
  match fetchJson tok GET_auth_me w1 with
  | (inl message, w2) =>
      (Return (json (MessageBody message) 502), w2,
       [Request tok GET_orders; Request tok GET_auth_me])
  | (inr profile, w2) =>
      let allowed := allowed_actions (normalizeRoles (profile_roles profile)) in
      let planned :=
        if decide (allowed = []) then (Return (None, []), w2, [])
        else
          match generatePlan (JsString.slice q 0 4000) (summary context) allowed profile w2 with
          | (Return plan, w3, evs3) =>
              match executePlan (plan_actions plan) (caller tok profile) w3 with
              | (Return log, w4, evs4) => (Return (Some plan, log), w4, evs3 ++ evs4)
              | (Throw message, w4, evs4) => (Throw message, w4, evs3 ++ evs4)
              end
          | (Throw message, w3, evs3) => (Throw message, w3, evs3)
          end in
      match planned with
      | (Return (plan, log), w4, evs) =>
          let messages :=
            answer_messages (JsString.slice q 0 4000) (summary context) plan log in
          match invoke messages w4 with
          | (inr r, w5) =>
              (Return (json (AnswerBody (normalizeContent (response_content r))
                                        (default OLLAMA_MODEL (response_metadata_model r))
                                        (context_error context)) 200), w5,
               [Request tok GET_orders; Request tok GET_auth_me] ++ evs ++ [ModelCall messages])
          | (inl message, w5) =>
              (Return (json (MessageBody message) 502), w5,
               [Request tok GET_orders; Request tok GET_auth_me] ++ evs ++ [ModelCall messages])
          end
      | (Throw message, w4, evs) =>
          (Return (json (MessageBody message) 502), w4,
           [Request tok GET_orders; Request tok GET_auth_me] ++ evs)
      end
  end.
Proof.
  intros Hurl Hq Htok Hcontext.
  rewrite (POST_answer_request _ _ _ _ Hurl Hq Htok).
  by apply answer_request_run.
Qed.

Lemma generatePlan_events question contextSummary allowedActions profile (w : World) :
  (generatePlan question contextSummary allowedActions profile w).2 =
  [ModelCall (plan_messages question contextSummary allowedActions profile)].
Proof.
  unfold generatePlan, mbind, M_bind, bind, model_invoke.
  destruct (invoke _ w) as [[e|response] w1]; [done|].
  destruct (extractJson _) as [planJson|]; [|done].
  destruct (decide (planJson = "")); [done|].
  destruct (JSON_parse planJson) as [e|value]; [done|].
  by destruct (safeParse PlanSchema value).
Qed.

(** The course of the entry point once the question and the token are
    there: it returns a response, an answer with the status 200 or a message
    with the status 502. *)
Lemma answer_request_responds q tok (w : World) :
  match answer_request q tok w with
  | (Return response, _, _) =>
      match body response with
      | AnswerBody _ _ _ => status response = 200%nat
      | MessageBody _ => status response = 502%nat
      end
  | (Throw _, _, _) => False
  end.
Proof.
  destruct (buildWorkflowContext_returns tok w) as (context & w1 & Hcontext).
  rewrite (answer_request_run _ _ _ _ _ Hcontext).
  destruct (fetchJson tok GET_auth_me w1) as [[message|profile] w2]; [done|].
  cbv zeta. destruct (decide _).
  - by destruct (invoke _ w2) as [[message|r] w5].
  - destruct (generatePlan _ _ _ _ w2) as [[[plan|message] w3] evs3]; [|done].
    destruct (executePlan _ _ w3) as [[[log|message] w4] evs4]; [|done].
    by destruct (invoke _ w4) as [[message|r] w5].
Qed.

(** X22. With the model endpoint configured, the entry point throws
    exactly when the body it reads is [null], or has a question that is
    neither a string nor [null]: the question is trimmed outside the [try]
    blocks, and the [TypeError] leaves the function before anything is
    sent. On every other request, and on every request when the endpoint is
    not configured or the body is not JSON, it returns a response: an
    answer with the status 200, or a message with the status 400, 401, 500
    or 502. *)
Theorem POST_responds_unless_ill_typed payload (w : World) :
  match POST payload w with
  | (Return response, _, _) =>
      (OLLAMA_BASE_URL = "" ∨ from_option (λ p, ¬ ill_typed p) True payload) ∧
      match body response with
      | AnswerBody _ _ _ => status response = 200%nat
      | MessageBody _ => status response ∈ [400; 401; 500; 502]%nat
      end
  | (Throw _, w', evs) =>
      OLLAMA_BASE_URL ≠ "" ∧ (∃ p, payload = Some p ∧ ill_typed p) ∧ w' = w ∧ evs = []
  end.
Proof.
  unfold POST.
  destruct (decide (OLLAMA_BASE_URL = "")) as [Hurl|Hurl].
  { cbn. split; [by left|set_solver]. }
  destruct payload as [payload|].
  2:{ cbn. split; [by right|set_solver]. }
  pose proof (trimmed_question_cases payload) as Hcases.
  destruct (trimmed_question payload) as [q| |message].
  - destruct Hcases as (Hwell & _ & _).
    destruct (decide (q = "")); [cbn; split; [by right|set_solver]|].
    destruct (token payload) as [tok|]; [|cbn; split; [by right|set_solver]].
    pose proof (answer_request_responds q tok w) as Hrun.
    destruct (answer_request q tok w) as [[[response|e] w'] evs]; [|done].
    split; [by right|]. destruct (body response); [|done]. rewrite Hrun. set_solver.
  - destruct Hcases as [Hwell _]. cbn. split; [by right|set_solver].
  - destruct Hcases as [Hill _]. cbn. split_and!; eauto.
Qed.

(** X23. A request without a question (missing, [null] or blank) is
    answered 400, and one with a question but without a token (missing or
    falsy) 401, before anything is asked of the workflow service or of the
    model: no event, and the world is left as it was. The body is one the
    question can be read from: see X22 for the others. *)
Theorem incomplete_request_is_rejected payload (w : World) :
  OLLAMA_BASE_URL ≠ "" →
  ¬ ill_typed payload →
  no_question payload ∨ no_token payload →
  ∃ message code,
    POST (Some payload) w = (Return (json (MessageBody message) code), w, []) ∧
    (no_question payload → code = 400%nat) ∧
    (¬ no_question payload → code = 401%nat).
Proof.
  intros Hurl Hwell Hmissing. unfold POST. rewrite decide_False by done.
  pose proof (trimmed_question_cases payload) as Hcases.
  destruct (trimmed_question payload) as [q| |message].
  - destruct Hcases as (_ & Hblank & _).
    destruct (decide (q = "")) as [Hq|Hq].
    { apply Hblank in Hq. eexists _, _. split; [reflexivity|]. split; done. }
    assert (Hyes : ¬ no_question payload) by (by rewrite <- Hblank).
    destruct Hmissing as [?|Hno%token_None]; [done|]. rewrite Hno.
    eexists _, _. split; [reflexivity|]. split; done.
  - destruct Hcases as [_ Hno]. eexists _, _. split; [reflexivity|]. split; done.
  - by destruct Hcases as [Hill _].
Qed.

Lemma buildWorkflowContext_world tok (w : World) :
  ∃ context,
    buildWorkflowContext tok w =
      (Return context, (fetchJson tok GET_orders w).2, [Request tok GET_orders]) ∧
    ∀ message, (fetchJson tok GET_orders w).1 = inl message →
               context = {| summary := ""; context_error := Some message |}.
Proof.
  unfold buildWorkflowContext, try_catch, mbind, M_bind, bind, fetchOrders, fetchWithAuthJson.
  destruct (fetchJson tok GET_orders w) as [[e|orders] w1]; cbn.
  - eexists. split; [reflexivity|]. by intros ? [= ->].
  - destruct (decide (length orders = 0%nat)); eexists; (split; [reflexivity|done]).
Qed.

(** X24. When the profile of the caller cannot be read, the response is a
    502 with the message of the failure; the order list and the profile
    were asked for, the model was not called, and no action was run. *)
Theorem unreadable_profile_is_502 payload q tok (w : World) (message : string) w2 :
  OLLAMA_BASE_URL ≠ "" →
  truthy (JsString.trim <$> question payload) = Some q →
  truthy (token payload) = Some tok →
  fetchJson tok GET_auth_me (fetchJson tok GET_orders w).2 = (inl message, w2) →
  POST (Some payload) w =
    (Return (json (MessageBody message) 502), w2,
     [Request tok GET_orders; Request tok GET_auth_me]).
Proof.
  intros Hurl Hq Htok Hprofile.
  destruct (buildWorkflowContext_world tok w) as (context & Hcontext & _).
  rewrite (POST_run _ _ _ _ _ _ Hurl Hq Htok Hcontext). by rewrite Hprofile.
Qed.

(** X25. When the plan generator throws (the model cannot be reached, its
    reply holds no JSON text, the text is refused by the parser or by the
    plan schema), the response is a 502 with the message thrown; the model
    was called once, for the plan, and no action was run: nothing was sent
    to the workflow service after the profile request. *)
Theorem failed_plan_is_502 payload q tok (w : World) context w1 evs1 profile w2
    (message : string) w3 evs3 :
  OLLAMA_BASE_URL ≠ "" →
  truthy (JsString.trim <$> question payload) = Some q →
  truthy (token payload) = Some tok →
  buildWorkflowContext tok w = (Return context, w1, evs1) →
  fetchJson tok GET_auth_me w1 = (inr profile, w2) →
  let allowed := allowed_actions (normalizeRoles (profile_roles profile)) in
  allowed ≠ [] →
  generatePlan (JsString.slice q 0 4000) (summary context) allowed profile w2
    = (Throw message, w3, evs3) →
  POST (Some payload) w =
    (Return (json (MessageBody message) 502), w3,
     [Request tok GET_orders; Request tok GET_auth_me;
      ModelCall (plan_messages (JsString.slice q 0 4000) (summary context) allowed profile)]).
Proof.
  intros Hurl Hq Htok Hcontext Hprofile allowed Hallowed Hplan.
  assert (Hevs1 : evs1 = [Request tok GET_orders]).
  { destruct (buildWorkflowContext_returns tok w) as (? & ? & Hc). congruence. }
  subst evs1.
  rewrite (POST_run _ _ _ _ _ _ Hurl Hq Htok Hcontext), Hprofile. cbv zeta.
  fold allowed. rewrite decide_False by done.
  pose proof (generatePlan_events (JsString.slice q 0 4000) (summary context)
                allowed profile w2) as Hevs.
  rewrite Hplan in Hevs |- *. cbn in Hevs. by subst evs3.
Qed.

(** X26. The answer is asked for with what was really done: when the plan
    generator returns a plan, the executor runs its actions for the caller
    made of the token, the user name of the profile and the normalized
    roles, and the model is then called with the messages built from the
    digest, this plan and the log the executor returned. The response is
    the reply of the model with the warning of the digest, or a 502 when
    the model fails; the events are those of the steps, in order. *)
Theorem answer_is_built_from_the_executed_log payload q tok (w : World)
    context w1 evs1 profile w2 plan w3 evs3 log w4 evs4 :
  OLLAMA_BASE_URL ≠ "" →
  truthy (JsString.trim <$> question payload) = Some q →
  truthy (token payload) = Some tok →
  buildWorkflowContext tok w = (Return context, w1, evs1) →
  fetchJson tok GET_auth_me w1 = (inr profile, w2) →
  let allowed := allowed_actions (normalizeRoles (profile_roles profile)) in
  allowed ≠ [] →
  generatePlan (JsString.slice q 0 4000) (summary context) allowed profile w2
    = (Return plan, w3, evs3) →
  executePlan (plan_actions plan) (caller tok profile) w3 = (Return log, w4, evs4) →
  let messages :=
    answer_messages (JsString.slice q 0 4000) (summary context) (Some plan) log in
  let evs := evs1 ++ [Request tok GET_auth_me] ++ evs3 ++ evs4 ++ [ModelCall messages] in
  POST (Some payload) w =
    match invoke messages w4 with
    | (inr r, w5) =>
        (Return (json (AnswerBody (normalizeContent (response_content r))
                                  (default OLLAMA_MODEL (response_metadata_model r))
                                  (context_error context)) 200), w5, evs)
    | (inl message, w5) => (Return (json (MessageBody message) 502), w5, evs)
    end.
Proof.
  intros Hurl Hq Htok Hcontext Hprofile allowed Hallowed Hplan Hexec messages evs.
  assert (Hevs1 : evs1 = [Request tok GET_orders]).
  { destruct (buildWorkflowContext_returns tok w) as (? & ? & Hc). congruence. }
  subst evs1.
  rewrite (POST_run _ _ _ _ _ _ Hurl Hq Htok Hcontext), Hprofile. cbv zeta.
  fold allowed. rewrite decide_False by done. rewrite Hplan, Hexec. fold messages.
  subst evs. destruct (invoke messages w4) as [[message|r] w5];
    cbn; by rewrite <- ?app_assoc.
Qed.

(** X27. A failure of the order list does not fail the request. The
    context builder returns an empty digest with the message of the
    failure, and the entry point goes on as on any other request, with the
    empty digest in the prompts of the plan and of the answer: the profile
    is asked for, the plan is generated and run when an action is allowed,
    and when the model answers, the response is that answer with the
    status 200 and the message of the failure as its warning. The response
    is a 502 only if one of the later steps fails, with the message of that
    step. *)
Theorem context_failure_is_a_warning payload q tok (w : World) (message : string) w1 :
  OLLAMA_BASE_URL ≠ "" →
  truthy (JsString.trim <$> question payload) = Some q →
  truthy (token payload) = Some tok →
  fetchJson tok GET_orders w = (inl message, w1) →
  buildWorkflowContext tok w =
    (Return {| summary := ""; context_error := Some message |}, w1, [Request tok GET_orders]) ∧
  POST (Some payload) w =
    match fetchJson tok GET_auth_me w1 with
    | (inl e, w2) =>
        (Return (json (MessageBody e) 502), w2,
         [Request tok GET_orders; Request tok GET_auth_me])
    | (inr profile, w2) =>
        let allowed := allowed_actions (normalizeRoles (profile_roles profile)) in
        let planned :=
          if decide (allowed = []) then (Return (None, []), w2, [])
          else
            match generatePlan (JsString.slice q 0 4000) "" allowed profile w2 with
            | (Return plan, w3, evs3) =>
                match executePlan (plan_actions plan) (caller tok profile) w3 with
                | (Return log, w4, evs4) => (Return (Some plan, log), w4, evs3 ++ evs4)
                | (Throw e, w4, evs4) => (Throw e, w4, evs3 ++ evs4)
                end
            | (Throw e, w3, evs3) => (Throw e, w3, evs3)
            end in
        match planned with
        | (Return (plan, log), w4, evs) =>
            let messages := answer_messages (JsString.slice q 0 4000) "" plan log in
            match invoke messages w4 with
            | (inr r, w5) =>
                (Return (json (AnswerBody (normalizeContent (response_content r))
                                          (default OLLAMA_MODEL (response_metadata_model r))
                                          (Some message)) 200), w5,
                 [Request tok GET_orders; Request tok GET_auth_me] ++ evs
                 ++ [ModelCall messages])
            | (inl e, w5) =>
                (Return (json (MessageBody e) 502), w5,
                 [Request tok GET_orders; Request tok GET_auth_me] ++ evs
                 ++ [ModelCall messages])
            end
        | (Throw e, w4, evs) =>
            (Return (json (MessageBody e) 502), w4,
             [Request tok GET_orders; Request tok GET_auth_me] ++ evs)
        end
    end.
Proof.
  intros Hurl Hq Htok Hfetch.
  destruct (buildWorkflowContext_world tok w) as (context & Hcontext & Herror).
  rewrite Hfetch in Hcontext, Herror. cbn [fst snd] in *.
  specialize (Herror _ eq_refl). subst context.
  split; [exact Hcontext|].
  exact (POST_run _ _ _ _ _ _ Hurl Hq Htok Hcontext).
Qed.

End EntryPoint.

(** ** The order of the digest *)

Section Ordering.
Context {rt : Runtime}.

(** X28. The comparison of the digest is antisymmetric: comparing two orders
    the other way round gives the opposite number, and not a number again
    when a creation date cannot be read. *)
Theorem compareOrders_antisymmetric a b :
  compareOrders b a = Z.opp <$> compareOrders a b.
Proof.
  unfold compareOrders.
  destruct (decide (default 0 (order_priority a) - default 0 (order_priority b) ≠ 0)),
           (decide (default 0 (order_priority b) - default 0 (order_priority a) ≠ 0));
    try lia.
  - cbn. f_equal. lia.
  - destruct (created_time a), (created_time b); cbn; try done. f_equal. lia.
Qed.

(** X29. On orders whose creation dates can all be read the comparison of
    the digest is a consistent comparison function, and so is the
    comparison of the stages on any stages: it gives a number on every
    pair, zero on an order and itself, opposite signs when the two orders
    are swapped, and what it puts in order is transitive. The order of the
    digest is then fixed by the standard of the language. The comparison
    gives no number exactly on two orders of one priority one of whose
    creation dates cannot be read. *)
Theorem compareOrders_consistency :
  (∀ orders, Forall dated orders → consistent compareOrders orders) ∧
  (∀ stages, consistent compareStages stages) ∧
  (∀ a b, compareOrders a b = None ↔
          priority_of a = priority_of b ∧ (¬ dated a ∨ ¬ dated b)).
Proof.
  split_and!.
  - apply compareOrders_consistent.
  - apply compareStages_consistent.
  - intros a b. rewrite !dated_created_time. unfold compareOrders, priority_of.
    case_decide as Hdiff.
    + split; [done|]. intros [? _]. lia.
    + destruct (created_time a) as [ta|], (created_time b) as [tb|]; split; try done.
      * intros [_ [Hno|Hno]]; destruct Hno; by eexists.
      * intros _. split; [lia|]. right. by intros [??].
      * intros _. split; [lia|]. left. by intros [??].
      * intros _. split; [lia|]. left. by intros [??].
Qed.

End Ordering.

(** ** The text of a model reply *)

Section Content.

(** X30. The parts of a reply that carry no text (an entry that is neither a
    string nor an object with a [text] string, an empty string) leave no
    trace in the text read from the reply: no empty line stands for them. *)
Theorem normalizeContent_skips_empty_parts pre p post :
  part_text p = "" →
  normalizeContent (ContentParts (pre ++ p :: post))
  = normalizeContent (ContentParts (pre ++ post)).
Proof.
  intros Hp. unfold normalizeContent.
  rewrite !fmap_app, fmap_cons, !filter_app, filter_cons_False; [done|].
  intros Hne. by apply Hne.
Qed.

End Content.

(** ** The further properties on the sample data *)

Section FurtherExamples.
Local Existing Instances Sim.runtime Sim.remote.
Import Sample Cases.

(** A supervisor plans a checklist update and a completion of the assembly
    of PO-9: no checklist request leaves the executor. *)
Lemma supervisor_updates_no_checklist_on_sample :
  Forall (λ ev, ¬ is_checklist_patch ev)
         (executePlan [tick_a_c; complete_assembly] supervisor (world [])).2.
Proof.
  apply (non_operator_never_updates_checklist [tick_a_c; complete_assembly] supervisor
           (world [])).
  vm_compute. discriminate.
Defined.

(** Two looks at an order, one of them at an order that does not exist. *)
Lemma read_only_plan_on_sample :
  Forall reads_only (executePlan [look_at_nine; look_at_missing] operator (world [])).2.
Proof.
  apply (read_only_plan_only_reads [look_at_nine; look_at_missing] operator (world [])).
  repeat constructor.
Defined.

(** An operator has a plan that creates an order, an action meant for
    supervisors: it runs as it does for a supervisor. *)
Lemma roles_not_rechecked_on_sample :
  executePlan [new_order; look_at_nine] (with_roles operator {[SUPERVISOR]}) (world [])
  = executePlan [new_order; look_at_nine] operator (world []).
Proof.
  apply (executor_does_not_recheck_roles [new_order; look_at_nine] operator {[SUPERVISOR]}
           (world [])).
  repeat constructor; intros Hin;
    repeat (apply elem_of_cons in Hin as [Hin|Hin]; [discriminate|]);
    by apply elem_of_nil in Hin.
Defined.

(** The service has no order 404. *)
Lemma refused_request_on_sample :
  executePlan [look_at_missing] operator (world []) =
    (Return [failed_result look_at_missing "Order not found"], world [],
     [HandlerCall get_order_details look_at_missing_args;
      Request "dG9rZW4=" (GET_order 404)]).
Proof.
  apply (refused_request_is_logged look_at_missing operator (world [])
           get_order_details_action look_at_missing_args (GET_order 404)
           "Order not found" (world [])).
  - vm_compute. reflexivity.
  - discriminate.
  - vm_compute. reflexivity.
  - reflexivity.
  - reflexivity.
Defined.

(** The preparation of PO-7 has no checklist: a supervisor completes it. *)
Lemma completion_without_pending_tasks_on_sample :
  ∃ entry w2,
    executePlan [complete_preparation7] supervisor (world []) =
      (Return [entry], w2,
       [Request "dG9rZW4=" (GET_order 7);
        HandlerCall complete_stage complete_preparation7_args;
        completion_request complete_preparation7_args supervisor]) ∧
    result_name entry = "complete_stage".
Proof.
  apply (completion_without_pending_tasks complete_preparation7 supervisor (world [])
           complete_preparation7_args order7 (world []) (stage 3 "PREPARATION" "PENDING" [])).
  - reflexivity.
  - vm_compute. reflexivity.
  - reflexivity.
  - reflexivity.
  - reflexivity.
Defined.

(** PO-7 has no assembly stage. *)
Lemma completion_of_missing_stage_on_sample :
  executePlan [complete_assembly7] operator (world []) =
    (Return [stage_not_found_entry complete_assembly7_args order7], world [],
     [Request "dG9rZW4=" (GET_order 7)]).
Proof.
  apply (completion_of_missing_stage complete_assembly7 operator (world [])
           complete_assembly7_args order7 (world [])).
  - reflexivity.
  - vm_compute. reflexivity.
  - reflexivity.
  - reflexivity.
Defined.

Lemma completion_of_unreadable_order_on_sample :
  executePlan [complete_missing] operator (world []) =
    (Return [checklist_failed_entry "Order not found"], world [],
     [Request "dG9rZW4=" (GET_order 404)]).
Proof.
  apply (completion_of_unreadable_order complete_missing operator (world [])
           complete_missing_args "Order not found" (world [])).
  - reflexivity.
  - vm_compute. reflexivity.
  - reflexivity.
Defined.

Lemma complete_stage_in_list : complete_stage_action ∈ ACTION_LIST.
Proof. unfold ACTION_LIST, ACTION_DEFINITIONS. repeat constructor. Defined.

Lemma update_stage_checklist_in_list : update_stage_checklist_action ∈ ACTION_LIST.
Proof. unfold ACTION_LIST, ACTION_DEFINITIONS. repeat constructor. Defined.

(** The data read from the bag of a completion with a service time. *)
Lemma validated_arguments_on_sample : in_range complete_stage complete_missing_args.
Proof.
  apply (validated_arguments_in_range complete_stage_action
           (JObject (action_arguments complete_missing)) complete_missing_args).
  - exact complete_stage_in_list.
  - vm_compute. reflexivity.
Defined.

Lemma schema_round_trip_on_sample :
  safeParse UpdateChecklistSchema (JObject (to_json update_stage_checklist tick_a_c_args))
  = Success tick_a_c_args.
Proof.
  apply (schema_round_trip update_stage_checklist_action tick_a_c_args).
  - exact update_stage_checklist_in_list.
  - cbn. split; [reflexivity|]. split; [lia|]. repeat constructor.
Defined.

(** The bag of the sample completion with and without the property the
    schema does not name. *)
Lemma unnamed_property_on_sample :
  safeParse CompleteStageSchema (JObject (action_arguments complete_assembly))
  = safeParse CompleteStageSchema (JObject [("orderId", JInt 9); ("stage", JString "ASSEMBLY")]).
Proof.
  apply (schema_reads_named_properties_only complete_stage_action
           (action_arguments complete_assembly)
           [("orderId", JInt 9); ("stage", JString "ASSEMBLY")]).
  - exact complete_stage_in_list.
  - intros k Hk. cbn in Hk.
    repeat (apply elem_of_cons in Hk as [->|Hk]; [reflexivity|]).
    by apply elem_of_nil in Hk.
Defined.

(** The two pending tasks of the assembly of PO-9 have an id. *)
Lemma implicit_update_on_sample_passes :
  safeParse UpdateChecklistSchema
    (JObject (to_json update_stage_checklist
                (implicit_update complete_assembly_args (pending_tasks assembly9))))
    = Success (implicit_update complete_assembly_args (pending_tasks assembly9))
  ↔ Forall (λ task, item_id task ≠ "") (pending_tasks assembly9).
Proof.
  apply (implicit_update_and_schema complete_assembly_args (pending_tasks assembly9)).
  - reflexivity.
  - vm_compute. discriminate.
Defined.

(** The completion of the assembly of PO-9 once its tasks are ticked. *)
Lemma completion_requests_on_sample :
  match handler complete_stage_action complete_assembly_args operator ticked_world with
  | (Return _, _, evs) =>
      evs = Request (ctx_token operator)
              <$> handler_requests (name complete_stage_action) complete_assembly_args operator
  | (Throw _, _, evs) =>
      ∃ sent, sent ≠ [] ∧
              sent `prefix_of` handler_requests (name complete_stage_action)
                                 complete_assembly_args operator ∧
              evs = Request (ctx_token operator) <$> sent
  end.
Proof.
  apply (action_requests_are_determined complete_stage_action complete_assembly_args operator
           ticked_world).
  exact complete_stage_in_list.
Defined.

(** The orders at the assembly stage that are in progress or in rework, five
    at most. *)
Lemma list_orders_on_sample :
  ∃ r shown,
    list_orders_handler assembly_orders operator (world []) =
      (Return r, world [], [Request (ctx_token operator) GET_orders]) ∧
    result_status r = success ∧
    result_data r = Some (DataOrders shown) ∧
    shown `sublist_of` [order3; order9; order7] ∧
    (length shown ≤ Z.to_nat (default 10%Z (lo_limit assembly_orders)))%nat ∧
    (∀ stage, lo_stage assembly_orders = Some stage →
       Forall (λ o, order_currentStage o = StageType_string stage) shown) ∧
    (∀ states, lo_states assembly_orders = Some states → states ≠ [] →
       Forall (λ o, order_overallState o ∈ StageState_string <$> states) shown).
Proof.
  apply (list_orders_filters_and_limits assembly_orders operator (world [])
           [order3; order9; order7] (world [])).
  - cbn. unfold between. lia.
  - reflexivity.
Defined.

(** The operator ticks the tasks [a] and [c]. *)
Lemma checklist_update_success_on_sample :
  result_status (checklist_updated_result tick_a_c_args ticked_stage) = success ∧
  checklist_requests "dG9rZW4=" 9 ASSEMBLY (uc_tasks tick_a_c_args) =
    checklist_requests (ctx_token operator) (uc_orderId tick_a_c_args)
      (uc_stage tick_a_c_args) (uc_tasks tick_a_c_args) ∧
  ∀ init task, uc_tasks tick_a_c_args = init ++ [task] →
    ∃ w0 status,
      fetchJson (ctx_token operator)
        (PATCH_checklist (uc_orderId tick_a_c_args) (uc_stage tick_a_c_args)
                         (taskId task) (completed task)) w0
        = (inr status, ticked_world) ∧
      result_data (checklist_updated_result tick_a_c_args ticked_stage)
        = Some (DataStage (Some status)).
Proof.
  apply (checklist_update_success tick_a_c_args operator (world [])
           (checklist_updated_result tick_a_c_args ticked_stage) ticked_world
           (checklist_requests "dG9rZW4=" 9 ASSEMBLY (uc_tasks tick_a_c_args))).
  - vm_compute. reflexivity.
  - vm_compute. reflexivity.
Defined.

(** A body that is [null] and a body whose question is a number make the
    entry point throw; a [null] question, a body that is not JSON and a
    token that is zero are answered with a message. *)
Example bodies_on_sample :
  POST (Some JNull) (world []) =
    (Throw "Cannot read properties of null (reading 'question')", world [], []) ∧
  POST (Some (JObject [("question", JInt 5); ("token", JString "dG9rZW4=")])) (world []) =
    (Throw "payload.question?.trim is not a function", world [], []) ∧
  POST (Some (JObject [("question", JNull); ("token", JString "dG9rZW4=")])) (world []) =
    (Return (json (MessageBody "question is required.") 400), world [], []) ∧
  POST None (world []) = (Return (json (MessageBody "Invalid JSON payload.") 400), world [], []) ∧
  POST (Some (JObject [("question", JString "Any news?"); ("token", JInt 0)])) (world []) =
    (Return (json (MessageBody "Authentication token is required for autonomous actions.") 401),
     world [], []).
Proof. split_and!; vm_compute; reflexivity. Qed.

(** The log of the sample completion is one block of two entries. *)
Example finish_log_blocks :
  executePlan (plan_actions finish_plan) operator (desk ["Done."]) =
    (Return (concat [finish_log]), finish_world, finish_events) ∧
  length finish_log = 2%nat.
Proof. split; vm_compute; reflexivity. Qed.

(** A question of three spaces. *)
Lemma blank_question_on_sample :
  ∃ message code,
    POST (Some blank_request) (world []) = (Return (json (MessageBody message) code), world [], []) ∧
    (no_question blank_request → code = 400%nat) ∧
    (¬ no_question blank_request → code = 401%nat).
Proof.
  apply (incomplete_request_is_rejected blank_request (world [])).
  - discriminate.
  - intros [Hnull|(v & Hv & _ & Hstring)]; [discriminate|].
    vm_compute in Hv. injection Hv as <-. by destruct (Hstring "   ").
  - left. split; [discriminate|reflexivity].
Defined.

(** The model answers the operator in prose when asked for a plan. *)
Lemma failed_plan_on_sample :
  POST (Some finish_request) (desk ["I cannot plan that."]) =
    (Return (json (MessageBody "Agent plan was not valid JSON.") 502), desk [],
     [Request "dG9rZW4=" GET_orders; Request "dG9rZW4=" GET_auth_me;
      ModelCall (plan_messages (JsString.slice "Finish the assembly of PO-9." 0 4000)
                   (summary sample_context)
                   (allowed_actions (normalizeRoles (profile_roles ana))) ana)]).
Proof.
  apply (failed_plan_is_502 finish_request "Finish the assembly of PO-9." "dG9rZW4="
           (desk ["I cannot plan that."]) sample_context (desk ["I cannot plan that."])
           [Request "dG9rZW4=" GET_orders] ana (desk ["I cannot plan that."])
           "Agent plan was not valid JSON." (desk []) 
           [ModelCall (plan_messages (JsString.slice "Finish the assembly of PO-9." 0 4000)
                   (summary sample_context)
                   (allowed_actions (normalizeRoles (profile_roles ana))) ana)]).
  - discriminate.
  - vm_compute. reflexivity.
  - reflexivity.
  - vm_compute. reflexivity.
  - reflexivity.
  - vm_compute. discriminate.
  - vm_compute. reflexivity.
Defined.

(** The dates of the three sample orders can be read, and the comparison
    is consistent on them; it gives no number on the two orders of [Cases]
    of which one has no date that can be read. *)
Lemma consistency_on_sample :
  consistent compareOrders [order3; order9; order7] ∧
  (compareOrders older undated = None ↔
   priority_of older = priority_of undated ∧ (¬ dated older ∨ ¬ dated undated)).
Proof.
  split.
  - apply (proj1 compareOrders_consistency [order3; order9; order7]).
    repeat (apply Forall_cons; split); [by left|right; eexists; vm_compute; reflexivity..|].
    constructor.
  - apply (proj2 (proj2 compareOrders_consistency) older undated).
Defined.

(** A reply in three parts, the second one an image. *)
Lemma empty_part_on_sample :
  normalizeContent (ContentParts ([PartString "Plan:"] ++ PartOther :: [PartText "{}"]))
  = normalizeContent (ContentParts ([PartString "Plan:"] ++ [PartText "{}"])).
Proof.
  apply (normalizeContent_skips_empty_parts [PartString "Plan:"] PartOther [PartText "{}"]).
  reflexivity.
Defined.

End FurtherExamples.

Section PlanExamples.
Local Existing Instances Cases.runtime Sim.remote.
Import Sample Cases.

(** The model answers with the text of the plan of [finish_plan]. *)
Lemma generated_plan_on_sample :
  Forall (λ a, is_Some (ACTION_MAP !! action_name a)) (plan_actions finish_plan) ∧
  [ModelCall (plan_messages "Finish the assembly of PO-9." "" ACTION_LIST ana)] =
  [ModelCall (plan_messages "Finish the assembly of PO-9." "" ACTION_LIST ana)].
Proof.
  apply (generated_plan_is_catalogued "Finish the assembly of PO-9." "" ACTION_LIST ana
           (desk [plan_text]) finish_plan (desk [])
           [ModelCall (plan_messages "Finish the assembly of PO-9." "" ACTION_LIST ana)]).
  vm_compute. reflexivity.
Defined.

(** The operator asks for the assembly of PO-9 to be finished; the model
    plans the completion, the executor ticks the two pending tasks and
    completes the stage, and the model is asked for the answer with the two
    entries of the log. *)
Lemma answer_from_log_on_sample :
  let messages :=
    answer_messages (JsString.slice "Finish the assembly of PO-9." 0 4000)
      (summary sample_context) (Some finish_plan) finish_log in
  let evs :=
    [Request "dG9rZW4=" GET_orders] ++ [Request "dG9rZW4=" GET_auth_me]
    ++ [ModelCall (plan_messages (JsString.slice "Finish the assembly of PO-9." 0 4000)
                     (summary sample_context)
                     (allowed_actions (normalizeRoles (profile_roles ana))) ana)]
    ++ finish_events ++ [ModelCall messages] in
  POST (Some finish_request) (desk [plan_text; "Done."]) =
    match invoke messages finish_world with
    | (inr r, w5) =>
        (Return (json (AnswerBody (normalizeContent (response_content r))
                                  (default OLLAMA_MODEL (response_metadata_model r))
                                  (context_error sample_context)) 200), w5, evs)
    | (inl message, w5) => (Return (json (MessageBody message) 502), w5, evs)
    end.
Proof.
  apply (answer_is_built_from_the_executed_log finish_request
           "Finish the assembly of PO-9." "dG9rZW4=" (desk [plan_text; "Done."])
           sample_context (desk [plan_text; "Done."]) [Request "dG9rZW4=" GET_orders]
           ana (desk [plan_text; "Done."]) finish_plan (desk ["Done."])
           [ModelCall (plan_messages (JsString.slice "Finish the assembly of PO-9." 0 4000)
                         (summary sample_context)
                         (allowed_actions (normalizeRoles (profile_roles ana))) ana)]
           finish_log finish_world finish_events).
  - discriminate.
  - vm_compute. reflexivity.
  - reflexivity.
  - vm_compute. reflexivity.
  - reflexivity.
  - vm_compute. discriminate.
  - vm_compute. reflexivity.
  - vm_compute. reflexivity.
Defined.

End PlanExamples.

Section OutageExamples.
Import Sample Cases.

(** The identity endpoint is down. *)
Lemma unreadable_profile_on_sample :
  @POST Cases.runtime Sim.World profile_down (Some finish_request) (desk [plan_text; "Done."]) =
    (Return (json (MessageBody "Unauthorized") 502), desk [plan_text; "Done."],
     [Request "dG9rZW4=" GET_orders; Request "dG9rZW4=" GET_auth_me]).
Proof.
  apply (@unreadable_profile_is_502 Cases.runtime Sim.World profile_down finish_request
           "Finish the assembly of PO-9." "dG9rZW4=" (desk [plan_text; "Done."])
           "Unauthorized" (desk [plan_text; "Done."])).
  - discriminate.
  - vm_compute. reflexivity.
  - reflexivity.
  - reflexivity.
Defined.

End OutageExamples.

Section OrdersDown.
Local Existing Instances Cases.runtime Cases.orders_down.
Import Sample Cases.

(** The order list is down: the assembly of PO-9 is finished all the same
    and the answer carries the warning. *)
Lemma context_failure_on_sample :
  let w := desk [plan_text; "Done."] in
  let q := "Finish the assembly of PO-9." in
  let tok := "dG9rZW4=" in
  buildWorkflowContext tok w =
    (Return {| summary := ""; context_error := Some "Service unavailable" |}, w,
     [Request tok GET_orders]) ∧
  POST (Some finish_request) w =
    match fetchJson tok GET_auth_me w with
    | (inl e, w2) =>
        (Return (json (MessageBody e) 502), w2,
         [Request tok GET_orders; Request tok GET_auth_me])
    | (inr profile, w2) =>
        let allowed := allowed_actions (normalizeRoles (profile_roles profile)) in
        let planned :=
          if decide (allowed = []) then (Return (None, []), w2, [])
          else
            match generatePlan (JsString.slice q 0 4000) "" allowed profile w2 with
            | (Return plan, w3, evs3) =>
                match executePlan (plan_actions plan) (caller tok profile) w3 with
                | (Return log, w4, evs4) => (Return (Some plan, log), w4, evs3 ++ evs4)
                | (Throw e, w4, evs4) => (Throw e, w4, evs3 ++ evs4)
                end
            | (Throw e, w3, evs3) => (Throw e, w3, evs3)
            end in
        match planned with
        | (Return (plan, log), w4, evs) =>
            let messages := answer_messages (JsString.slice q 0 4000) "" plan log in
            match invoke messages w4 with
            | (inr r, w5) =>
                (Return (json (AnswerBody (normalizeContent (response_content r))
                                          (default OLLAMA_MODEL (response_metadata_model r))
                                          (Some "Service unavailable")) 200), w5,
                 [Request tok GET_orders; Request tok GET_auth_me] ++ evs
                 ++ [ModelCall messages])
            | (inl e, w5) =>
                (Return (json (MessageBody e) 502), w5,
                 [Request tok GET_orders; Request tok GET_auth_me] ++ evs
                 ++ [ModelCall messages])
            end
        | (Throw e, w4, evs) =>
            (Return (json (MessageBody e) 502), w4,
             [Request tok GET_orders; Request tok GET_auth_me] ++ evs)
        end
    end.
Proof.
  apply (context_failure_is_a_warning finish_request
           "Finish the assembly of PO-9." "dG9rZW4=" (desk [plan_text; "Done."])
           "Service unavailable" (desk [plan_text; "Done."])).
  - discriminate.
  - vm_compute. reflexivity.
  - reflexivity.
  - reflexivity.
Defined.

(** The course of that request, evaluated. *)
Example context_failure_answer :
  (POST (Some finish_request) (desk [plan_text; "Done."])).1.1
  = Return (json (AnswerBody "Done." "gpt-oss:20b-cloud" (Some "Service unavailable")) 200).
Proof. vm_compute. reflexivity. Qed.

Example answer_from_log :
  (@POST Cases.runtime Sim.World Sim.remote (Some finish_request)
     (desk [plan_text; "Done."])).1.1
  = Return (json (AnswerBody "Done." "gpt-oss:20b-cloud" None) 200) ∧
  result_name <$> finish_log = ["update_stage_checklist"; "complete_stage"] ∧
  result_status <$> finish_log = [success; success].
Proof. split_and!; vm_compute; reflexivity. Qed.

End OrdersDown.
